(** * kinope.tempering: the REST2 system rewrite (RESTFactory)

    A shallow embedding of [kinope/tempering.py].  The simulation engine
    (OpenMM) is an external collaborator: its [System] and [Force] objects are
    modelled as records holding exactly what the factory reads and writes, and
    its algebraic expression language (the energy strings handed to the custom
    forces and the protocol strings) as a small syntax with an evaluator over
    the real numbers. *)

From Stdlib Require Import Reals Lra.
From stdpp Require Import gmap strings list list_numbers fin_maps.

Local Open Scope string_scope.
Local Open Scope R_scope.

(** ** The engine's expression language

    Energy functions and protocol functions are strings in the engine's
    expression language.  The factory only concatenates such strings; the
    syntax tree below is what the engine's parser makes of them. *)

Module Lepton.

Inductive expr : Type :=
| Num (c : R)
| Var (x : string)
| Add (a b : expr)
| Sub (a b : expr)
| Mul (a b : expr)
| Div (a b : expr)
| Sq (a : expr)                  (* a^2 *)
| Cos (a : expr)
| Exp (a : expr)
| Sqrt (a : expr)
| Delta (a : expr)               (* delta(x) = 1 if x = 0, else 0 *)
| Step (a : expr)                (* step(x) = 0 if x < 0, else 1 *)
| Select (c a b : expr).         (* select(x,y,z) = z if x = 0, else y *)

Definition env := list (string * R).

Fixpoint lookup_var (x : string) (rho : env) : option R :=
  match rho with
  | [] => None
  | (y, v) :: rho' => if String.eqb x y then Some v else lookup_var x rho'
  end.

Definition delta (x : R) : R := if Req_EM_T x 0 then 1 else 0.
Definition step (x : R) : R := if Rlt_dec x 0 then 0 else 1.
Definition select (x y z : R) : R := if Req_EM_T x 0 then z else y.

(** [eval] is partial: an unbound variable has no value, and neither has a
    quotient by zero or the square root of a negative number (in floating
    point these give an infinity or a NaN, which are not real numbers). *)
Fixpoint eval (rho : env) (e : expr) : option R :=
  match e with
  | Num c => Some c
  | Var x => lookup_var x rho
  | Add a b => x ← eval rho a; y ← eval rho b; Some (x + y)
  | Sub a b => x ← eval rho a; y ← eval rho b; Some (x - y)
  | Mul a b => x ← eval rho a; y ← eval rho b; Some (x * y)
  | Div a b => x ← eval rho a; y ← eval rho b;
               if Req_EM_T y 0 then None else Some (x / y)
  | Sq a => x ← eval rho a; Some (x * x)
  | Cos a => x ← eval rho a; Some (cos x)
  | Exp a => x ← eval rho a; Some (exp x)
  | Sqrt a => x ← eval rho a;
              if Rlt_dec x 0 then None else Some (sqrt x)
  | Delta a => x ← eval rho a; Some (delta x)
  | Step a => x ← eval rho a; Some (step x)
  | Select c a b => x ← eval rho c; y ← eval rho a; z ← eval rho b;
                    Some (select x y z)
  end.

(** An energy string is a main expression followed by [name = expr;]
    definitions.  The parser reads the definitions from the last one to the
    first, so a definition may use the names that follow it in the string. *)
Definition program : Type := expr * list (string * expr).

Fixpoint eval_defs (rho : env) (defs : list (string * expr)) : option env :=
  match defs with
  | [] => Some rho
  | (x, e) :: defs' =>
      rho' ← eval_defs rho defs';
      v ← eval rho' e;
      Some ((x, v) :: rho')
  end.

Definition run (rho : env) (p : program) : option R :=
  rho' ← eval_defs rho (snd p); eval rho' (fst p).

End Lepton.

(** ** The engine's objects, as far as the factory touches them *)

Module OpenMM.

Inductive NonbondedMethod : Type :=
| NoCutoff | CutoffNonPeriodic | CutoffPeriodic | Ewald | PME | LJPME.

#[global] Instance NonbondedMethod_eq_dec : EqDecision NonbondedMethod.
Proof. solve_decision. Defined.

Definition Vec3 : Type := R * R * R.

(** A parameter offset: (global parameter, index of the particle or
    exception, charge scale, sigma scale, epsilon scale). *)
Definition offset : Type := string * Z * R * R * R.

Record Nonbonded : Type := mkNonbonded {
  nonbondedMethod : NonbondedMethod;
  cutoffDistance : R;
  useSwitchingFunction : bool;
  switchingDistance : R;
  reactionFieldDielectric : R;
  ewaldErrorTolerance : R;
  pmeParameters : R * Z * Z * Z;
  useDispersionCorrection : bool;
  nbGlobalParameters : list (string * R);
  nbParticles : list (R * R * R);                    (* charge, sigma, epsilon *)
  particleOffsets : list offset;
  nbExceptions : list (Z * Z * R * R * R);           (* p1, p2, chargeProd, sigma, epsilon *)
  exceptionOffsets : list offset;
}.

(** A custom bonded force: an energy string, the names of the per-term
    parameters, the global parameters with their defaults, and the terms
    (participants and per-term parameter values). *)
Record Custom (P : Type) : Type := mkCustom {
  energyFunction : Lepton.program;
  perTermParameters : list string;
  globalParameters : list (string * R);
  terms : list (P * list R);
}.
Arguments mkCustom {P} _ _ _ _.
Arguments energyFunction {P} _.
Arguments perTermParameters {P} _.
Arguments globalParameters {P} _.
Arguments terms {P} _.

(** Force classes of the engine that the factory neither reads nor builds. *)
Inductive other_class : Type :=
| CMMotionRemover | AndersenThermostat | CustomExternalForce
| CustomNonbondedForce | GBSAOBCForce | CMAPTorsionForce | RBTorsionForce.

Inductive Force : Type :=
| HarmonicBondForce (bonds : list (Z * Z * R * R))              (* p1, p2, length, k *)
| HarmonicAngleForce (angles : list (Z * Z * Z * R * R))        (* p1, p2, p3, theta0, k *)
| PeriodicTorsionForce (torsions : list (Z * Z * Z * Z * Z * R * R))
                                                   (* p1..p4, periodicity, phase, k *)
| NonbondedForce (nb : Nonbonded)
| MonteCarloBarostat (pressure temperature : R) (frequency : Z)
| CustomBondForce (f : Custom (Z * Z))
| CustomAngleForce (f : Custom (Z * Z * Z))
| CustomTorsionForce (f : Custom (Z * Z * Z * Z))
| OtherForce (c : other_class).

Definition other_class_name (c : other_class) : string :=
  match c with
  | CMMotionRemover => "CMMotionRemover"
  | AndersenThermostat => "AndersenThermostat"
  | CustomExternalForce => "CustomExternalForce"
  | CustomNonbondedForce => "CustomNonbondedForce"
  | GBSAOBCForce => "GBSAOBCForce"
  | CMAPTorsionForce => "CMAPTorsionForce"
  | RBTorsionForce => "RBTorsionForce"
  end.

(** [type(force).__name__] *)
Definition class_name (force : Force) : string :=
  match force with
  | HarmonicBondForce _ => "HarmonicBondForce"
  | HarmonicAngleForce _ => "HarmonicAngleForce"
  | PeriodicTorsionForce _ => "PeriodicTorsionForce"
  | NonbondedForce _ => "NonbondedForce"
  | MonteCarloBarostat _ _ _ => "MonteCarloBarostat"
  | CustomBondForce _ => "CustomBondForce"
  | CustomAngleForce _ => "CustomAngleForce"
  | CustomTorsionForce _ => "CustomTorsionForce"
  | OtherForce c => other_class_name c
  end.

Record System : Type := mkSystem {
  particleMasses : list R;
  constraints : list (Z * Z * R);
  forces : list Force;
  defaultPeriodicBoxVectors : Vec3 * Vec3 * Vec3;
}.

(** [openmm.System()] *)
Definition new_System : System :=
  {| particleMasses := []; constraints := []; forces := [];
     defaultPeriodicBoxVectors := ((2, 0, 0), (0, 2, 0), (0, 0, 2)) |}.

(** [openmm.NonbondedForce()] *)
Definition new_NonbondedForce : Nonbonded :=
  {| nonbondedMethod := NoCutoff; cutoffDistance := 1;
     useSwitchingFunction := false; switchingDistance := -1;
     reactionFieldDielectric := 783 / 10; ewaldErrorTolerance := 5 / 10000;
     pmeParameters := (0, 0%Z, 0%Z, 0%Z); useDispersionCorrection := true;
     nbGlobalParameters := []; nbParticles := []; particleOffsets := [];
     nbExceptions := []; exceptionOffsets := [] |}.

Definition getNumParticles (s : System) : Z := Z.of_nat (length (particleMasses s)).

(** The add-methods append to their container and return the new index. *)
Definition addParticle (mass : R) (s : System) : System :=
  {| particleMasses := particleMasses s ++ [mass]; constraints := constraints s;
     forces := forces s;
     defaultPeriodicBoxVectors := defaultPeriodicBoxVectors s |}.

Definition addConstraint (c : Z * Z * R) (s : System) : System :=
  {| particleMasses := particleMasses s; constraints := constraints s ++ [c];
     forces := forces s;
     defaultPeriodicBoxVectors := defaultPeriodicBoxVectors s |}.

Definition addForce (force : Force) (s : System) : nat * System :=
  (length (forces s),
   {| particleMasses := particleMasses s; constraints := constraints s;
      forces := forces s ++ [force];
      defaultPeriodicBoxVectors := defaultPeriodicBoxVectors s |}).

Definition setForces (fs : list Force) (s : System) : System :=
  {| particleMasses := particleMasses s; constraints := constraints s;
     forces := fs;
     defaultPeriodicBoxVectors := defaultPeriodicBoxVectors s |}.

Definition setDefaultPeriodicBoxVectors (b : Vec3 * Vec3 * Vec3) (s : System) : System :=
  {| particleMasses := particleMasses s; constraints := constraints s;
     forces := forces s; defaultPeriodicBoxVectors := b |}.

Definition addGlobalParameter {P} (name : string) (default : R) (f : Custom P) : Custom P :=
  mkCustom (energyFunction f) (perTermParameters f)
           (globalParameters f ++ [(name, default)]) (terms f).

Definition addPerTermParameter {P} (name : string) (f : Custom P) : Custom P :=
  mkCustom (energyFunction f) (perTermParameters f ++ [name])
           (globalParameters f) (terms f).

Definition addTerm {P} (p : P) (params : list R) (f : Custom P) : Custom P :=
  mkCustom (energyFunction f) (perTermParameters f) (globalParameters f)
           (terms f ++ [(p, params)]).

(** [openmm.CustomBondForce(energy)] and its siblings *)
Definition new_Custom {P} (energy : Lepton.program) : Custom P :=
  mkCustom energy [] [] [].

(** Setters and add-methods of [NonbondedForce]. *)
Definition setNonbondedMethod (m : NonbondedMethod) (nb : Nonbonded) : Nonbonded :=
  mkNonbonded m (cutoffDistance nb) (useSwitchingFunction nb)
    (switchingDistance nb) (reactionFieldDielectric nb)
    (ewaldErrorTolerance nb) (pmeParameters nb) (useDispersionCorrection nb)
    (nbGlobalParameters nb) (nbParticles nb) (particleOffsets nb)
    (nbExceptions nb) (exceptionOffsets nb).

Definition setCutoffDistance (d : R) (nb : Nonbonded) : Nonbonded :=
  mkNonbonded (nonbondedMethod nb) d (useSwitchingFunction nb)
    (switchingDistance nb) (reactionFieldDielectric nb)
    (ewaldErrorTolerance nb) (pmeParameters nb) (useDispersionCorrection nb)
    (nbGlobalParameters nb) (nbParticles nb) (particleOffsets nb)
    (nbExceptions nb) (exceptionOffsets nb).

Definition setUseSwitchingFunction (b : bool) (nb : Nonbonded) : Nonbonded :=
  mkNonbonded (nonbondedMethod nb) (cutoffDistance nb) b
    (switchingDistance nb) (reactionFieldDielectric nb)
    (ewaldErrorTolerance nb) (pmeParameters nb) (useDispersionCorrection nb)
    (nbGlobalParameters nb) (nbParticles nb) (particleOffsets nb)
    (nbExceptions nb) (exceptionOffsets nb).

Definition setSwitchingDistance (d : R) (nb : Nonbonded) : Nonbonded :=
  mkNonbonded (nonbondedMethod nb) (cutoffDistance nb)
    (useSwitchingFunction nb) d (reactionFieldDielectric nb)
    (ewaldErrorTolerance nb) (pmeParameters nb) (useDispersionCorrection nb)
    (nbGlobalParameters nb) (nbParticles nb) (particleOffsets nb)
    (nbExceptions nb) (exceptionOffsets nb).

Definition setReactionFieldDielectric (d : R) (nb : Nonbonded) : Nonbonded :=
  mkNonbonded (nonbondedMethod nb) (cutoffDistance nb)
    (useSwitchingFunction nb) (switchingDistance nb) d
    (ewaldErrorTolerance nb) (pmeParameters nb) (useDispersionCorrection nb)
    (nbGlobalParameters nb) (nbParticles nb) (particleOffsets nb)
    (nbExceptions nb) (exceptionOffsets nb).

Definition setEwaldErrorTolerance (t : R) (nb : Nonbonded) : Nonbonded :=
  mkNonbonded (nonbondedMethod nb) (cutoffDistance nb)
    (useSwitchingFunction nb) (switchingDistance nb)
    (reactionFieldDielectric nb) t (pmeParameters nb)
    (useDispersionCorrection nb) (nbGlobalParameters nb) (nbParticles nb)
    (particleOffsets nb) (nbExceptions nb) (exceptionOffsets nb).

Definition setPMEParameters (p : R * Z * Z * Z) (nb : Nonbonded) : Nonbonded :=
  mkNonbonded (nonbondedMethod nb) (cutoffDistance nb)
    (useSwitchingFunction nb) (switchingDistance nb)
    (reactionFieldDielectric nb) (ewaldErrorTolerance nb) p
    (useDispersionCorrection nb) (nbGlobalParameters nb) (nbParticles nb)
    (particleOffsets nb) (nbExceptions nb) (exceptionOffsets nb).

Definition setUseDispersionCorrection (b : bool) (nb : Nonbonded) : Nonbonded :=
  mkNonbonded (nonbondedMethod nb) (cutoffDistance nb)
    (useSwitchingFunction nb) (switchingDistance nb)
    (reactionFieldDielectric nb) (ewaldErrorTolerance nb) (pmeParameters nb) b
    (nbGlobalParameters nb) (nbParticles nb) (particleOffsets nb)
    (nbExceptions nb) (exceptionOffsets nb).

Definition nbAddGlobalParameter (name : string) (default : R) (nb : Nonbonded) : Nonbonded :=
  mkNonbonded (nonbondedMethod nb) (cutoffDistance nb)
    (useSwitchingFunction nb) (switchingDistance nb)
    (reactionFieldDielectric nb) (ewaldErrorTolerance nb) (pmeParameters nb)
    (useDispersionCorrection nb) (nbGlobalParameters nb ++ [(name, default)])
    (nbParticles nb) (particleOffsets nb) (nbExceptions nb)
    (exceptionOffsets nb).

Definition nbAddParticle (p : R * R * R) (nb : Nonbonded) : Nonbonded :=
  mkNonbonded (nonbondedMethod nb) (cutoffDistance nb)
    (useSwitchingFunction nb) (switchingDistance nb)
    (reactionFieldDielectric nb) (ewaldErrorTolerance nb) (pmeParameters nb)
    (useDispersionCorrection nb) (nbGlobalParameters nb)
    (nbParticles nb ++ [p]) (particleOffsets nb) (nbExceptions nb)
    (exceptionOffsets nb).

Definition addParticleParameterOffset (o : offset) (nb : Nonbonded) : Nonbonded :=
  mkNonbonded (nonbondedMethod nb) (cutoffDistance nb)
    (useSwitchingFunction nb) (switchingDistance nb)
    (reactionFieldDielectric nb) (ewaldErrorTolerance nb) (pmeParameters nb)
    (useDispersionCorrection nb) (nbGlobalParameters nb) (nbParticles nb)
    (particleOffsets nb ++ [o]) (nbExceptions nb) (exceptionOffsets nb).

Definition addExceptionParameterOffset (o : offset) (nb : Nonbonded) : Nonbonded :=
  mkNonbonded (nonbondedMethod nb) (cutoffDistance nb)
    (useSwitchingFunction nb) (switchingDistance nb)
    (reactionFieldDielectric nb) (ewaldErrorTolerance nb) (pmeParameters nb)
    (useDispersionCorrection nb) (nbGlobalParameters nb) (nbParticles nb)
    (particleOffsets nb) (nbExceptions nb) (exceptionOffsets nb ++ [o]).

(** [addException] appends and returns the index of the new exception,
    which is the number of exceptions before the call.  The engine refuses a
    second exception for a pair of particles that already has one; the forces
    read here were built by the engine, so an original force is taken to have
    at most one exception per pair and the refusal is left out. *)
Definition addException (e : Z * Z * R * R * R) (nb : Nonbonded) : Nonbonded :=
  mkNonbonded (nonbondedMethod nb) (cutoffDistance nb)
    (useSwitchingFunction nb) (switchingDistance nb)
    (reactionFieldDielectric nb) (ewaldErrorTolerance nb) (pmeParameters nb)
    (useDispersionCorrection nb) (nbGlobalParameters nb) (nbParticles nb)
    (particleOffsets nb) (nbExceptions nb ++ [e]) (exceptionOffsets nb).

Definition getNumExceptions (nb : Nonbonded) : Z := Z.of_nat (length (nbExceptions nb)).

End OpenMM.

(** ** The factory *)

Module REST.
Import OpenMM.
Import Lepton.

(** Exceptions that can leave [RESTFactory.__init__]. *)
Inductive exn : Type :=
| AssertionError (msg : string)
| KeyError (key : string)
| ValueError (unknown_forces : gset string) (system_name : string)
| AttributeError
| OpenMMException.

(** The factory object.  [_out_system_forces] holds references to force
    objects owned by [_out_system]: a reference is the position of the force
    in the system's force list, so that a call through the dictionary changes
    the force inside the system. *)
Record RESTFactory : Type := mkFactory {
  _use_dispersion_correction : bool;
  _num_particles : Z;
  _og_system : System;
  _og_system_forces : gmap string Force;
  _out_system_forces : gmap string nat;
  _solute_region : list Z;
  _solvent_region : list Z;
  _global_params : list string;
  _nonbonded_method : NonbondedMethod;
  _out_system : System;
}.

Definition _known_forces : gset string :=
  list_to_set ["HarmonicBondForce"; "HarmonicAngleForce"; "PeriodicTorsionForce";
               "NonbondedForce"; "MonteCarloBarostat"].

Definition set_out_system (o : System) (self : RESTFactory) : RESTFactory :=
  mkFactory (_use_dispersion_correction self) (_num_particles self)
    (_og_system self) (_og_system_forces self) (_out_system_forces self)
    (_solute_region self) (_solvent_region self) (_global_params self)
    (_nonbonded_method self) o.

Definition set_out_system_forces (d : gmap string nat) (self : RESTFactory) : RESTFactory :=
  mkFactory (_use_dispersion_correction self) (_num_particles self)
    (_og_system self) (_og_system_forces self) d
    (_solute_region self) (_solvent_region self) (_global_params self)
    (_nonbonded_method self) (_out_system self).

Definition set_global_params (l : list string) (self : RESTFactory) : RESTFactory :=
  mkFactory (_use_dispersion_correction self) (_num_particles self)
    (_og_system self) (_og_system_forces self) (_out_system_forces self)
    (_solute_region self) (_solvent_region self) l
    (_nonbonded_method self) (_out_system self).

(** *** Methods as state transformers that may raise *)

Definition M (A : Type) : Type := RESTFactory → (exn + A) * RESTFactory.

#[global] Instance M_ret : MRet M := λ A x self, (inr x, self).
#[global] Instance M_bind : MBind M := λ A B f m self,
  match m self with
  | (inl e, self') => (inl e, self')
  | (inr x, self') => f x self'
  end.

Definition raise {A} (e : exn) : M A := λ self, (inl e, self).
Definition get : M RESTFactory := λ self, (inr self, self).
Definition modify (f : RESTFactory → RESTFactory) : M unit := λ self, (inr tt, f self).

(** [for x in l: body] *)
Fixpoint forM_ {A} (l : list A) (body : A → M unit) : M unit :=
  match l with
  | [] => mret tt
  | x :: l' => body x ;; forM_ l' body
  end.

(** [self._og_system_forces[name]] *)
Definition og_force (name : string) : M Force := λ self,
  match _og_system_forces self !! name with
  | Some force => (inr force, self)
  | None => (inl (KeyError name), self)
  end.

(** [self._out_system_forces[name]] *)
Definition out_force (name : string) : M nat := λ self,
  match _out_system_forces self !! name with
  | Some ref => (inr ref, self)
  | None => (inl (KeyError name), self)
  end.

(** [self._out_system.addForce(force)] *)
Definition out_addForce (force : Force) : M nat := λ self,
  let '(ref, o) := addForce force (_out_system self) in
  (inr ref, set_out_system o self).

(** [self._out_system_forces[name] = force], [force] being referenced by [ref] *)
Definition register (name : string) (ref : nat) : M unit :=
  modify (λ self, set_out_system_forces (<[name := ref]> (_out_system_forces self)) self).

(** A method call on the force object behind a reference. *)
Definition call {A} (ref : nat) (method : Force → exn + (A * Force)) : M A := λ self,
  match forces (_out_system self) !! ref with
  | None => (inl AttributeError, self)
  | Some force =>
      match method force with
      | inl e => (inl e, self)
      | inr (x, force') =>
          (inr x, set_out_system (setForces (<[ref := force']> (forces (_out_system self)))
                                            (_out_system self)) self)
      end
  end.

Definition on_NonbondedForce {A} (m : Nonbonded → A * Nonbonded) (force : Force)
  : exn + (A * Force) :=
  match force with
  | NonbondedForce nb => let '(x, nb') := m nb in inr (x, NonbondedForce nb')
  | _ => inl AttributeError
  end.

Definition on_CustomBondForce (m : Custom (Z * Z) → Custom (Z * Z)) (force : Force)
  : exn + (unit * Force) :=
  match force with
  | CustomBondForce f => inr (tt, CustomBondForce (m f))
  | _ => inl AttributeError
  end.

Definition on_CustomAngleForce (m : Custom (Z * Z * Z) → Custom (Z * Z * Z)) (force : Force)
  : exn + (unit * Force) :=
  match force with
  | CustomAngleForce f => inr (tt, CustomAngleForce (m f))
  | _ => inl AttributeError
  end.

Definition on_CustomTorsionForce (m : Custom (Z * Z * Z * Z) → Custom (Z * Z * Z * Z))
  (force : Force) : exn + (unit * Force) :=
  match force with
  | CustomTorsionForce f => inr (tt, CustomTorsionForce (m f))
  | _ => inl AttributeError
  end.

(** *** [get_identifier] *)

(** The argument of [get_identifier] is a bare [int] or a list of them; the
    method tells them apart by [type(particles) == int]. *)
Inductive particles : Type :=
| Single (particle : Z)
| Many (ps : list Z).

Definition get_identifier (self : RESTFactory) (ps : particles) : Z :=
  match ps with
  | Single p => if bool_decide (p ∈ _solute_region self) then 0%Z else 1%Z
  | Many l =>
      if forallb (λ x, bool_decide (x ∈ _solvent_region self)) l then 1%Z
      else if forallb (λ x, bool_decide (x ∈ _solute_region self)) l then 0%Z
      else 2%Z
  end.

(** *** Energy strings *)

(** [scaling_expression(nb)]: the definitions
    [scale_factor = solute_scale*_is_solute + solvent_scale*_is_solvent + inter_scale*_is_inter;
     solvent_scale = 1.; {last_line}] *)
Definition scaling_expression (nb : bool) : list (string * expr) :=
  let last_line :=
    if negb nb then
      [("_is_solute", Delta (Var "identifier"));
       ("_is_solvent", Delta (Sub (Num 1) (Var "identifier")));
       ("_is_inter", Delta (Sub (Num 2) (Var "identifier")))]
    else
      [("_is_solute", Delta (Add (Var "identifier1") (Var "identifier2")));
       ("_is_solvent",
        Delta (Sub (Num 2) (Add (Var "identifier1") (Var "identifier2"))));
       ("_is_inter",
        Delta (Sub (Num 1) (Add (Var "identifier1") (Var "identifier2"))))] in
  ([("scale_factor",
    Add (Add (Mul (Var "solute_scale") (Var "_is_solute"))
             (Mul (Var "solvent_scale") (Var "_is_solvent")))
        (Mul (Var "inter_scale") (Var "_is_inter")));
   ("solvent_scale", Num 1)] ++ last_line)%list.

(** ['(K/2)*(r-length)^2;' + 'K = k*scale_factor;' + scaling_expression()] *)
Definition bond_energy_expression : program :=
  (Mul (Div (Var "K") (Num 2)) (Sq (Sub (Var "r") (Var "length"))),
   ([("K", Mul (Var "k") (Var "scale_factor"))] ++ scaling_expression false)%list).

(** ['(K/2)*(theta-theta0)^2;' + 'K = k*scale_factor;' + scaling_expression()] *)
Definition angle_energy_expression : program :=
  (Mul (Div (Var "K") (Num 2)) (Sq (Sub (Var "theta") (Var "theta0"))),
   ([("K", Mul (Var "k") (Var "scale_factor"))] ++ scaling_expression false)%list).

(** ['K*(1+cos(periodicity*theta-phase));' + 'K = k*scale_factor;' + scaling_expression()] *)
Definition torsion_energy_expression : program :=
  (Mul (Var "K")
       (Add (Num 1)
            (Cos (Sub (Mul (Var "periodicity") (Var "theta")) (Var "phase")))),
   ([("K", Mul (Var "k") (Var "scale_factor"))] ++ scaling_expression false)%list).

(** *** Building the output system *)

Definition append_global_param (q : string) : M unit :=
  modify (λ self, set_global_params (_global_params self ++ [q]) self).

Definition _handle_constraints : M unit :=
  self ← get;
  forM_ (constraints (_og_system self)) (λ c,
    modify (λ self, set_out_system (addConstraint c (_out_system self)) self)).

Definition _add_bond_force_terms : M unit :=
  let custom_core_force : Custom (Z * Z) := new_Custom bond_energy_expression in
  let custom_core_force := addPerTermParameter "length" custom_core_force in
  let custom_core_force := addPerTermParameter "k" custom_core_force in
  let custom_core_force := addPerTermParameter "identifier" custom_core_force in
  let qs := ["solute_scale"; "inter_scale"] in
  let custom_core_force :=
    foldl (λ f q, addGlobalParameter q 1 f) custom_core_force qs in
  forM_ qs append_global_param;;
  ref ← out_addForce (CustomBondForce custom_core_force);
  register (class_name (CustomBondForce custom_core_force)) ref.

Definition _add_angle_force_terms : M unit :=
  let custom_core_force : Custom (Z * Z * Z) := new_Custom angle_energy_expression in
  let custom_core_force := addPerTermParameter "theta0" custom_core_force in
  let custom_core_force := addPerTermParameter "k" custom_core_force in
  let custom_core_force := addPerTermParameter "identifier" custom_core_force in
  let qs := ["solute_scale"; "inter_scale"] in
  let custom_core_force :=
    foldl (λ f q, addGlobalParameter q 1 f) custom_core_force qs in
  forM_ qs append_global_param;;
  ref ← out_addForce (CustomAngleForce custom_core_force);
  register (class_name (CustomAngleForce custom_core_force)) ref.

Definition _add_torsion_force_terms : M unit :=
  let custom_core_force : Custom (Z * Z * Z * Z) :=
    new_Custom torsion_energy_expression in
  let custom_core_force := addPerTermParameter "periodicity" custom_core_force in
  let custom_core_force := addPerTermParameter "phase" custom_core_force in
  let custom_core_force := addPerTermParameter "k" custom_core_force in
  let custom_core_force := addPerTermParameter "identifier" custom_core_force in
  let qs := ["solute_scale"; "inter_scale"] in
  let custom_core_force :=
    foldl (λ f q, addGlobalParameter q 1 f) custom_core_force qs in
  forM_ qs append_global_param;;
  ref ← out_addForce (CustomTorsionForce custom_core_force);
  register (class_name (CustomTorsionForce custom_core_force)) ref.

(** [self._og_system_forces['NonbondedForce']], used as a [NonbondedForce] *)
Definition og_NonbondedForce : M Nonbonded :=
  force ← og_force "NonbondedForce";
  match force with
  | NonbondedForce nb => mret nb
  | _ => raise AttributeError
  end.

(** A setter called on the output's nonbonded force through [ref]. *)
Definition nb_set (ref : nat) (f : Nonbonded → Nonbonded) : M unit :=
  call ref (on_NonbondedForce (λ nb, (tt, f nb))).

Definition _add_nonbonded_force_terms : M unit :=
  let standard_nonbonded_force := NonbondedForce new_NonbondedForce in
  ref ← out_addForce standard_nonbonded_force;
  register (class_name standard_nonbonded_force) ref;;
  og ← og_NonbondedForce;
  let epsilon_solvent := reactionFieldDielectric og in
  let r_cutoff := cutoffDistance og in
  let switch_bool := useSwitchingFunction og in
  nb_set ref (setUseSwitchingFunction switch_bool);;
  (if switch_bool
   then nb_set ref (setSwitchingDistance (switchingDistance og))
   else mret tt);;
  self ← get;
  (if decide (_nonbonded_method self ≠ NoCutoff)
   then nb_set ref (setReactionFieldDielectric epsilon_solvent);;
        nb_set ref (setCutoffDistance r_cutoff)
   else mret tt);;
  (if bool_decide (_nonbonded_method self ∈ [PME; Ewald])
   then nb_set ref (setPMEParameters (pmeParameters og));;
        nb_set ref (setEwaldErrorTolerance (ewaldErrorTolerance og))
   else mret tt);;
  nb_set ref (setNonbondedMethod (_nonbonded_method self));;
  (if useDispersionCorrection og && _use_dispersion_correction self
   then ref' ← out_force "NonbondedForce";
        nb_set ref' (setUseDispersionCorrection true)
   else ref' ← out_force "NonbondedForce";
        nb_set ref' (setUseDispersionCorrection false));;
  forM_ ["electrostatic_scale"; "steric_scale"] (λ q,
    ref' ← out_force "NonbondedForce";
    nb_set ref' (nbAddGlobalParameter q 0);;
    append_global_param q).

(** [self.get_identifier(particles)] called from inside a method *)
Definition get_identifier_ (ps : particles) : M Z :=
  self ← get; mret (get_identifier self ps).

Definition og_HarmonicBondForce : M (list (Z * Z * R * R)) :=
  force ← og_force "HarmonicBondForce";
  match force with
  | HarmonicBondForce bonds => mret bonds
  | _ => raise AttributeError
  end.

Definition og_HarmonicAngleForce : M (list (Z * Z * Z * R * R)) :=
  force ← og_force "HarmonicAngleForce";
  match force with
  | HarmonicAngleForce angles => mret angles
  | _ => raise AttributeError
  end.

Definition og_PeriodicTorsionForce : M (list (Z * Z * Z * Z * Z * R * R)) :=
  force ← og_force "PeriodicTorsionForce";
  match force with
  | PeriodicTorsionForce torsions => mret torsions
  | _ => raise AttributeError
  end.

(** The loops run over [range(force.getNumBonds())] and fetch the parameters
    of each index, that is, over the terms in order. *)
Definition _add_bonds : M unit :=
  og_bond_force ← og_HarmonicBondForce;
  forM_ og_bond_force (λ '(p1, p2, length, k),
    identifier ← get_identifier_ (Many [p1; p2]);
    ref ← out_force "CustomBondForce";
    call ref (on_CustomBondForce (addTerm (p1, p2) [length; k; IZR identifier]))).

Definition _add_angles : M unit :=
  og_angle_force ← og_HarmonicAngleForce;
  forM_ og_angle_force (λ '(p1, p2, p3, theta0, k),
    identifier ← get_identifier_ (Many [p1; p2; p3]);
    ref ← out_force "CustomAngleForce";
    call ref (on_CustomAngleForce
                (addTerm (p1, p2, p3) [theta0; k; IZR identifier]))).

Definition _add_torsions : M unit :=
  og_torsion_force ← og_PeriodicTorsionForce;
  forM_ og_torsion_force (λ '(p1, p2, p3, p4, per, phase, k),
    identifier ← get_identifier_ (Many [p1; p2; p3; p4]);
    ref ← out_force "CustomTorsionForce";
    call ref (on_CustomTorsionForce
                (addTerm (p1, p2, p3, p4) [IZR per; phase; k; IZR identifier]))).

(** [self._out_system_forces['NonbondedForce'].method(...)] *)
Definition out_nb {A} (m : Nonbonded → A * Nonbonded) : M A :=
  ref ← out_force "NonbondedForce"; call ref (on_NonbondedForce m).

(** [og_nb_force.getParticleParameters(particle_idx)]: the engine refuses an
    index for which the force has no particle. *)
Definition getParticleParameters (nb : Nonbonded) (particle_idx : Z) : M (R * R * R) :=
  match nbParticles nb !! Z.to_nat particle_idx with
  | Some p => mret p
  | None => raise OpenMMException
  end.

Definition _add_nonbondeds : M unit :=
  og_nb_force ← og_NonbondedForce;
  self ← get;
  forM_ (seqZ 0 (_num_particles self)) (λ particle_idx,
    '(q, sigma, epsilon) ← getParticleParameters og_nb_force particle_idx;
    identifier ← get_identifier_ (Single particle_idx);
    if decide (identifier = 1%Z) then
      out_nb (λ nb, (tt, nbAddParticle (q, sigma, epsilon) nb))
    else
      out_nb (λ nb, (tt, nbAddParticle (q, sigma, epsilon) nb));;
      out_nb (λ nb, (tt, addParticleParameterOffset
                 ("electrostatic_scale", particle_idx, q, 0 * sigma, epsilon * 0) nb));;
      out_nb (λ nb, (tt, addParticleParameterOffset
                 ("steric_scale", particle_idx, q * 0, 0 * sigma, epsilon) nb)));;
  forM_ (nbExceptions og_nb_force) (λ '(p1, p2, chargeProd, sigma, epsilon),
    identifier ← get_identifier_ (Many [p1; p2]);
    exc_idx ← out_nb (λ nb,
      (getNumExceptions nb, addException (p1, p2, chargeProd, sigma, epsilon) nb));
    if decide (identifier = 1%Z) then mret tt
    else if decide (identifier = 0%Z) then
      out_nb (λ nb, (tt, addExceptionParameterOffset
                 ("steric_scale", exc_idx, chargeProd, 0 * sigma, epsilon) nb))
    else if decide (identifier = 2%Z) then
      out_nb (λ nb, (tt, addExceptionParameterOffset
                 ("electrostatic_scale", exc_idx, chargeProd, 0 * sigma, epsilon) nb))
    else mret tt).

(** *** [__init__] *)

(** [{type(force).__name__ : force for force in system.getForces()}]: a
    later force of the same class replaces an earlier one. *)
Definition forces_by_name (system : System) : gmap string Force :=
  foldl (λ d force, <[class_name force := force]> d) ∅ (forces system).

(** What a call of the constructor leaves behind: the factory, or an
    exception together with the output system as built so far ([None] when
    the exception is raised before the output system is created). *)
Inductive outcome : Type :=
| Returned (self : RESTFactory)
| Raised (e : exn) (out : option System).

(** Lines 65 to 103 of the constructor, after the attributes are set. *)
Definition __init__body : M unit :=
  self ← get;
  forM_ (particleMasses (_og_system self)) (λ particle_mass,
    modify (λ self, set_out_system (addParticle particle_mass (_out_system self)) self));;
  (if bool_decide ("MonteCarloBarostat" ∈ dom (_og_system_forces self)) then
     barostat ← og_force "MonteCarloBarostat";
     ref ← out_addForce barostat;
     register (class_name barostat) ref
   else mret tt);;
  let box_vectors := defaultPeriodicBoxVectors (_og_system self) in
  modify (λ self,
    set_out_system (setDefaultPeriodicBoxVectors box_vectors (_out_system self)) self);;
  forM_ ["og"] (λ system_name,
    self ← get;
    let force_names := dom (_og_system_forces self) in
    let unknown_forces := force_names ∖ _known_forces in
    if decide (0 < size unknown_forces)%nat
    then raise (ValueError unknown_forces system_name)
    else mret tt);;
  _handle_constraints;;
  _add_bond_force_terms;;
  _add_bonds;;
  _add_angle_force_terms;;
  _add_angles;;
  _add_torsion_force_terms;;
  _add_torsions;;
  _add_nonbonded_force_terms;;
  _add_nonbondeds.

Definition __init__ (system : System) (solute_region : list Z)
    (use_dispersion_correction : bool) : outcome :=
  let num_particles := getNumParticles system in
  let og_system_forces := forces_by_name system in
  let solvent_region :=
    elements ((list_to_set (seqZ 0 num_particles) : gset Z) ∖ list_to_set solute_region) in
  if negb (bool_decide ((list_to_set solute_region : gset Z)
                          ⊆ list_to_set (seqZ 0 num_particles))) then
    Raised (AssertionError "the solute region is not a subset of the system particles")
           None
  else
    match og_system_forces !! "NonbondedForce" with
    | None => Raised (KeyError "NonbondedForce") None
    | Some (NonbondedForce nb) =>
        let self :=
          {| _use_dispersion_correction := use_dispersion_correction;
             _num_particles := num_particles;
             _og_system := system;
             _og_system_forces := og_system_forces;
             _out_system_forces := ∅;
             _solute_region := solute_region;
             _solvent_region := solvent_region;
             _global_params := [];
             _nonbonded_method := nonbondedMethod nb;
             _out_system := new_System |} in
        match __init__body self with
        | (inl e, self') => Raised e (Some (_out_system self'))
        | (inr _, self') => Returned self'
        end
    | Some _ => Raised AttributeError None
    end.

Definition REST_system (self : RESTFactory) : System := _out_system self.

(** *** [get_protocol] *)

(** ["{T_min} + ({T_max} - {T_min})*(exp(2*{exponand}) - 1) / (exp(1) - 1)"] *)
Definition base_temperature_expression (T_min T_max : R) (exponand : expr) : expr :=
  Add (Num T_min)
      (Div (Mul (Sub (Num T_max) (Num T_min))
                (Sub (Exp (Mul (Num 2) exponand)) (Num 1)))
           (Sub (Exp (Num 1)) (Num 1))).

(** ["select(step(lambda - 0.5), {base with (1.0 - lambda)}, {base with (lambda)})"] *)
Definition temperature_expression (T_min T_max : R) : expr :=
  let exponand_1 := Var "lambda" in
  let exponand_2 := Sub (Num 1.0) (Var "lambda") in
  Select (Step (Sub (Var "lambda") (Num 0.5)))
         (base_temperature_expression T_min T_max exponand_2)
         (base_temperature_expression T_min T_max exponand_1).

(** The method has no [raise] and no assertion: it returns for all arguments. *)
Definition get_protocol (self : RESTFactory) (T_min T_max : R)
  : exn + list (string * expr) :=
  let temperature_expression := temperature_expression T_min T_max in
  let unique_global_params := elements (list_to_set (_global_params self) : gset string) in
  let alchemical_dict :=
    [("solute_scale", Div (Num T_min) temperature_expression);
     ("inter_scale", Sqrt (Div (Num T_min) temperature_expression));
     ("steric_scale", Sub (Div (Num T_min) temperature_expression) (Num 1));
     ("electrostatic_scale",
      Sub (Sqrt (Div (Num T_min) temperature_expression)) (Num 1))] in
  inr alchemical_dict.

(** Lookup in the returned dictionary. *)
Fixpoint dict_get {A} (d : list (string * A)) (key : string) : option A :=
  match d with
  | [] => None
  | (k, v) :: d' => if String.eqb key k then Some v else dict_get d' key
  end.

End REST.

(** ** What the engine computes from a system

    The context holds the current values of the global parameters.  A custom
    force evaluates its energy string for each term; the built-in bonded
    forces have fixed energy functions; the nonbonded force computes its
    interactions from effective parameters, the base value of each parameter
    plus, for every offset of the particle or exception, the offset's scale
    times the value of its global parameter. *)

Module Energy.
Import OpenMM.

(** Energy of one term of a custom force; [var] is the name of the geometric
    variable ([r] or [theta]) and [x] its value. *)
Definition custom_term_energy {P} (f : Custom P) (context : Lepton.env)
    (var : string) (x : R) (params : list R) : option R :=
  Lepton.run ((var, x) :: zip (perTermParameters f) params ++ context)%list
             (energyFunction f).

(** [HarmonicBondForce] and [HarmonicAngleForce]: (k/2)(x - x0)^2 *)
Definition harmonic_energy (k x0 x : R) : R := k / 2 * ((x - x0) * (x - x0)).

(** [PeriodicTorsionForce]: k(1 + cos(n theta - phase)) *)
Definition periodic_torsion_energy (k : R) (n : Z) (phase theta : R) : R :=
  k * (1 + cos (IZR n * theta - phase)).

(** The offsets that belong to the particle or exception [idx]. *)
Definition offsets_of (idx : Z) (offs : list offset) : list offset :=
  filter (λ o : offset, o.1.1.1.2 = idx) offs.

Fixpoint offsets_total (context : Lepton.env) (offs : list offset) : option (R * R * R) :=
  match offs with
  | [] => Some (0, 0, 0)
  | (param, _, chargeScale, sigmaScale, epsilonScale) :: offs' =>
      v ← Lepton.lookup_var param context;
      '(c, s, e) ← offsets_total context offs';
      Some (v * chargeScale + c, v * sigmaScale + s, v * epsilonScale + e)
  end.

Definition effective_parameters (context : Lepton.env) (base : R * R * R)
    (idx : Z) (offs : list offset) : option (R * R * R) :=
  let '(charge, sigma, epsilon) := base in
  '(c, s, e) ← offsets_total context (offsets_of idx offs);
  Some (charge + c, sigma + s, epsilon + e).

Definition particle_parameters (nb : Nonbonded) (context : Lepton.env) (idx : Z)
  : option (R * R * R) :=
  base ← nbParticles nb !! Z.to_nat idx;
  effective_parameters context base idx (particleOffsets nb).

Definition exception_parameters (nb : Nonbonded) (context : Lepton.env) (idx : Z)
  : option (R * R * R) :=
  '(_, _, chargeProd, sigma, epsilon) ← nbExceptions nb !! Z.to_nat idx;
  effective_parameters context (chargeProd, sigma, epsilon) idx (exceptionOffsets nb).

(** The context in which the original energies are to be reproduced. *)
Definition reference_context : Lepton.env :=
  [("solute_scale", 1); ("inter_scale", 1);
   ("steric_scale", 0); ("electrostatic_scale", 0)].

(** A context is at the reference point when it holds the four global
    parameters at these values, whatever else it holds. *)
Definition at_reference (context : Lepton.env) : Prop :=
  Lepton.lookup_var "solute_scale" context = Some 1
  ∧ Lepton.lookup_var "inter_scale" context = Some 1
  ∧ Lepton.lookup_var "steric_scale" context = Some 0
  ∧ Lepton.lookup_var "electrostatic_scale" context = Some 0.







End Energy.

(** ** The terms the constructor writes, as functions of the original terms

    [id] stands for the factory's [get_identifier]. *)

Module Rewritten.
Import OpenMM REST.

Section Terms.
Variable id : particles → Z.

(** The term [_add_bonds] adds for an original bond. *)
Definition bond (b : Z * Z * R * R) : (Z * Z) * list R :=
  let '(p1, p2, length, k) := b in
  ((p1, p2), [length; k; IZR (id (Many [p1; p2]))]).

Definition angle (a : Z * Z * Z * R * R) : (Z * Z * Z) * list R :=
  let '(p1, p2, p3, theta0, k) := a in
  ((p1, p2, p3), [theta0; k; IZR (id (Many [p1; p2; p3]))]).

Definition torsion (t : Z * Z * Z * Z * Z * R * R) : (Z * Z * Z * Z) * list R :=
  let '(p1, p2, p3, p4, per, phase, k) := t in
  ((p1, p2, p3, p4), [IZR per; phase; k; IZR (id (Many [p1; p2; p3; p4]))]).

(** The offsets [_add_nonbondeds] adds for particle [particle_idx]. *)
Definition particle_offsets (particle_idx : Z) (p : R * R * R) : list offset :=
  let '(q, sigma, epsilon) := p in
  if decide (id (Single particle_idx) = 1%Z) then []
  else [("electrostatic_scale", particle_idx, q, 0 * sigma, epsilon * 0);
        ("steric_scale", particle_idx, q * 0, 0 * sigma, epsilon)].

(** The offsets [_add_nonbondeds] adds for the exception it stored at
    [exc_idx]. *)
Definition exception_offsets (exc_idx : Z) (e : Z * Z * R * R * R) : list offset :=
  let '(p1, p2, chargeProd, sigma, epsilon) := e in
  let identifier := id (Many [p1; p2]) in
  if decide (identifier = 1%Z) then []
  else if decide (identifier = 0%Z) then
    [("steric_scale", exc_idx, chargeProd, 0 * sigma, epsilon)]
  else if decide (identifier = 2%Z) then
    [("electrostatic_scale", exc_idx, chargeProd, 0 * sigma, epsilon)]
  else [].

(** One round of the particle loop: [None] when the original force has no
    particle [particle_idx]. *)
Definition particle_step (og : Nonbonded) (particle_idx : Z) (nb : Nonbonded)
  : option Nonbonded :=
  p ← nbParticles og !! Z.to_nat particle_idx;
  Some (foldl (λ nb o, addParticleParameterOffset o nb) (nbAddParticle p nb)
              (particle_offsets particle_idx p)).

(** One round of the exception loop. *)
Definition exception_step (e : Z * Z * R * R * R) (nb : Nonbonded) : Nonbonded :=
  foldl (λ nb o, addExceptionParameterOffset o nb) (addException e nb)
        (exception_offsets (getNumExceptions nb) e).
End Terms.

Fixpoint foldM {A C} (g : A → C → option C) (l : list A) (c : C) : option C :=
  match l with
  | [] => Some c
  | x :: l' => c' ← g x c; foldM g l' c'
  end.

(** The output's nonbonded force when [_add_nonbonded_force_terms] is done. *)
Definition configured (method : NonbondedMethod) (use_dispersion_correction : bool)
    (og : Nonbonded) : Nonbonded :=
  let nb := setUseSwitchingFunction (useSwitchingFunction og) new_NonbondedForce in
  let nb := if useSwitchingFunction og
            then setSwitchingDistance (switchingDistance og) nb else nb in
  let nb := if decide (method ≠ NoCutoff)
            then setCutoffDistance (cutoffDistance og)
                   (setReactionFieldDielectric (reactionFieldDielectric og) nb)
            else nb in
  let nb := if bool_decide (method ∈ [PME; Ewald])
            then setEwaldErrorTolerance (ewaldErrorTolerance og)
                   (setPMEParameters (pmeParameters og) nb)
            else nb in
  let nb := setNonbondedMethod method nb in
  let nb := setUseDispersionCorrection
              (useDispersionCorrection og && use_dispersion_correction) nb in
  nbAddGlobalParameter "steric_scale" 0 (nbAddGlobalParameter "electrostatic_scale" 0 nb).

Definition bond_force (id : particles → Z) (bonds : list (Z * Z * R * R)) : Custom (Z * Z) :=
  mkCustom bond_energy_expression ["length"; "k"; "identifier"]
           [("solute_scale", 1); ("inter_scale", 1)] (bond id <$> bonds).

Definition angle_force (id : particles → Z) (angles : list (Z * Z * Z * R * R))
  : Custom (Z * Z * Z) :=
  mkCustom angle_energy_expression ["theta0"; "k"; "identifier"]
           [("solute_scale", 1); ("inter_scale", 1)] (angle id <$> angles).

Definition torsion_force (id : particles → Z)
    (torsions : list (Z * Z * Z * Z * Z * R * R)) : Custom (Z * Z * Z * Z) :=
  mkCustom torsion_energy_expression ["periodicity"; "phase"; "k"; "identifier"]
           [("solute_scale", 1); ("inter_scale", 1)] (torsion id <$> torsions).

Definition nonbonded_force (id : particles → Z) (num_particles : Z)
    (method : NonbondedMethod) (use_dispersion_correction : bool) (og : Nonbonded)
  : option Nonbonded :=
  nb ← foldM (particle_step id og) (seqZ 0 num_particles)
             (configured method use_dispersion_correction og);
  Some (foldl (λ nb e, exception_step id e nb) nb (nbExceptions og)).

(** The forces copied ahead of the rewritten ones: the barostat, if any. *)
Definition copied_forces (og_system_forces : gmap string Force) : list Force :=
  match og_system_forces !! "MonteCarloBarostat" with
  | Some barostat => [barostat]
  | None => []
  end.

End Rewritten.

(** ** States of the factory during construction *)

Module States.
Import OpenMM REST Rewritten.

(** The classifier a factory state carries. *)
Definition classifies (id : particles → Z) (s : RESTFactory) : Prop :=
  ∀ ps, get_identifier s ps = id ps.

(** The state after a call through [ref] has replaced the force by [force]. *)
Definition upd (ref : nat) (force : Force) (s : RESTFactory) : RESTFactory :=
  set_out_system
    (setForces (<[ref := force]> (forces (_out_system s))) (_out_system s)) s.

(** The state after a force has been created, added to the output system
    and registered, and the names [qs] appended to [_global_params]. *)
Definition added (name : string) (force : Force) (qs : list string) (s : RESTFactory)
  : RESTFactory :=
  mkFactory (_use_dispersion_correction s) (_num_particles s) (_og_system s)
    (_og_system_forces s)
    (<[name := length (forces (_out_system s))]> (_out_system_forces s))
    (_solute_region s) (_solvent_region s) (_global_params s ++ qs)
    (_nonbonded_method s)
    (setForces (forces (_out_system s) ++ [force]) (_out_system s)).

(** The state after the particle masses, the barostat and the box vectors
    are copied (lines 65 to 80). *)
Definition copied_masses_barostat_box (s : RESTFactory) : RESTFactory :=
  mkFactory (_use_dispersion_correction s) (_num_particles s) (_og_system s)
    (_og_system_forces s)
    (match _og_system_forces s !! "MonteCarloBarostat" with
     | Some barostat =>
         <[class_name barostat := length (forces (_out_system s))]> (_out_system_forces s)
     | None => _out_system_forces s
     end)
    (_solute_region s) (_solvent_region s) (_global_params s) (_nonbonded_method s)
    (mkSystem (particleMasses (_out_system s) ++ particleMasses (_og_system s))
              (constraints (_out_system s))
              (forces (_out_system s) ++ copied_forces (_og_system_forces s))
              (defaultPeriodicBoxVectors (_og_system s))).

(** The same with the constraints copied too (line 91). *)
Definition copied (s : RESTFactory) : RESTFactory :=
  set_out_system
    (mkSystem (particleMasses (_out_system (copied_masses_barostat_box s)))
              (constraints (_out_system s) ++ constraints (_og_system s))
              (forces (_out_system (copied_masses_barostat_box s)))
              (defaultPeriodicBoxVectors (_og_system s)))
    (copied_masses_barostat_box s).

(** The factory when the constructor returns. *)
Definition constructed (id : particles → Z) (s : RESTFactory)
    (bonds : list (Z * Z * R * R)) (angles : list (Z * Z * Z * R * R))
    (torsions : list (Z * Z * Z * Z * Z * R * R)) (nb : Nonbonded) : RESTFactory :=
  added "NonbondedForce" (NonbondedForce nb) ["electrostatic_scale"; "steric_scale"]
    (added "CustomTorsionForce" (CustomTorsionForce (torsion_force id torsions))
       ["solute_scale"; "inter_scale"]
       (added "CustomAngleForce" (CustomAngleForce (angle_force id angles))
          ["solute_scale"; "inter_scale"]
          (added "CustomBondForce" (CustomBondForce (bond_force id bonds))
             ["solute_scale"; "inter_scale"] (copied s)))).

(** The factory when the attributes are set (line 63). *)
Definition initial (system : System) (solute_region : list Z)
    (use_dispersion_correction : bool) (og : Nonbonded) : RESTFactory :=
  {| _use_dispersion_correction := use_dispersion_correction;
     _num_particles := getNumParticles system;
     _og_system := system;
     _og_system_forces := forces_by_name system;
     _out_system_forces := ∅;
     _solute_region := solute_region;
     _solvent_region :=
       elements ((list_to_set (seqZ 0 (getNumParticles system)) : gset Z)
                   ∖ list_to_set solute_region);
     _global_params := [];
     _nonbonded_method := nonbondedMethod og;
     _out_system := new_System |}.

(** *** Reading a factory *)

(** [self._og_system_forces[name]] and [self._out_system_forces[name]] as
    values: [None] where the Python expression raises. *)
Definition og_bonds (self : RESTFactory) : option (list (Z * Z * R * R)) :=
  force ← _og_system_forces self !! "HarmonicBondForce";
  match force with HarmonicBondForce bonds => Some bonds | _ => None end.

Definition og_angles (self : RESTFactory) : option (list (Z * Z * Z * R * R)) :=
  force ← _og_system_forces self !! "HarmonicAngleForce";
  match force with HarmonicAngleForce angles => Some angles | _ => None end.

Definition og_torsions (self : RESTFactory)
  : option (list (Z * Z * Z * Z * Z * R * R)) :=
  force ← _og_system_forces self !! "PeriodicTorsionForce";
  match force with PeriodicTorsionForce torsions => Some torsions | _ => None end.

Definition og_nonbonded (self : RESTFactory) : option Nonbonded :=
  force ← _og_system_forces self !! "NonbondedForce";
  match force with NonbondedForce nb => Some nb | _ => None end.

Definition out_force_object (self : RESTFactory) (name : string) : option Force :=
  ref ← _out_system_forces self !! name; forces (_out_system self) !! ref.

Definition out_bond_force (self : RESTFactory) : option (Custom (Z * Z)) :=
  force ← out_force_object self "CustomBondForce";
  match force with CustomBondForce f => Some f | _ => None end.

Definition out_angle_force (self : RESTFactory) : option (Custom (Z * Z * Z)) :=
  force ← out_force_object self "CustomAngleForce";
  match force with CustomAngleForce f => Some f | _ => None end.

Definition out_torsion_force (self : RESTFactory) : option (Custom (Z * Z * Z * Z)) :=
  force ← out_force_object self "CustomTorsionForce";
  match force with CustomTorsionForce f => Some f | _ => None end.

Definition out_nonbonded (self : RESTFactory) : option Nonbonded :=
  force ← out_force_object self "NonbondedForce";
  match force with NonbondedForce nb => Some nb | _ => None end.

(** *** Well-formed input *)

Definition valid_index (system : System) (p : Z) : Prop :=
  (0 ≤ p < getNumParticles system)%Z.

(** The particle indices the terms of a force mention. *)
Definition force_particles (force : Force) : list Z :=
  match force with
  | HarmonicBondForce bonds =>
      mjoin ((λ '(p1, p2, _, _), [p1; p2]) <$> bonds)
  | HarmonicAngleForce angles =>
      mjoin ((λ '(p1, p2, p3, _, _), [p1; p2; p3]) <$> angles)
  | PeriodicTorsionForce torsions =>
      mjoin ((λ '(p1, p2, p3, p4, _, _, _), [p1; p2; p3; p4]) <$> torsions)
  | NonbondedForce nb =>
      mjoin ((λ '(p1, p2, _, _, _), [p1; p2]) <$> nbExceptions nb)
  | _ => []
  end.

(** Every term is over particles of the system. *)
Definition valid_terms (system : System) : Prop :=
  ∀ force, force ∈ forces system → Forall (valid_index system) (force_particles force).

(** What the constructor needs of the system in order to return: no force
    class is unknown, the four force classes it rewrites are present, and the
    nonbonded force it reads (the last one of the system) has parameters for
    every particle of the system. *)
Definition supported (system : System) : Prop :=
  (∀ force, force ∈ forces system → class_name force ∈ _known_forces)
  ∧ (∀ name,
       name ∈ ["HarmonicBondForce"; "HarmonicAngleForce"; "PeriodicTorsionForce";
               "NonbondedForce"] →
       ∃ force, force ∈ forces system ∧ class_name force = name)
  ∧ (∀ og, forces_by_name system !! "NonbondedForce" = Some (NonbondedForce og) →
           (getNumParticles system ≤ Z.of_nat (length (nbParticles og)))%Z).

(** ... and of the solute region: it lies within the particle indices. *)
Definition accepted (system : System) (solute_region : list Z) : Prop :=
  (∀ p, p ∈ solute_region → valid_index system p) ∧ supported system.

(** The factor the rewritten bonded energy applies to the force constant,
    by identifier: 0 solute, 1 solvent, 2 inter. *)
Definition scale_factor (identifier : Z) (solute_scale inter_scale : R) : R :=
  if decide (identifier = 0%Z) then solute_scale
  else if decide (identifier = 1%Z) then 1
  else inter_scale.

End States.

(** ** The protocol as functions of lambda *)

Module Schedule.
Import REST.

(** The value of an entry of the dictionary [get_protocol] returns, at a
    value of [lambda]. *)
Definition protocol_value (d : list (string * Lepton.expr)) (name : string)
    (lambda : R) : option R :=
  e ← dict_get d name; Lepton.eval [("lambda", lambda)] e.

(** The ramp of [base_temperature_expression]. *)
Definition ramp (T_min T_max x : R) : R :=
  T_min + (T_max - T_min) * (exp (2 * x) - 1) / (exp 1 - 1).

(** The effective temperature in the specification's words: the ramp in
    lambda up to 0.5, the ramp in 1 - lambda above. *)
Definition spec_temperature (T_min T_max lambda : R) : R :=
  if Rle_dec lambda 0.5 then ramp T_min T_max lambda
  else ramp T_min T_max (1 - lambda).

End Schedule.

(** ** Small systems to run the constructor on *)

Module Examples.
Import OpenMM REST.

(** Four particles; the solute region used with it is [[0; 1]], so that the
    bond (0,1) lies in the solute, (1,2) straddles and (2,3) lies in the
    solvent, and likewise for the exceptions. *)
Definition nb4 : Nonbonded :=
  mkNonbonded PME 1 true (9 / 10) (783 / 10) (5 / 10000) (0, 0%Z, 0%Z, 0%Z) true []
    [(1, 3, 5); (-1, 2, 4); (0, 1, 1); (2, 3, 7)] []
    [(0%Z, 1%Z, 2, 1, 3); (1%Z, 2%Z, 3, 2, 6); (2%Z, 3%Z, 5, 4, 8)] [].

Definition bonds4 : Force :=
  HarmonicBondForce [(0%Z, 1%Z, 1, 100); (1%Z, 2%Z, 2, 200); (2%Z, 3%Z, 1, 300)].

Definition system4_with (fs : list Force) : System :=
  {| particleMasses := [12; 1; 16; 1];
     constraints := [(2%Z, 3%Z, 1)];
     forces := fs;
     defaultPeriodicBoxVectors := ((3, 0, 0), (0, 3, 0), (0, 0, 3)) |}.

Definition system4 : System :=
  system4_with [bonds4;
                HarmonicAngleForce [(0%Z, 1%Z, 2%Z, 2, 50)];
                PeriodicTorsionForce [(0%Z, 1%Z, 2%Z, 3%Z, 3%Z, 0, 5)];
                NonbondedForce nb4;
                MonteCarloBarostat 1 300 50].

(** The same with a centre-of-mass motion remover, as the test systems of
    the repository have before the test removes it. *)
Definition system4_cmm : System :=
  system4_with (forces system4 ++ [OtherForce CMMotionRemover]).

(** A system with a nonbonded force only, and one with no force at all. *)
Definition system4_nonbonded_only : System :=
  system4_with [NonbondedForce nb4].

Definition system4_no_forces : System := system4_with [].

(** A force the factory does not know and no nonbonded force. *)
Definition system4_cmm_only : System :=
  system4_with [OtherForce CMMotionRemover].

(** A factory to call [get_protocol] on. *)
Definition factory4 : RESTFactory :=
  match __init__ system4 [0%Z; 1%Z] true with
  | Returned self => self
  | Raised _ _ => States.initial system4 [0%Z; 1%Z] true nb4
  end.

End Examples.

(** ** The context the engine starts from, and the settings of a force *)

Module Defaults.
Import OpenMM REST.

(** The parameters a force puts into a context, with their defaults.  A
    custom force and a nonbonded force put in the global parameters added to
    them; a barostat puts in its pressure and its temperature, under the
    engine's names; the harmonic and the periodic forces put in none.  For the
    other classes the model does not hold what they would put in. *)
Definition force_global_parameters (force : Force) : option (list (string * R)) :=
  match force with
  | CustomBondForce f => Some (globalParameters f)
  | CustomAngleForce f => Some (globalParameters f)
  | CustomTorsionForce f => Some (globalParameters f)
  | NonbondedForce nb => Some (nbGlobalParameters nb)
  | MonteCarloBarostat pressure temperature _ =>
      Some [("MonteCarloPressure", pressure); ("MonteCarloTemperature", temperature)]
  | HarmonicBondForce _ | HarmonicAngleForce _ | PeriodicTorsionForce _ => Some []
  | OtherForce _ => None
  end.

(** A new context holds every parameter the forces of the system put in, at
    its default. *)
Definition default_context (s : System) : option Lepton.env :=
  mjoin <$> mapM force_global_parameters (forces s).

(** Everything of a nonbonded force but its particles, exceptions and
    offsets. *)
Definition settings (nb : Nonbonded) :=
  (nonbondedMethod nb, cutoffDistance nb, useSwitchingFunction nb,
   switchingDistance nb, reactionFieldDielectric nb, ewaldErrorTolerance nb,
   pmeParameters nb, useDispersionCorrection nb, nbGlobalParameters nb).

(** The context an integrator sets from the dictionary of [get_protocol] at
    a value of lambda: every entry evaluated. *)
Definition protocol_context (d : list (string * Lepton.expr)) (lambda : R)
  : option Lepton.env :=
  mapM (λ '(name, e), v ← Lepton.eval [("lambda", lambda)] e; Some (name, v)) d.

End Defaults.

(** ** kinope.utils: [serialize]

    The file system is the files on it, by name, and the answer of the
    operating system to opening a name for writing (the directory exists and
    may be written to, the name is not that of a directory, and so on).  A
    content records how it was written.  [serialized_thing] stands for
    [XmlSerializer.serialize(item)]. *)

Module Utils.








End Utils.

(** ** More systems to run the constructor on *)

Module MoreExamples.
Import OpenMM REST Examples.

(** Two bond forces: the factory reads the second. *)
Definition system4_two_bond_forces : System :=
  system4_with (HarmonicBondForce [(0%Z, 3%Z, 7, 700)] :: forces system4).

(** A bond that mentions particle 9 of a four-particle system. *)
Definition system4_stray_bond : System :=
  system4_with [HarmonicBondForce [(9%Z, 9%Z, 1, 100)];
                HarmonicAngleForce []; PeriodicTorsionForce [];
                NonbondedForce nb4].

(** A nonbonded force with parameters for two of the four particles. *)
Definition nb2 : Nonbonded :=
  mkNonbonded PME 1 true (9 / 10) (783 / 10) (5 / 10000) (0, 0%Z, 0%Z, 0%Z) true []
    [(1, 3, 5); (-1, 2, 4)] [] [(0%Z, 1%Z, 2, 1, 3)] [].

Definition system4_short_nonbonded : System :=
  system4_with [bonds4; HarmonicAngleForce []; PeriodicTorsionForce [];
                NonbondedForce nb2].

End MoreExamples.

(** * Properties of the factory *)

Import Lepton OpenMM REST Energy Rewritten States Schedule Examples.
Local Open Scope list_scope.

(** ** Running the methods *)

Lemma bind_run {A B} (m : M A) (f : A → M B) s x s1 :
  m s = (inr x, s1) → (m ≫= f) s = f x s1.
Proof. intros H. unfold mbind, M_bind. by rewrite H. Qed.

Lemma bind_fail {A B} (m : M A) (f : A → M B) s e s1 :
  m s = (inl e, s1) → (m ≫= f) s = (inl e, s1).
Proof. intros H. unfold mbind, M_bind. by rewrite H. Qed.

Lemma upd_id ref force s :
  forces (_out_system s) !! ref = Some force → upd ref force s = s.
Proof.
  intros H. unfold upd. rewrite list_insert_id by done.
  destruct s as [? ? ? ? ? ? ? ? ? []]. reflexivity.
Qed.

Lemma upd_upd ref f g s : upd ref f (upd ref g s) = upd ref f s.
Proof. unfold upd. cbn. by rewrite list_insert_insert_eq. Qed.

Lemma upd_lookup ref f g s :
  forces (_out_system s) !! ref = Some g →
  forces (_out_system (upd ref f s)) !! ref = Some f.
Proof. intros H. cbn. apply list_lookup_insert_eq. by eapply lookup_lt_Some. Qed.

Lemma foldM_total {A C} (h : A → C → C) (l : list A) (c : C) :
  foldM (λ x c, Some (h x c)) l c = Some (foldl (λ c x, h x c) c l).
Proof. revert c. induction l as [|x l IH]; intros c; cbn; [done | apply IH]. Qed.

Section Loop.
Context {A C : Type} (inj : C → Force) (name : string).
Context (Inv : RESTFactory → Prop).
Context (Inv_upd : ∀ s ref f, Inv s → Inv (upd ref f s)).
Context (g : A → C → option C) (body : A → M unit).

Lemma forM_foldM (l : list A) :
  (∀ x s ref c, x ∈ l → Inv s →
     _out_system_forces s !! name = Some ref →
     forces (_out_system s) !! ref = Some (inj c) →
     match g x c with
     | Some c' => body x s = (inr tt, upd ref (inj c') s)
     | None => ∃ e, body x s = (inl e, s)
     end) →
  ∀ s ref c, Inv s →
    _out_system_forces s !! name = Some ref →
    forces (_out_system s) !! ref = Some (inj c) →
    match foldM g l c with
    | Some c' => forM_ l body s = (inr tt, upd ref (inj c') s)
    | None => ∃ e s', forM_ l body s = (inl e, s')
    end.
Proof.
  induction l as [|x l IH]; intros Hbody s ref c Hi Hd Hf; cbn.
  - unfold mret, M_ret. by rewrite upd_id.
  - pose proof (Hbody x s ref c ltac:(left) Hi Hd Hf) as Hx.
    destruct (g x c) as [c'|]; cbn.
    + rewrite (bind_run _ _ _ _ _ Hx).
      specialize (IH (λ y s0 r0 c0 Hy, Hbody y s0 r0 c0 ltac:(by right))
                     (upd ref (inj c') s) ref c' (Inv_upd _ _ _ Hi) Hd
                     (upd_lookup _ _ _ _ Hf)).
      destruct (foldM g l c') as [c''|].
      * by rewrite IH, upd_upd.
      * done.
    + destruct Hx as [e Hx]. exists e, s. by rewrite (bind_fail _ _ _ _ _ Hx).
Qed.

Lemma forM_foldl (h : A → C → C) (l : list A) :
  g = (λ x c, Some (h x c)) →
  (∀ x s ref c, x ∈ l → Inv s →
     _out_system_forces s !! name = Some ref →
     forces (_out_system s) !! ref = Some (inj c) →
     body x s = (inr tt, upd ref (inj (h x c)) s)) →
  ∀ s ref c, Inv s →
    _out_system_forces s !! name = Some ref →
    forces (_out_system s) !! ref = Some (inj c) →
    forM_ l body s = (inr tt, upd ref (inj (foldl (λ c x, h x c) c l)) s).
Proof.
  intros Hg Hbody s ref c Hi Hd Hf.
  pose proof (forM_foldM l) as HL. rewrite Hg in HL.
  specialize (HL Hbody s ref c Hi Hd Hf). by rewrite foldM_total in HL.
Qed.
End Loop.


Lemma classifies_upd id s ref f : classifies id s → classifies id (upd ref f s).
Proof. intros H ps. apply H. Qed.

Lemma call_run {A} ref (method : Force → exn + (A * Force)) s force x force' :
  forces (_out_system s) !! ref = Some force →
  method force = inr (x, force') →
  call ref method s = (inr x, upd ref force' s).
Proof. intros Hf Hm. unfold call. by rewrite Hf, Hm. Qed.

Lemma out_force_run name s ref :
  _out_system_forces s !! name = Some ref → out_force name s = (inr ref, s).
Proof. intros H. unfold out_force. by rewrite H. Qed.

Lemma foldl_addTerm {X P} (h : X → P * list R) (l : list X) (c : Custom P) :
  foldl (λ c x, addTerm (h x).1 (h x).2 c) c l
  = mkCustom (energyFunction c) (perTermParameters c) (globalParameters c)
             (terms c ++ (h <$> l)).
Proof.
  revert c. induction l as [|x l IH]; intros c; cbn.
  - rewrite app_nil_r. by destruct c.
  - rewrite IH. cbn. rewrite <- app_assoc. cbn. by destruct (h x).
Qed.

Lemma og_HarmonicBondForce_run s bonds :
  _og_system_forces s !! "HarmonicBondForce" = Some (HarmonicBondForce bonds) →
  og_HarmonicBondForce s = (inr bonds, s).
Proof. intros H. unfold og_HarmonicBondForce, og_force, mbind, M_bind. by rewrite H. Qed.

Lemma get_identifier_run id s ps :
  classifies id s → get_identifier_ ps s = (inr (id ps), s).
Proof.
  intros H. unfold get_identifier_, mbind, M_bind, get, mret, M_ret.
  cbv beta iota. by rewrite H.
Qed.

Lemma _add_bonds_run id s ref c bonds :
  classifies id s →
  _og_system_forces s !! "HarmonicBondForce" = Some (HarmonicBondForce bonds) →
  _out_system_forces s !! "CustomBondForce" = Some ref →
  forces (_out_system s) !! ref = Some (CustomBondForce c) →
  _add_bonds s
  = (inr tt, upd ref (CustomBondForce
       (mkCustom (energyFunction c) (perTermParameters c) (globalParameters c)
                 (terms c ++ (bond id <$> bonds)))) s).
Proof.
  intros Hid Hog Hd Hf. unfold _add_bonds.
  rewrite (bind_run _ _ _ _ _ (og_HarmonicBondForce_run _ _ Hog)).
  rewrite <- (foldl_addTerm (bond id)).
  eapply (forM_foldl CustomBondForce "CustomBondForce" (classifies id)
            (classifies_upd id) _ _ (λ b c, addTerm (bond id b).1 (bond id b).2 c));
    [reflexivity | | done..].
  intros [[[p1 p2] length] k] s' ref' c' _ Hid' Hd' Hf'.
  rewrite (bind_run _ _ _ _ _ (get_identifier_run _ _ _ Hid')).
  rewrite (bind_run _ _ _ _ _ (out_force_run _ _ _ Hd')).
  by eapply call_run.
Qed.

Lemma og_HarmonicAngleForce_run s angles :
  _og_system_forces s !! "HarmonicAngleForce" = Some (HarmonicAngleForce angles) →
  og_HarmonicAngleForce s = (inr angles, s).
Proof. intros H. unfold og_HarmonicAngleForce, og_force, mbind, M_bind. by rewrite H. Qed.

Lemma og_PeriodicTorsionForce_run s torsions :
  _og_system_forces s !! "PeriodicTorsionForce" = Some (PeriodicTorsionForce torsions) →
  og_PeriodicTorsionForce s = (inr torsions, s).
Proof. intros H. unfold og_PeriodicTorsionForce, og_force, mbind, M_bind. by rewrite H. Qed.

Lemma og_NonbondedForce_run s nb :
  _og_system_forces s !! "NonbondedForce" = Some (NonbondedForce nb) →
  og_NonbondedForce s = (inr nb, s).
Proof. intros H. unfold og_NonbondedForce, og_force, mbind, M_bind. by rewrite H. Qed.

Lemma _add_angles_run id s ref c angles :
  classifies id s →
  _og_system_forces s !! "HarmonicAngleForce" = Some (HarmonicAngleForce angles) →
  _out_system_forces s !! "CustomAngleForce" = Some ref →
  forces (_out_system s) !! ref = Some (CustomAngleForce c) →
  _add_angles s
  = (inr tt, upd ref (CustomAngleForce
       (mkCustom (energyFunction c) (perTermParameters c) (globalParameters c)
                 (terms c ++ (angle id <$> angles)))) s).
Proof.
  intros Hid Hog Hd Hf. unfold _add_angles.
  rewrite (bind_run _ _ _ _ _ (og_HarmonicAngleForce_run _ _ Hog)).
  rewrite <- (foldl_addTerm (angle id)).
  eapply (forM_foldl CustomAngleForce "CustomAngleForce" (classifies id)
            (classifies_upd id) _ _ (λ b c, addTerm (angle id b).1 (angle id b).2 c));
    [reflexivity | | done..].
  intros [[[[p1 p2] p3] theta0] k] s' ref' c' _ Hid' Hd' Hf'.
  rewrite (bind_run _ _ _ _ _ (get_identifier_run _ _ _ Hid')).
  rewrite (bind_run _ _ _ _ _ (out_force_run _ _ _ Hd')).
  by eapply call_run.
Qed.

Lemma _add_torsions_run id s ref c torsions :
  classifies id s →
  _og_system_forces s !! "PeriodicTorsionForce" = Some (PeriodicTorsionForce torsions) →
  _out_system_forces s !! "CustomTorsionForce" = Some ref →
  forces (_out_system s) !! ref = Some (CustomTorsionForce c) →
  _add_torsions s
  = (inr tt, upd ref (CustomTorsionForce
       (mkCustom (energyFunction c) (perTermParameters c) (globalParameters c)
                 (terms c ++ (torsion id <$> torsions)))) s).
Proof.
  intros Hid Hog Hd Hf. unfold _add_torsions.
  rewrite (bind_run _ _ _ _ _ (og_PeriodicTorsionForce_run _ _ Hog)).
  rewrite <- (foldl_addTerm (torsion id)).
  eapply (forM_foldl CustomTorsionForce "CustomTorsionForce" (classifies id)
            (classifies_upd id) _ _
            (λ b c, addTerm (torsion id b).1 (torsion id b).2 c));
    [reflexivity | | done..].
  intros [[[[[[p1 p2] p3] p4] per] phase] k] s' ref' c' _ Hid' Hd' Hf'.
  rewrite (bind_run _ _ _ _ _ (get_identifier_run _ _ _ Hid')).
  rewrite (bind_run _ _ _ _ _ (out_force_run _ _ _ Hd')).
  by eapply call_run.
Qed.

Lemma out_nb_run {A} (m : Nonbonded → A * Nonbonded) s ref nb :
  _out_system_forces s !! "NonbondedForce" = Some ref →
  forces (_out_system s) !! ref = Some (NonbondedForce nb) →
  out_nb m s = (inr (m nb).1, upd ref (NonbondedForce (m nb).2) s).
Proof.
  intros Hd Hf. unfold out_nb.
  rewrite (bind_run _ _ _ _ _ (out_force_run _ _ _ Hd)).
  eapply call_run; [done|]. cbn. by destruct (m nb).
Qed.

Lemma particle_body_run id og s ref nb particle_idx :
  classifies id s →
  _out_system_forces s !! "NonbondedForce" = Some ref →
  forces (_out_system s) !! ref = Some (NonbondedForce nb) →
  let body :=
    ('(q, sigma, epsilon) ← getParticleParameters og particle_idx;
     identifier ← get_identifier_ (Single particle_idx);
     if decide (identifier = 1%Z) then
       out_nb (λ nb, (tt, nbAddParticle (q, sigma, epsilon) nb))
     else
       out_nb (λ nb, (tt, nbAddParticle (q, sigma, epsilon) nb));;
       out_nb (λ nb, (tt, addParticleParameterOffset
                  ("electrostatic_scale", particle_idx, q, 0 * sigma, epsilon * 0) nb));;
       out_nb (λ nb, (tt, addParticleParameterOffset
                  ("steric_scale", particle_idx, q * 0, 0 * sigma, epsilon) nb))) in
  match particle_step id og particle_idx nb with
  | Some nb' => body s = (inr tt, upd ref (NonbondedForce nb') s)
  | None => ∃ e, body s = (inl e, s)
  end.
Proof.
  intros Hid Hd Hf body. subst body.
  unfold particle_step, particle_offsets, getParticleParameters.
  destruct (nbParticles og !! Z.to_nat particle_idx) as [[[q sigma] epsilon]|].
  - change (Some (q, sigma, epsilon) ≫= ?f) with (f (q, sigma, epsilon)).
    cbv beta iota.
    rewrite (bind_run _ _ s (q, sigma, epsilon) s) by done.
    rewrite (bind_run _ _ _ _ _ (get_identifier_run _ _ _ Hid)).
    destruct (decide (id (Single particle_idx) = 1%Z)).
    + by erewrite out_nb_run.
    + erewrite bind_run; last by eapply out_nb_run.
      erewrite bind_run; last (eapply out_nb_run; [done | by eapply upd_lookup]).
      erewrite out_nb_run; [|done|]; last (eapply upd_lookup; by eapply upd_lookup).
      cbn. by rewrite !upd_upd.
  - eexists. by apply bind_fail.
Qed.

Lemma exception_body_run id s ref nb p1 p2 chargeProd sigma epsilon :
  classifies id s →
  _out_system_forces s !! "NonbondedForce" = Some ref →
  forces (_out_system s) !! ref = Some (NonbondedForce nb) →
  (identifier ← get_identifier_ (Many [p1; p2]);
   exc_idx ← out_nb (λ nb,
     (getNumExceptions nb, addException (p1, p2, chargeProd, sigma, epsilon) nb));
   if decide (identifier = 1%Z) then mret tt
   else if decide (identifier = 0%Z) then
     out_nb (λ nb, (tt, addExceptionParameterOffset
                ("steric_scale", exc_idx, chargeProd, 0 * sigma, epsilon) nb))
   else if decide (identifier = 2%Z) then
     out_nb (λ nb, (tt, addExceptionParameterOffset
                ("electrostatic_scale", exc_idx, chargeProd, 0 * sigma, epsilon) nb))
   else mret tt) s
  = (inr tt, upd ref (NonbondedForce
       (exception_step id (p1, p2, chargeProd, sigma, epsilon) nb)) s).
Proof.
  intros Hid Hd Hf. unfold exception_step, exception_offsets.
  rewrite (bind_run _ _ _ _ _ (get_identifier_run _ _ _ Hid)).
  erewrite bind_run; last by eapply out_nb_run.
  cbn [fst snd].
  destruct (decide (id (Many [p1; p2]) = 1%Z)); [done|].
  destruct (decide (id (Many [p1; p2]) = 0%Z)).
  { erewrite out_nb_run; [|done|by eapply upd_lookup]. cbn. by rewrite upd_upd. }
  destruct (decide (id (Many [p1; p2]) = 2%Z)); [|done].
  erewrite out_nb_run; [|done|by eapply upd_lookup]. cbn. by rewrite upd_upd.
Qed.

Lemma _add_nonbondeds_run id s ref nb og :
  classifies id s →
  _og_system_forces s !! "NonbondedForce" = Some (NonbondedForce og) →
  _out_system_forces s !! "NonbondedForce" = Some ref →
  forces (_out_system s) !! ref = Some (NonbondedForce nb) →
  match foldM (particle_step id og) (seqZ 0 (_num_particles s)) nb with
  | Some nb1 =>
      _add_nonbondeds s
      = (inr tt, upd ref (NonbondedForce
           (foldl (λ nb e, exception_step id e nb) nb1 (nbExceptions og))) s)
  | None => ∃ e s', _add_nonbondeds s = (inl e, s')
  end.
Proof.
  intros Hid Hog Hd Hf. unfold _add_nonbondeds.
  rewrite (bind_run _ _ _ _ _ (og_NonbondedForce_run _ _ Hog)).
  rewrite (bind_run get _ s s s) by done.
  pose proof (forM_foldM NonbondedForce "NonbondedForce" (classifies id)
                (classifies_upd id) (particle_step id og) _
                (seqZ 0 (_num_particles s))
                (λ x s0 r0 c0 _ Hi0 Hd0 Hf0, particle_body_run id og s0 r0 c0 x Hi0 Hd0 Hf0)
                s ref nb Hid Hd Hf) as H1.
  destruct (foldM (particle_step id og) (seqZ 0 (_num_particles s)) nb) as [nb1|].
  - rewrite (bind_run _ _ _ _ _ H1).
    erewrite (forM_foldl NonbondedForce "NonbondedForce" (classifies id)
                (classifies_upd id) _ _ (λ e nb, exception_step id e nb));
      [by rewrite upd_upd | reflexivity | | by apply classifies_upd | done
      | by eapply upd_lookup].
    intros [[[[p1 p2] chargeProd] sigma] epsilon] s0 r0 c0 _ Hi0 Hd0 Hf0.
    by apply exception_body_run.
  - destruct H1 as (e & s' & H1). exists e, s'. by apply bind_fail.
Qed.

Lemma classifies_added id name force qs s :
  classifies id s → classifies id (added name force qs s).
Proof. intros H ps. apply H. Qed.

Lemma added_dict name force qs s :
  _out_system_forces (added name force qs s) !! name
  = Some (length (forces (_out_system s))).
Proof. cbn. apply lookup_insert_eq. Qed.

Lemma added_lookup name force qs s :
  forces (_out_system (added name force qs s)) !! length (forces (_out_system s))
  = Some force.
Proof. cbn. apply list_lookup_middle. done. Qed.

Lemma upd_added name force force' qs s :
  upd (length (forces (_out_system s))) force' (added name force qs s)
  = added name force' qs s.
Proof.
  unfold upd, added. cbn. rewrite insert_app_r_alt by done.
  by rewrite Nat.sub_diag.
Qed.

Ltac unfold_M :=
  cbv [mbind M_bind mret M_ret modify append_global_param out_addForce register
       raise get].

Lemma add_and_register name force s :
  class_name force = name →
  (ref ← out_addForce force; register (class_name force) ref) s
  = (inr tt, added name force [] s).
Proof.
  intros <-. unfold added. rewrite app_nil_r. reflexivity.
Qed.

Lemma append_global_param_added name force qs q s :
  append_global_param q (added name force qs s)
  = (inr tt, added name force (qs ++ [q]) s).
Proof. unfold added, append_global_param, modify. cbn. by rewrite app_assoc. Qed.

Lemma _add_bond_force_terms_run id s :
  _add_bond_force_terms s
  = (inr tt, added "CustomBondForce" (CustomBondForce (bond_force id []))
               ["solute_scale"; "inter_scale"] s).
Proof.
  unfold added. cbn. unfold_M. cbn. by rewrite <- app_assoc.
Qed.

Lemma _add_angle_force_terms_run id s :
  _add_angle_force_terms s
  = (inr tt, added "CustomAngleForce" (CustomAngleForce (angle_force id []))
               ["solute_scale"; "inter_scale"] s).
Proof.
  unfold added. cbn. unfold_M. cbn. by rewrite <- app_assoc.
Qed.

Lemma _add_torsion_force_terms_run id s :
  _add_torsion_force_terms s
  = (inr tt, added "CustomTorsionForce" (CustomTorsionForce (torsion_force id []))
               ["solute_scale"; "inter_scale"] s).
Proof.
  unfold added. cbn. unfold_M. cbn. by rewrite <- app_assoc.
Qed.

Lemma bonds_added id s bonds :
  classifies id s →
  _og_system_forces s !! "HarmonicBondForce" = Some (HarmonicBondForce bonds) →
  (_add_bond_force_terms;; _add_bonds) s
  = (inr tt, added "CustomBondForce" (CustomBondForce (bond_force id bonds))
               ["solute_scale"; "inter_scale"] s).
Proof.
  intros Hid Hog.
  rewrite (bind_run _ _ _ _ _ (_add_bond_force_terms_run id s)).
  erewrite _add_bonds_run;
    [| by apply classifies_added | done | apply added_dict | apply added_lookup].
  by rewrite upd_added.
Qed.

Lemma angles_added id s angles :
  classifies id s →
  _og_system_forces s !! "HarmonicAngleForce" = Some (HarmonicAngleForce angles) →
  (_add_angle_force_terms;; _add_angles) s
  = (inr tt, added "CustomAngleForce" (CustomAngleForce (angle_force id angles))
               ["solute_scale"; "inter_scale"] s).
Proof.
  intros Hid Hog.
  rewrite (bind_run _ _ _ _ _ (_add_angle_force_terms_run id s)).
  erewrite _add_angles_run;
    [| by apply classifies_added | done | apply added_dict | apply added_lookup].
  by rewrite upd_added.
Qed.

Lemma torsions_added id s torsions :
  classifies id s →
  _og_system_forces s !! "PeriodicTorsionForce" = Some (PeriodicTorsionForce torsions) →
  (_add_torsion_force_terms;; _add_torsions) s
  = (inr tt, added "CustomTorsionForce" (CustomTorsionForce (torsion_force id torsions))
               ["solute_scale"; "inter_scale"] s).
Proof.
  intros Hid Hog.
  rewrite (bind_run _ _ _ _ _ (_add_torsion_force_terms_run id s)).
  erewrite _add_torsions_run;
    [| by apply classifies_added | done | apply added_dict | apply added_lookup].
  by rewrite upd_added.
Qed.

Lemma bind_assoc {A B C} (m : M A) (f : A → M B) (g : B → M C) s :
  ((m ≫= f) ≫= g) s = (m ≫= λ x, f x ≫= g) s.
Proof. unfold mbind, M_bind. by destruct (m s) as [[e|x] s']. Qed.

Lemma nb_set_added name nb qs s f :
  nb_set (length (forces (_out_system s))) f (added name (NonbondedForce nb) qs s)
  = (inr tt, added name (NonbondedForce (f nb)) qs s).
Proof.
  unfold nb_set. erewrite call_run; [|apply added_lookup|reflexivity].
  by rewrite upd_added.
Qed.

Lemma _add_nonbonded_force_terms_run s og :
  _og_system_forces s !! "NonbondedForce" = Some (NonbondedForce og) →
  _add_nonbonded_force_terms s
  = (inr tt, added "NonbondedForce"
               (NonbondedForce (configured (_nonbonded_method s)
                                  (_use_dispersion_correction s) og))
               ["electrostatic_scale"; "steric_scale"] s).
Proof.
  intros Hog. unfold _add_nonbonded_force_terms, configured.
  erewrite bind_run; [|reflexivity].
  erewrite bind_run; last first.
  { instantiate (1 := added "NonbondedForce" (NonbondedForce new_NonbondedForce) [] s).
    unfold added. rewrite app_nil_r. reflexivity. }
  erewrite bind_run; [|by apply og_NonbondedForce_run].
  cbn [class_name forM_].
  set (ref := length (forces (_out_system s))).
  erewrite bind_run; [|apply nb_set_added].
  erewrite bind_run; last first.
  { instantiate (1 := added "NonbondedForce" (NonbondedForce
       (if useSwitchingFunction og
        then setSwitchingDistance (switchingDistance og)
               (setUseSwitchingFunction (useSwitchingFunction og) new_NonbondedForce)
        else setUseSwitchingFunction (useSwitchingFunction og) new_NonbondedForce)) [] s).
    instantiate (1 := tt).
    destruct (useSwitchingFunction og); [apply nb_set_added | reflexivity]. }
  erewrite bind_run; [|reflexivity].
  change (_nonbonded_method (added _ _ _ s)) with (_nonbonded_method s).
  change (_use_dispersion_correction (added _ _ _ s)) with (_use_dispersion_correction s).
  destruct (decide (_nonbonded_method s ≠ NoCutoff));
    destruct (bool_decide (_nonbonded_method s ∈ [PME; Ewald]));
    destruct (useDispersionCorrection og && _use_dispersion_correction s);
    repeat (rewrite ?bind_assoc; erewrite bind_run;
            [| first [ apply nb_set_added
                     | apply out_force_run, added_dict
                     | apply append_global_param_added
                     | reflexivity ] ]);
    reflexivity.
Qed.

Lemma nonbondeds_added id s og :
  classifies id s →
  _og_system_forces s !! "NonbondedForce" = Some (NonbondedForce og) →
  match nonbonded_force id (_num_particles s) (_nonbonded_method s)
          (_use_dispersion_correction s) og with
  | Some nb =>
      (_add_nonbonded_force_terms;; _add_nonbondeds) s
      = (inr tt, added "NonbondedForce" (NonbondedForce nb)
                   ["electrostatic_scale"; "steric_scale"] s)
  | None => ∃ e s', (_add_nonbonded_force_terms;; _add_nonbondeds) s = (inl e, s')
  end.
Proof.
  intros Hid Hog. unfold nonbonded_force.
  rewrite (bind_run _ _ _ _ _ (_add_nonbonded_force_terms_run s og Hog)).
  pose proof (_add_nonbondeds_run id
    (added "NonbondedForce"
       (NonbondedForce (configured (_nonbonded_method s)
                          (_use_dispersion_correction s) og))
       ["electrostatic_scale"; "steric_scale"] s)
    _ _ og (classifies_added _ _ _ _ _ Hid) Hog (added_dict _ _ _ _)
    (added_lookup _ _ _ _)) as H.
  change (_num_particles (added _ _ _ s)) with (_num_particles s) in H.
  destruct (foldM _ _ _) as [nb1|]; cbn.
  - by rewrite H, upd_added.
  - done.
Qed.

Lemma forM_modify {A} (f : A → RESTFactory → RESTFactory) (l : list A) s :
  forM_ l (λ x, modify (f x)) s = (inr tt, foldl (λ s x, f x s) s l).
Proof. revert s. induction l as [|x l IH]; intros s; [done|]. cbn. apply IH. Qed.

Lemma foldl_addParticle (l : list R) s :
  foldl (λ s m, set_out_system (addParticle m (_out_system s)) s) s l
  = set_out_system
      (mkSystem (particleMasses (_out_system s) ++ l) (constraints (_out_system s))
                (forces (_out_system s)) (defaultPeriodicBoxVectors (_out_system s))) s.
Proof.
  revert s. induction l as [|m l IH]; intros s; cbn.
  - rewrite app_nil_r. by destruct s as [? ? ? ? ? ? ? ? ? []].
  - rewrite IH. cbn. by rewrite <- app_assoc.
Qed.

Lemma foldl_addConstraint (l : list (Z * Z * R)) s :
  foldl (λ s c, set_out_system (addConstraint c (_out_system s)) s) s l
  = set_out_system
      (mkSystem (particleMasses (_out_system s)) (constraints (_out_system s) ++ l)
                (forces (_out_system s)) (defaultPeriodicBoxVectors (_out_system s))) s.
Proof.
  revert s. induction l as [|m l IH]; intros s; cbn.
  - rewrite app_nil_r. by destruct s as [? ? ? ? ? ? ? ? ? []].
  - rewrite IH. cbn. by rewrite <- app_assoc.
Qed.

Lemma prefix_run (k : M unit) s :
  (self ← get;
   forM_ (particleMasses (_og_system self)) (λ particle_mass,
     modify (λ self, set_out_system (addParticle particle_mass (_out_system self)) self));;
   (if bool_decide ("MonteCarloBarostat" ∈ dom (_og_system_forces self)) then
      barostat ← og_force "MonteCarloBarostat";
      ref ← out_addForce barostat;
      register (class_name barostat) ref
    else mret tt);;
   let box_vectors := defaultPeriodicBoxVectors (_og_system self) in
   modify (λ self,
     set_out_system (setDefaultPeriodicBoxVectors box_vectors (_out_system self)) self);;
   k) s
  = k (copied_masses_barostat_box s).
Proof.
  erewrite bind_run; [|reflexivity].
  erewrite bind_run; [|apply forM_modify]. rewrite foldl_addParticle.
  unfold copied_masses_barostat_box, copied_forces.
  destruct (_og_system_forces s !! "MonteCarloBarostat") as [b|] eqn:Hb.
  - rewrite bool_decide_eq_true_2 by (apply elem_of_dom; eauto).
    erewrite bind_run; last first.
    { erewrite bind_run; [|unfold og_force; cbn; by rewrite Hb]. reflexivity. }
    erewrite bind_run; reflexivity.
  - rewrite bool_decide_eq_false_2 by (rewrite not_elem_of_dom; done).
    erewrite bind_run; [|reflexivity].
    erewrite bind_run; [|reflexivity].
    cbn. by rewrite app_nil_r.
Qed.

Lemma no_unknown_forces (d : gmap string Force) :
  ¬ (0 < size (dom d ∖ _known_forces))%nat ↔ dom d ⊆ _known_forces.
Proof.
  split.
  - intros H x Hx. destruct (decide (x ∈ _known_forces)) as [|Hn]; [done|].
    exfalso. apply H. apply Nat.neq_0_lt_0. intros Hs.
    apply size_empty_iff in Hs. apply (not_elem_of_empty (C:=gset string) x).
    apply Hs, elem_of_difference. done.
  - intros H Hs. assert (dom d ∖ _known_forces = ∅) as E.
    { apply set_eq. intros x. rewrite elem_of_difference. split.
      - intros [Hx Hn]. destruct Hn. by apply H.
      - intros Hx. by apply not_elem_of_empty in Hx. }
    rewrite E, size_empty in Hs. lia.
Qed.

Lemma check_and_constraints_run (k : M unit) s :
  dom (_og_system_forces s) ⊆ _known_forces →
  (forM_ ["og"] (λ system_name,
     self ← get;
     let force_names := dom (_og_system_forces self) in
     let unknown_forces := force_names ∖ _known_forces in
     if decide (0 < size unknown_forces)%nat
     then raise (ValueError unknown_forces system_name)
     else mret tt);;
   _handle_constraints;; k) (copied_masses_barostat_box s)
  = k (copied s).
Proof.
  intros Hk. apply no_unknown_forces in Hk.
  erewrite bind_run; last first.
  { cbn [forM_]. erewrite bind_run; last first.
    { erewrite bind_run; [|reflexivity].
      change (_og_system_forces (copied_masses_barostat_box s))
        with (_og_system_forces s).
      cbv zeta. destruct (decide _) as [|_]; [done|]. reflexivity. }
    reflexivity. }
  erewrite bind_run; last first.
  { unfold _handle_constraints. erewrite bind_run; [|reflexivity].
    rewrite forM_modify, foldl_addConstraint. reflexivity. }
  reflexivity.
Qed.

Lemma check_fails (k : M unit) s :
  ¬ dom (_og_system_forces s) ⊆ _known_forces →
  (forM_ ["og"] (λ system_name,
     self ← get;
     let force_names := dom (_og_system_forces self) in
     let unknown_forces := force_names ∖ _known_forces in
     if decide (0 < size unknown_forces)%nat
     then raise (ValueError unknown_forces system_name)
     else mret tt);;
   k) (copied_masses_barostat_box s)
  = (inl (ValueError (dom (_og_system_forces s) ∖ _known_forces) "og"),
     copied_masses_barostat_box s).
Proof.
  intros Hk. rewrite <- no_unknown_forces in Hk.
  apply bind_fail. cbn [forM_]. apply bind_fail.
  erewrite bind_run; [|reflexivity].
  change (_og_system_forces (copied_masses_barostat_box s))
    with (_og_system_forces s).
  cbv zeta. destruct (decide _) as [|Hn]; [reflexivity|]. by destruct Hk.
Qed.

Lemma classifies_copied id s : classifies id s → classifies id (copied s).
Proof. intros H ps. apply H. Qed.

Lemma __init__body_unknown s :
  ¬ dom (_og_system_forces s) ⊆ _known_forces →
  __init__body s
  = (inl (ValueError (dom (_og_system_forces s) ∖ _known_forces) "og"),
     copied_masses_barostat_box s).
Proof. intros H. unfold __init__body. rewrite prefix_run. by apply check_fails. Qed.

Lemma __init__body_run id s bonds angles torsions og nb :
  classifies id s →
  dom (_og_system_forces s) ⊆ _known_forces →
  _og_system_forces s !! "HarmonicBondForce" = Some (HarmonicBondForce bonds) →
  _og_system_forces s !! "HarmonicAngleForce" = Some (HarmonicAngleForce angles) →
  _og_system_forces s !! "PeriodicTorsionForce" = Some (PeriodicTorsionForce torsions) →
  _og_system_forces s !! "NonbondedForce" = Some (NonbondedForce og) →
  nonbonded_force id (_num_particles s) (_nonbonded_method s)
    (_use_dispersion_correction s) og = Some nb →
  __init__body s = (inr tt, constructed id s bonds angles torsions nb).
Proof.
  intros Hid Hk Hb Ha Ht Hn Hnb. unfold __init__body.
  rewrite prefix_run, check_and_constraints_run by done.
  apply classifies_copied in Hid.
  rewrite <- bind_assoc. rewrite (bind_run _ _ _ _ _ (bonds_added id _ bonds Hid Hb)).
  eapply classifies_added in Hid.
  rewrite <- bind_assoc. erewrite (bind_run _ _ _ _ _ (angles_added id _ angles Hid Ha)).
  eapply classifies_added in Hid.
  rewrite <- bind_assoc. erewrite (bind_run _ _ _ _ _ (torsions_added id _ torsions Hid Ht)).
  eapply classifies_added in Hid.
  pose proof (nonbondeds_added id _ og Hid Hn) as H.
  cbn [_num_particles _nonbonded_method _use_dispersion_correction added copied
       set_out_system copied_masses_barostat_box] in H.
  rewrite Hnb in H. exact H.
Qed.

Lemma is_bond_force (o : option Force) :
  (∃ bonds, o = Some (HarmonicBondForce bonds))
  ∨ (∀ bonds, o ≠ Some (HarmonicBondForce bonds)).
Proof. destruct o as [[]|]; eauto; right; congruence. Qed.

Lemma is_angle_force (o : option Force) :
  (∃ angles, o = Some (HarmonicAngleForce angles))
  ∨ (∀ angles, o ≠ Some (HarmonicAngleForce angles)).
Proof. destruct o as [[]|]; eauto; right; congruence. Qed.

Lemma is_torsion_force (o : option Force) :
  (∃ torsions, o = Some (PeriodicTorsionForce torsions))
  ∨ (∀ torsions, o ≠ Some (PeriodicTorsionForce torsions)).
Proof. destruct o as [[]|]; eauto; right; congruence. Qed.

Lemma bonds_fail s :
  (∀ bonds, _og_system_forces s !! "HarmonicBondForce" ≠ Some (HarmonicBondForce bonds)) →
  ∃ e s', (_add_bond_force_terms;; _add_bonds) s = (inl e, s').
Proof.
  intros H.
  rewrite (bind_run _ _ _ _ _ (_add_bond_force_terms_run (λ _, 0%Z) s)).
  unfold _add_bonds, og_HarmonicBondForce, og_force. unfold_M.
  change (_og_system_forces (added _ _ _ s)) with (_og_system_forces s).
  destruct (_og_system_forces s !! "HarmonicBondForce") as [[]|]; try by eauto.
  by destruct (H bonds).
Qed.

Lemma angles_fail s :
  (∀ angles, _og_system_forces s !! "HarmonicAngleForce" ≠ Some (HarmonicAngleForce angles)) →
  ∃ e s', (_add_angle_force_terms;; _add_angles) s = (inl e, s').
Proof.
  intros H.
  rewrite (bind_run _ _ _ _ _ (_add_angle_force_terms_run (λ _, 0%Z) s)).
  unfold _add_angles, og_HarmonicAngleForce, og_force. unfold_M.
  change (_og_system_forces (added _ _ _ s)) with (_og_system_forces s).
  destruct (_og_system_forces s !! "HarmonicAngleForce") as [[]|]; try by eauto.
  by destruct (H angles).
Qed.

Lemma torsions_fail s :
  (∀ torsions,
     _og_system_forces s !! "PeriodicTorsionForce" ≠ Some (PeriodicTorsionForce torsions)) →
  ∃ e s', (_add_torsion_force_terms;; _add_torsions) s = (inl e, s').
Proof.
  intros H.
  rewrite (bind_run _ _ _ _ _ (_add_torsion_force_terms_run (λ _, 0%Z) s)).
  unfold _add_torsions, og_PeriodicTorsionForce, og_force. unfold_M.
  change (_og_system_forces (added _ _ _ s)) with (_og_system_forces s).
  destruct (_og_system_forces s !! "PeriodicTorsionForce") as [[]|]; try by eauto.
  by destruct (H torsions).
Qed.

Lemma __init__body_cases id s og :
  classifies id s →
  _og_system_forces s !! "NonbondedForce" = Some (NonbondedForce og) →
  (∃ bonds angles torsions nb,
     dom (_og_system_forces s) ⊆ _known_forces
     ∧ _og_system_forces s !! "HarmonicBondForce" = Some (HarmonicBondForce bonds)
     ∧ _og_system_forces s !! "HarmonicAngleForce" = Some (HarmonicAngleForce angles)
     ∧ _og_system_forces s !! "PeriodicTorsionForce" = Some (PeriodicTorsionForce torsions)
     ∧ nonbonded_force id (_num_particles s) (_nonbonded_method s)
         (_use_dispersion_correction s) og = Some nb
     ∧ __init__body s = (inr tt, constructed id s bonds angles torsions nb))
  ∨ (∃ e s', __init__body s = (inl e, s')).
Proof.
  intros Hid Hn.
  destruct (decide (dom (_og_system_forces s) ⊆ _known_forces)) as [Hk|Hk];
    [|right; rewrite __init__body_unknown by done; eauto].
  destruct (is_bond_force (_og_system_forces s !! "HarmonicBondForce")) as [[bonds Hb]|Hb].
  2:{ right. unfold __init__body.
      rewrite prefix_run, check_and_constraints_run by done.
      rewrite <- bind_assoc. destruct (bonds_fail (copied s) Hb) as (e & s' & Hf).
      rewrite (bind_fail _ _ _ _ _ Hf). eauto. }
  destruct (is_angle_force (_og_system_forces s !! "HarmonicAngleForce")) as [[angles Ha]|Ha].
  2:{ right. unfold __init__body.
      rewrite prefix_run, check_and_constraints_run by done.
      apply classifies_copied in Hid.
      rewrite <- bind_assoc. rewrite (bind_run _ _ _ _ _ (bonds_added id _ bonds Hid Hb)).
      rewrite <- bind_assoc.
      match goal with
      | |- context [ (_ ≫= _) ?st ] => destruct (angles_fail st Ha) as (e & s' & Hf)
      end.
      rewrite (bind_fail _ _ _ _ _ Hf). eauto. }
  destruct (is_torsion_force (_og_system_forces s !! "PeriodicTorsionForce"))
    as [[torsions Ht]|Ht].
  2:{ right. unfold __init__body.
      rewrite prefix_run, check_and_constraints_run by done.
      apply classifies_copied in Hid.
      rewrite <- bind_assoc. rewrite (bind_run _ _ _ _ _ (bonds_added id _ bonds Hid Hb)).
      eapply classifies_added in Hid.
      rewrite <- bind_assoc.
      erewrite (bind_run _ _ _ _ _ (angles_added id _ angles Hid Ha)).
      rewrite <- bind_assoc.
      match goal with
      | |- context [ (_ ≫= _) ?st ] => destruct (torsions_fail st Ht) as (e & s' & Hf)
      end.
      rewrite (bind_fail _ _ _ _ _ Hf). eauto. }
  destruct (nonbonded_force id (_num_particles s) (_nonbonded_method s)
              (_use_dispersion_correction s) og) as [nb|] eqn:Hnb.
  - left. exists bonds, angles, torsions, nb. repeat split; try done.
    by eapply __init__body_run.
  - right. unfold __init__body.
    rewrite prefix_run, check_and_constraints_run by done.
    apply classifies_copied in Hid.
    rewrite <- bind_assoc. rewrite (bind_run _ _ _ _ _ (bonds_added id _ bonds Hid Hb)).
    eapply classifies_added in Hid.
    rewrite <- bind_assoc.
    erewrite (bind_run _ _ _ _ _ (angles_added id _ angles Hid Ha)).
    eapply classifies_added in Hid.
    rewrite <- bind_assoc.
    erewrite (bind_run _ _ _ _ _ (torsions_added id _ torsions Hid Ht)).
    eapply classifies_added in Hid.
    pose proof (nonbondeds_added id _ og Hid Hn) as H.
    cbn [_num_particles _nonbonded_method _use_dispersion_correction added copied
         set_out_system copied_masses_barostat_box] in H.
    rewrite Hnb in H. exact H.
Qed.

(** *** The containers of the output's nonbonded force *)

Lemma foldl_addParticleParameterOffset (offs : list offset) nb :
  let nb' := foldl (λ nb o, addParticleParameterOffset o nb) nb offs in
  nbParticles nb' = nbParticles nb
  ∧ particleOffsets nb' = particleOffsets nb ++ offs
  ∧ nbExceptions nb' = nbExceptions nb
  ∧ exceptionOffsets nb' = exceptionOffsets nb.
Proof.
  revert nb. induction offs as [|o offs IH]; intros nb; cbn.
  - by rewrite app_nil_r.
  - destruct (IH (addParticleParameterOffset o nb)) as (-> & -> & -> & ->).
    cbn. by rewrite <- app_assoc.
Qed.

Lemma foldl_addExceptionParameterOffset (offs : list offset) nb :
  let nb' := foldl (λ nb o, addExceptionParameterOffset o nb) nb offs in
  nbParticles nb' = nbParticles nb
  ∧ particleOffsets nb' = particleOffsets nb
  ∧ nbExceptions nb' = nbExceptions nb
  ∧ exceptionOffsets nb' = exceptionOffsets nb ++ offs.
Proof.
  revert nb. induction offs as [|o offs IH]; intros nb; cbn.
  - by rewrite app_nil_r.
  - destruct (IH (addExceptionParameterOffset o nb)) as (-> & -> & -> & ->).
    cbn. by rewrite <- app_assoc.
Qed.

Lemma foldM_particle_step id og (l : list Z) nb nb' :
  foldM (particle_step id og) l nb = Some nb' →
  ∃ ps, Forall2 (λ idx p, nbParticles og !! Z.to_nat idx = Some p) l ps
    ∧ nbParticles nb' = nbParticles nb ++ ps
    ∧ particleOffsets nb'
      = particleOffsets nb ++ concat (zip_with (particle_offsets id) l ps)
    ∧ nbExceptions nb' = nbExceptions nb
    ∧ exceptionOffsets nb' = exceptionOffsets nb.
Proof.
  revert nb. induction l as [|idx l IH]; intros nb H; cbn [foldM] in H.
  - injection H as <-. exists []. by rewrite !app_nil_r.
  - destruct (particle_step id og idx nb) as [nb1|] eqn:Hs; [|discriminate H].
    change (Some ?x ≫= ?f) with (f x) in H. cbv beta in H.
    unfold particle_step in Hs.
    destruct (nbParticles og !! Z.to_nat idx) as [p|] eqn:Hp; [|discriminate Hs].
    injection Hs as <-.
    apply IH in H as (ps & HF & H1 & H2 & H3 & H4).
    destruct (foldl_addParticleParameterOffset (particle_offsets id idx p)
                (nbAddParticle p nb)) as (E1 & E2 & E3 & E4).
    cbv zeta in E1, E2, E3, E4. rewrite E1 in H1. rewrite E2 in H2.
    rewrite E3 in H3. rewrite E4 in H4. cbn in H1, H2, H3, H4.
    exists (p :: ps). split; [by constructor|].
    rewrite H1, H2, H3, H4. cbn. by rewrite <- !app_assoc.
Qed.

Lemma foldM_particle_step_is_Some id og (l : list Z) nb :
  Forall (λ idx, is_Some (nbParticles og !! Z.to_nat idx)) l →
  is_Some (foldM (particle_step id og) l nb).
Proof.
  intros H. revert nb. induction H as [|idx l [p Hp] _ IH]; intros nb; cbn [foldM].
  - eauto.
  - assert (is_Some (particle_step id og idx nb)) as [nb1 ->]; [|apply IH].
    unfold particle_step. rewrite Hp. eauto.
Qed.

Lemma exception_step_containers id e nb :
  let nb' := exception_step id e nb in
  nbParticles nb' = nbParticles nb
  ∧ particleOffsets nb' = particleOffsets nb
  ∧ nbExceptions nb' = nbExceptions nb ++ [e]
  ∧ exceptionOffsets nb'
    = exceptionOffsets nb ++ exception_offsets id (getNumExceptions nb) e.
Proof.
  unfold exception_step.
  destruct (foldl_addExceptionParameterOffset
              (exception_offsets id (getNumExceptions nb) e) (addException e nb))
    as (E1 & E2 & E3 & E4).
  cbv zeta in *. by rewrite E1, E2, E3, E4.
Qed.

Lemma foldl_exception_step id (es : list (Z * Z * R * R * R)) nb :
  let nb' := foldl (λ nb e, exception_step id e nb) nb es in
  nbParticles nb' = nbParticles nb
  ∧ particleOffsets nb' = particleOffsets nb
  ∧ nbExceptions nb' = nbExceptions nb ++ es
  ∧ exceptionOffsets nb'
    = exceptionOffsets nb
      ++ concat (zip_with (exception_offsets id)
                   (seqZ (getNumExceptions nb) (Z.of_nat (length es))) es).
Proof.
  revert nb. induction es as [|e es IH]; intros nb; cbn [foldl].
  - cbn. by rewrite !app_nil_r.
  - destruct (IH (exception_step id e nb)) as (E1 & E2 & E3 & E4).
    destruct (exception_step_containers id e nb) as (F1 & F2 & F3 & F4).
    cbv zeta in *. rewrite E1, E2, E3, E4, F1, F2, F3, F4. clear.
    rewrite <- !app_assoc. repeat split; try done. f_equal.
    replace (getNumExceptions (exception_step id e nb)) with
      (Z.succ (getNumExceptions nb)).
    2:{ unfold getNumExceptions.
        destruct (exception_step_containers id e nb) as (_ & _ & -> & _).
        rewrite length_app. cbn. lia. }
    rewrite (seqZ_cons (getNumExceptions nb)) by (cbn [length]; lia).
    cbn [zip_with concat]. do 4 f_equal. cbn [length]. lia.
Qed.

Lemma offsets_of_app i l1 l2 :
  offsets_of i (l1 ++ l2) = offsets_of i l1 ++ offsets_of i l2.
Proof. apply filter_app. Qed.

Lemma offsets_of_all i l :
  Forall (λ o : offset, o.1.1.1.2 = i) l → offsets_of i l = l.
Proof.
  induction 1 as [|o l Ho _ IH]; [done|]. unfold offsets_of.
  rewrite filter_cons_True by done. f_equal. apply IH.
Qed.

Lemma offsets_of_none i l :
  Forall (λ o : offset, o.1.1.1.2 ≠ i) l → offsets_of i l = [].
Proof.
  induction 1 as [|o l Ho _ IH]; [done|]. unfold offsets_of.
  rewrite filter_cons_False by done. apply IH.
Qed.

Lemma offsets_of_zip_with_notin {X} (h : Z → X → list offset) (l : list Z)
    (xs : list X) i :
  (∀ idx x, Forall (λ o : offset, o.1.1.1.2 = idx) (h idx x)) →
  i ∉ l →
  offsets_of i (concat (zip_with h l xs)) = [].
Proof.
  intros Hh. revert xs. induction l as [|j l IH]; intros xs Hi; [done|].
  destruct xs as [|x xs]; [done|]. cbn [zip_with concat].
  apply not_elem_of_cons in Hi as [Hne Hi].
  rewrite offsets_of_app, IH by done. rewrite offsets_of_none; [done|].
  eapply Forall_impl; [apply Hh|]. cbn. by intros o ->.
Qed.

Lemma offsets_of_zip_with {X} (h : Z → X → list offset) (l : list Z) (xs : list X)
    (k : nat) i x :
  (∀ idx x, Forall (λ o : offset, o.1.1.1.2 = idx) (h idx x)) →
  NoDup l → l !! k = Some i → xs !! k = Some x →
  offsets_of i (concat (zip_with h l xs)) = h i x.
Proof.
  intros Hh. revert xs k. induction l as [|j l IH]; intros xs k Hnd Hl Hx; [done|].
  destruct xs as [|x0 xs]; [done|]. cbn [zip_with concat].
  apply NoDup_cons in Hnd as [Hj Hnd]. rewrite offsets_of_app.
  destruct k as [|k]; cbn in Hl, Hx.
  - injection Hl as ->. injection Hx as ->.
    rewrite offsets_of_all by apply Hh.
    rewrite offsets_of_zip_with_notin by done. by rewrite app_nil_r.
  - rewrite (IH xs k) by done. rewrite offsets_of_none; [done|].
    eapply Forall_impl; [apply Hh|]. cbn. intros o -> ->.
    apply Hj. by eapply list_elem_of_lookup_2.
Qed.

Lemma forces_by_name_lookup system k force :
  forces_by_name system !! k = Some force →
  class_name force = k ∧ force ∈ forces system.
Proof.
  unfold forces_by_name.
  assert (∀ l (d : gmap string Force),
            (∀ k f, d !! k = Some f → class_name f = k ∧ (f ∈ forces system)) →
            (∀ f, f ∈ l → f ∈ forces system) →
            ∀ k f, foldl (λ d force, <[class_name force := force]> d) d l !! k = Some f →
                   class_name f = k ∧ f ∈ forces system) as H.
  { induction l as [|x l IH]; intros d Hd Hl k' f'; cbn; [by apply Hd|].
    apply IH.
    - intros k'' f''. rewrite lookup_insert. case_decide as Hc.
      + intros [= <-]. split; [done|]. apply Hl. by left.
      + apply Hd.
    - intros f'' Hf. apply Hl. by right. }
  apply H; [|done]. intros k' f'. by rewrite lookup_empty.
Qed.

Lemma dom_forces_by_name system :
  dom (forces_by_name system) = list_to_set (class_name <$> forces system).
Proof.
  unfold forces_by_name.
  assert (∀ l (d : gmap string Force),
            dom (foldl (λ d force, <[class_name force := force]> d) d l)
            = dom d ∪ list_to_set (class_name <$> l)) as H.
  { induction l as [|x l IH]; intros d; cbn.
    - by rewrite union_empty_r_L.
    - rewrite IH, dom_insert_L.
      by rewrite (comm_L (∪) {[class_name x]} (dom d)), <- (assoc_L (∪)). }
  by rewrite H, dom_empty_L, union_empty_l_L.
Qed.

Lemma __init__cases system solute_region use_dispersion_correction :
  match __init__ system solute_region use_dispersion_correction with
  | Returned self =>
      (list_to_set solute_region : gset Z) ⊆ list_to_set (seqZ 0 (getNumParticles system))
      ∧ ∃ bonds angles torsions og nb,
          let s0 := initial system solute_region use_dispersion_correction og in
          dom (forces_by_name system) ⊆ _known_forces
          ∧ forces_by_name system !! "HarmonicBondForce" = Some (HarmonicBondForce bonds)
          ∧ forces_by_name system !! "HarmonicAngleForce" = Some (HarmonicAngleForce angles)
          ∧ forces_by_name system !! "PeriodicTorsionForce"
            = Some (PeriodicTorsionForce torsions)
          ∧ forces_by_name system !! "NonbondedForce" = Some (NonbondedForce og)
          ∧ nonbonded_force (get_identifier s0) (getNumParticles system)
              (nonbondedMethod og) use_dispersion_correction og = Some nb
          ∧ self = constructed (get_identifier s0) s0 bonds angles torsions nb
  | Raised _ _ => True
  end.
Proof.
  unfold __init__. case_bool_decide as Hsub; cbn [negb]; [|done].
  destruct (forces_by_name system !! "NonbondedForce") as [force|] eqn:Hn; [|done].
  destruct (forces_by_name_lookup _ _ _ Hn) as [Hname _].
  destruct force as [| | |og| | | | |[]]; try discriminate Hname.
  fold (initial system solute_region use_dispersion_correction og).
  set (s0 := initial system solute_region use_dispersion_correction og).
  destruct (__init__body_cases (get_identifier s0) s0 og) as
    [(bonds & angles & torsions & nb & Hk & Hb & Ha & Ht & Hnb & ->)|(e & s' & ->)];
    [done | done | | done].
  split; [done|]. by exists bonds, angles, torsions, og, nb.
Qed.

(** *** What a returned factory looks like *)

Lemma snoc4 {X} (fs : list X) b a t n :
  (((fs ++ [b]) ++ [a]) ++ [t]) ++ [n] = fs ++ [b; a; t; n].
Proof. by rewrite <- !app_assoc. Qed.

Lemma lookup_snoc4 {X} (fs : list X) b a t n :
  (fs ++ [b; a; t; n]) !! length fs = Some b
  ∧ (fs ++ [b; a; t; n]) !! length (fs ++ [b]) = Some a
  ∧ (fs ++ [b; a; t; n]) !! length ((fs ++ [b]) ++ [a]) = Some t
  ∧ (fs ++ [b; a; t; n]) !! length (((fs ++ [b]) ++ [a]) ++ [t]) = Some n.
Proof.
  rewrite !length_app. cbn [length].
  repeat split; rewrite lookup_app_r by lia.
  - by rewrite Nat.sub_diag.
  - by replace (length fs + 1 - length fs)%nat with 1%nat by lia.
  - by replace (length fs + 1 + 1 - length fs)%nat with 2%nat by lia.
  - by replace (length fs + 1 + 1 + 1 - length fs)%nat with 3%nat by lia.
Qed.

Lemma constructed_forces id s bonds angles torsions nb :
  forces (_out_system (constructed id s bonds angles torsions nb))
  = forces (_out_system s) ++ copied_forces (_og_system_forces s)
    ++ [CustomBondForce (bond_force id bonds);
        CustomAngleForce (angle_force id angles);
        CustomTorsionForce (torsion_force id torsions);
        NonbondedForce nb].
Proof. cbn. by rewrite snoc4, <- app_assoc. Qed.

Lemma option_bind_Some {X Y} (f : X → option Y) (x : X) : Some x ≫= f = f x.
Proof. reflexivity. Qed.

Lemma constructed_out_forces id s bonds angles torsions nb :
  let self := constructed id s bonds angles torsions nb in
  out_bond_force self = Some (bond_force id bonds)
  ∧ out_angle_force self = Some (angle_force id angles)
  ∧ out_torsion_force self = Some (torsion_force id torsions)
  ∧ out_nonbonded self = Some nb.
Proof.
  cbv zeta.
  unfold out_bond_force, out_angle_force, out_torsion_force, out_nonbonded,
    out_force_object.
  cbn [constructed added _out_system_forces _out_system forces setForces].
  set (fs := forces (_out_system (copied s))).
  rewrite snoc4.
  destruct (lookup_snoc4 fs (CustomBondForce (bond_force id bonds))
              (CustomAngleForce (angle_force id angles))
              (CustomTorsionForce (torsion_force id torsions))
              (NonbondedForce nb)) as (Hb & Ha & Ht & Hn).
  repeat split; rewrite ?lookup_insert_ne by done;
    rewrite lookup_insert_eq, option_bind_Some.
  - by rewrite Hb.
  - by rewrite Ha.
  - by rewrite Ht.
  - by rewrite Hn.
Qed.

Lemma elem_of_solvent_region system solute_region x :
  x ∈ elements ((list_to_set (seqZ 0 (getNumParticles system)) : gset Z)
                  ∖ list_to_set solute_region)
  ↔ valid_index system x ∧ x ∉ solute_region.
Proof.
  rewrite elem_of_elements, elem_of_difference, !elem_of_list_to_set, elem_of_seqZ.
  unfold valid_index. intuition lia.
Qed.

Lemma Returned_inv system solute_region use_dispersion_correction self :
  __init__ system solute_region use_dispersion_correction = Returned self →
  ∃ bonds angles torsions og nb,
    let id := get_identifier self in
    forces_by_name system !! "HarmonicBondForce" = Some (HarmonicBondForce bonds)
    ∧ forces_by_name system !! "HarmonicAngleForce" = Some (HarmonicAngleForce angles)
    ∧ forces_by_name system !! "PeriodicTorsionForce" = Some (PeriodicTorsionForce torsions)
    ∧ forces_by_name system !! "NonbondedForce" = Some (NonbondedForce og)
    ∧ nonbonded_force id (getNumParticles system) (nonbondedMethod og)
        use_dispersion_correction og = Some nb
    ∧ _og_system_forces self = forces_by_name system
    ∧ out_bond_force self = Some (bond_force id bonds)
    ∧ out_angle_force self = Some (angle_force id angles)
    ∧ out_torsion_force self = Some (torsion_force id torsions)
    ∧ out_nonbonded self = Some nb
    ∧ forces (_out_system self)
      = copied_forces (forces_by_name system)
        ++ [CustomBondForce (bond_force id bonds);
            CustomAngleForce (angle_force id angles);
            CustomTorsionForce (torsion_force id torsions);
            NonbondedForce nb]
    ∧ particleMasses (_out_system self) = particleMasses system
    ∧ constraints (_out_system self) = constraints system
    ∧ defaultPeriodicBoxVectors (_out_system self) = defaultPeriodicBoxVectors system
    ∧ _solute_region self = solute_region
    ∧ (∀ x, x ∈ _solvent_region self ↔ valid_index system x ∧ x ∉ solute_region)
    ∧ (∀ x, x ∈ solute_region → valid_index system x)
    ∧ dom (forces_by_name system) ⊆ _known_forces.
Proof.
  intros H. pose proof (__init__cases system solute_region use_dispersion_correction) as Hc.
  rewrite H in Hc.
  destruct Hc as (Hsub & bonds & angles & torsions & og & nb & Hk & Hb & Ha & Ht & Hn & Hnb & ->).
  exists bonds, angles, torsions, og, nb.
  set (s0 := initial system solute_region use_dispersion_correction og) in *.
  change (get_identifier (constructed _ s0 bonds angles torsions nb))
    with (get_identifier s0).
  destruct (constructed_out_forces (get_identifier s0) s0 bonds angles torsions nb)
    as (Ob & Oa & Ot & On).
  cbv zeta.
  repeat match goal with |- _ ∧ _ => split end; try done.
  - by rewrite constructed_forces.
  - apply elem_of_solvent_region.
  - intros x Hx. assert (x ∈ (list_to_set solute_region : gset Z)) as Hx'
        by by apply elem_of_list_to_set.
    apply Hsub in Hx'. by apply elem_of_list_to_set, elem_of_seqZ in Hx'.
Qed.

(** *** When the constructor returns *)

Lemma present_lookup system name :
  (∃ force, force ∈ forces system ∧ class_name force = name) →
  ∃ force, forces_by_name system !! name = Some force ∧ class_name force = name.
Proof.
  intros (force & Hin & Hname).
  assert (name ∈ dom (forces_by_name system)) as Hd.
  { rewrite dom_forces_by_name, elem_of_list_to_set, list_elem_of_fmap. eauto. }
  apply elem_of_dom in Hd as [force' Hl]. exists force'. split; [done|].
  by apply forces_by_name_lookup in Hl as [? _].
Qed.

Lemma known_dom system :
  (∀ force, force ∈ forces system → class_name force ∈ _known_forces)
  ↔ dom (forces_by_name system) ⊆ _known_forces.
Proof.
  rewrite dom_forces_by_name. split.
  - intros H name. rewrite elem_of_list_to_set, list_elem_of_fmap.
    intros (force & -> & Hin). by apply H.
  - intros H force Hin. apply H.
    rewrite elem_of_list_to_set, list_elem_of_fmap. eauto.
Qed.

Lemma nonbonded_force_is_Some id system method flag og :
  (getNumParticles system ≤ Z.of_nat (length (nbParticles og)))%Z ↔
  is_Some (nonbonded_force id (getNumParticles system) method flag og).
Proof.
  unfold nonbonded_force. split.
  - intros Hlen.
    destruct (foldM_particle_step_is_Some id og (seqZ 0 (getNumParticles system))
                (configured method flag og)) as [nb1 ->]; [|by eexists].
    apply Forall_forall. intros idx Hidx. apply elem_of_seqZ in Hidx.
    apply lookup_lt_is_Some. lia.
  - intros [nb H].
    destruct (foldM _ _ _) as [nb1|] eqn:Hf; [|discriminate H].
    apply foldM_particle_step in Hf as (ps & HF & _).
    destruct (decide (getNumParticles system ≤ 0)%Z) as [|Hpos]; [lia|].
    assert (Z.pred (getNumParticles system) ∈ seqZ 0 (getNumParticles system)) as Hin
      by (apply elem_of_seqZ; lia).
    apply list_elem_of_lookup in Hin as [k Hk].
    destruct (Forall2_lookup_l _ _ _ _ _ HF Hk) as (p & _ & Hp).
    apply lookup_lt_Some in Hp. lia.
Qed.

Lemma accepted_Returned system solute_region use_dispersion_correction :
  accepted system solute_region ↔
  ∃ self, __init__ system solute_region use_dispersion_correction = Returned self.
Proof.
  split.
  - intros (Hreg & Hknown & Hpresent & Hlen).
    destruct (present_lookup system "HarmonicBondForce") as (fb & Hb & Cb);
      [apply Hpresent; rewrite list_elem_of_In; cbn; auto 10|].
    destruct (present_lookup system "HarmonicAngleForce") as (fa & Ha & Ca);
      [apply Hpresent; rewrite list_elem_of_In; cbn; auto 10|].
    destruct (present_lookup system "PeriodicTorsionForce") as (ft & Ht & Ct);
      [apply Hpresent; rewrite list_elem_of_In; cbn; auto 10|].
    destruct (present_lookup system "NonbondedForce") as (fn & Hn & Cn);
      [apply Hpresent; rewrite list_elem_of_In; cbn; auto 10|].
    destruct fb as [bonds| | | | | | | |[]]; try discriminate Cb.
    destruct fa as [|angles| | | | | | |[]]; try discriminate Ca.
    destruct ft as [| |torsions| | | | | |[]]; try discriminate Ct.
    destruct fn as [| | |og| | | | |[]]; try discriminate Cn.
    set (s0 := initial system solute_region use_dispersion_correction og).
    destruct (proj1 (nonbonded_force_is_Some (get_identifier s0) system
                       (nonbondedMethod og) use_dispersion_correction og)
                    (Hlen og Hn)) as [nb Hnb].
    exists (constructed (get_identifier s0) s0 bonds angles torsions nb).
    unfold __init__. rewrite bool_decide_eq_true_2, Hn; last first.
    { intros x. rewrite !elem_of_list_to_set, elem_of_seqZ. apply Hreg. }
    cbn [negb]. change (mkFactory _ _ _ _ _ _ _ _ _ _) with s0.
    rewrite (__init__body_run (get_identifier s0) s0 bonds angles torsions og nb);
      [done | done | by apply known_dom | done..].
  - intros [self H].
    apply Returned_inv in H as (bonds & angles & torsions & og & nb & H).
    cbv zeta in H.
    destruct H as (Hb & Ha & Ht & Hn & Hnb & _ & _ & _ & _ & _ & _ & _ & _ & _ & _ & _
                   & Hreg & Hk).
    split; [|split; [|split]].
    + done.
    + by apply known_dom.
    + intros name Hname.
      assert (∃ force, forces_by_name system !! name = Some force) as [force Hf].
      { apply list_elem_of_In in Hname. cbn in Hname.
        destruct Hname as [<- | [<- | [<- | [<- | []]]]]; eauto. }
      apply forces_by_name_lookup in Hf as [? ?]. eauto.
    + intros og' Hog'. rewrite Hn in Hog'. injection Hog' as <-.
      eapply nonbonded_force_is_Some. by eexists.
Qed.

(** *** Evaluating the energy strings *)

Lemma delta_0 : delta 0 = 1.
Proof. unfold delta. by destruct (Req_EM_T 0 0). Qed.

Lemma delta_ne x : x ≠ 0 → delta x = 0.
Proof. unfold delta. intros. by destruct (Req_EM_T x 0). Qed.

Lemma scale_factor_deltas (identifier : Z) (solute_scale inter_scale : R) :
  identifier = 0%Z ∨ identifier = 1%Z ∨ identifier = 2%Z →
  solute_scale * delta (IZR identifier) + 1 * delta (1 - IZR identifier)
  + inter_scale * delta (2 - IZR identifier)
  = scale_factor identifier solute_scale inter_scale.
Proof.
  unfold scale_factor. intros [-> | [-> | ->]]; cbn [decide].
  - rewrite delta_0, !delta_ne by lra. rewrite decide_True by done. lra.
  - replace (1 - 1) with 0 by lra. rewrite delta_0, !delta_ne by lra.
    rewrite decide_False, decide_True by done. lra.
  - replace (2 - 2) with 0 by lra. rewrite delta_0, !delta_ne by lra.
    rewrite !decide_False by done. lra.
Qed.

Lemma get_identifier_range self ps :
  get_identifier self ps = 0%Z ∨ get_identifier self ps = 1%Z
  ∨ get_identifier self ps = 2%Z.
Proof.
  destruct ps as [p|l]; cbn.
  - case_bool_decide; auto.
  - repeat case_match; auto.
Qed.

Lemma bond_energy_eval id bonds ctx solute_scale inter_scale length k identifier r :
  lookup_var "solute_scale" ctx = Some solute_scale →
  lookup_var "inter_scale" ctx = Some inter_scale →
  identifier = 0%Z ∨ identifier = 1%Z ∨ identifier = 2%Z →
  custom_term_energy (bond_force id bonds) ctx "r" r [length; k; IZR identifier]
  = Some (harmonic_energy (k * scale_factor identifier solute_scale inter_scale)
                          length r).
Proof.
  intros Hs Ht Hid. unfold custom_term_energy, run. cbn. rewrite Hs, Ht. cbn.
  destruct (Req_dec_T 2 0) as [|_]; [lra|]. cbn.
  by rewrite scale_factor_deltas.
Qed.

Lemma angle_energy_eval id angles ctx solute_scale inter_scale theta0 k identifier theta :
  lookup_var "solute_scale" ctx = Some solute_scale →
  lookup_var "inter_scale" ctx = Some inter_scale →
  identifier = 0%Z ∨ identifier = 1%Z ∨ identifier = 2%Z →
  custom_term_energy (angle_force id angles) ctx "theta" theta [theta0; k; IZR identifier]
  = Some (harmonic_energy (k * scale_factor identifier solute_scale inter_scale)
                          theta0 theta).
Proof.
  intros Hs Ht Hid. unfold custom_term_energy, run. cbn. rewrite Hs, Ht. cbn.
  destruct (Req_dec_T 2 0) as [|_]; [lra|]. cbn.
  by rewrite scale_factor_deltas.
Qed.

Lemma torsion_energy_eval id torsions ctx solute_scale inter_scale per phase k
    identifier theta :
  lookup_var "solute_scale" ctx = Some solute_scale →
  lookup_var "inter_scale" ctx = Some inter_scale →
  identifier = 0%Z ∨ identifier = 1%Z ∨ identifier = 2%Z →
  custom_term_energy (torsion_force id torsions) ctx "theta" theta
    [IZR per; phase; k; IZR identifier]
  = Some (periodic_torsion_energy
            (k * scale_factor identifier solute_scale inter_scale) per phase theta).
Proof.
  intros Hs Ht Hid. unfold custom_term_energy, run. cbn. rewrite Hs, Ht. cbn.
  by rewrite scale_factor_deltas.
Qed.


(** *** The containers of the output's nonbonded force, in full *)

Lemma configured_containers method flag og :
  let nb := configured method flag og in
  nbParticles nb = [] ∧ particleOffsets nb = [] ∧ nbExceptions nb = []
  ∧ exceptionOffsets nb = []
  ∧ nbGlobalParameters nb = [("electrostatic_scale", 0); ("steric_scale", 0)].
Proof.
  unfold configured.
  destruct (useSwitchingFunction og), (decide (method ≠ NoCutoff)),
    (bool_decide (method ∈ [PME; Ewald])); done.
Qed.

Lemma particle_offsets_index id idx p :
  Forall (λ o : offset, o.1.1.1.2 = idx) (particle_offsets id idx p).
Proof.
  destruct p as [[q sigma] epsilon]. unfold particle_offsets.
  case_decide; repeat constructor.
Qed.

Lemma exception_offsets_index id idx e :
  Forall (λ o : offset, o.1.1.1.2 = idx) (exception_offsets id idx e).
Proof.
  destruct e as [[[[p1 p2] c] sigma] epsilon]. unfold exception_offsets.
  repeat case_decide; repeat constructor.
Qed.

Lemma nonbonded_force_containers id system method flag og nb :
  nonbonded_force id (getNumParticles system) method flag og = Some nb →
  (∃ ps, nbParticles nb = ps
         ∧ particleOffsets nb
           = concat (zip_with (particle_offsets id) (seqZ 0 (getNumParticles system)) ps))
  ∧ (∀ i p, valid_index system i → nbParticles og !! Z.to_nat i = Some p →
            nbParticles nb !! Z.to_nat i = Some p
            ∧ offsets_of i (particleOffsets nb) = particle_offsets id i p)
  ∧ nbExceptions nb = nbExceptions og
  ∧ exceptionOffsets nb
    = concat (zip_with (exception_offsets id)
                (seqZ 0 (Z.of_nat (length (nbExceptions og)))) (nbExceptions og))
  ∧ (∀ j e, nbExceptions og !! j = Some e →
            offsets_of (Z.of_nat j) (exceptionOffsets nb)
            = exception_offsets id (Z.of_nat j) e).
Proof.
  unfold nonbonded_force. intros H.
  destruct (foldM _ _ _) as [nb1|] eqn:Hf; [|discriminate H].
  rewrite option_bind_Some in H. injection H as <-.
  apply foldM_particle_step in Hf as (ps & HF & P1 & P2 & P3 & P4).
  destruct (configured_containers method flag og) as (C1 & C2 & C3 & C4 & C5).
  cbv zeta in *. rewrite C1 in P1. rewrite C2 in P2. rewrite C3 in P3. rewrite C4 in P4.
  cbn [app] in P1, P2.
  destruct (foldl_exception_step id (nbExceptions og) nb1) as (E1 & E2 & E3 & E4).
  cbv zeta in *. rewrite P1 in E1. rewrite P2 in E2. rewrite P3 in E3. rewrite P4 in E4.
  unfold getNumExceptions in E4. rewrite P3 in E4. cbn [app length] in E3, E4.
  change (Z.of_nat 0) with 0%Z in E4.
  split; [by exists ps|]. split; [|split; [done|split; [done|]]].
  - intros i p Hi Hp. unfold valid_index in Hi.
    assert (seqZ 0 (getNumParticles system) !! Z.to_nat i = Some i) as Hl.
    { rewrite lookup_seqZ. split; lia. }
    destruct (Forall2_lookup_l _ _ _ _ _ HF Hl) as (p' & Hp' & Hog).
    rewrite Hp in Hog. injection Hog as <-.
    rewrite E1, E2. split; [done|].
    eapply offsets_of_zip_with; [apply particle_offsets_index|apply NoDup_seqZ|done..].
  - intros j e He. rewrite E4.
    eapply offsets_of_zip_with; [apply exception_offsets_index|apply NoDup_seqZ| |done].
    rewrite lookup_seqZ. apply lookup_lt_Some in He. split; lia.
Qed.

Lemma Returned_forces system solute_region use_dispersion_correction self :
  __init__ system solute_region use_dispersion_correction = Returned self →
  ∃ bonds angles torsions og nb,
    let id := get_identifier self in
    (og_bonds self = Some bonds ∧ og_angles self = Some angles
     ∧ og_torsions self = Some torsions ∧ og_nonbonded self = Some og)
    ∧ (out_bond_force self = Some (bond_force id bonds)
       ∧ out_angle_force self = Some (angle_force id angles)
       ∧ out_torsion_force self = Some (torsion_force id torsions)
       ∧ out_nonbonded self = Some nb)
    ∧ nonbonded_force id (getNumParticles system) (nonbondedMethod og)
        use_dispersion_correction og = Some nb
    ∧ (HarmonicBondForce bonds ∈ forces system
       ∧ HarmonicAngleForce angles ∈ forces system
       ∧ PeriodicTorsionForce torsions ∈ forces system
       ∧ NonbondedForce og ∈ forces system).
Proof.
  intros H. apply Returned_inv in H as (bonds & angles & torsions & og & nb & H).
  cbv zeta in H.
  destruct H as (Hb & Ha & Ht & Hn & Hnb & Hog & Ob & Oa & Ot & On & _).
  exists bonds, angles, torsions, og, nb. cbv zeta.
  unfold og_bonds, og_angles, og_torsions, og_nonbonded.
  rewrite Hog, Hb, Ha, Ht, Hn.
  apply forces_by_name_lookup in Hb as [_ Hb].
  apply forces_by_name_lookup in Ha as [_ Ha].
  apply forces_by_name_lookup in Ht as [_ Ht].
  apply forces_by_name_lookup in Hn as [_ Hn].
  done.
Qed.

(** * The claims *)

Lemma forallb_bool_decide {X} (P : X → Prop) `{∀ x, Decision (P x)} (l : list X) :
  forallb (λ x, bool_decide (P x)) l = true ↔ Forall P l.
Proof.
  induction l as [|x l IH]; cbn.
  - split; [constructor|done].
  - rewrite andb_true_iff, bool_decide_eq_true, IH, Forall_cons. done.
Qed.

(** C4. For a factory the constructor returned, [get_identifier] neither
    raises nor changes the factory; a single particle gets 0 (solute) iff it
    is in the solute region and 1 (solvent) otherwise; a nonempty list of
    valid particle indices gets 1 iff all are in the solvent region, 0 iff all
    are in the solute region, and 2 (inter) otherwise, in which case it has a
    solute and a solvent participant. *)
Theorem get_identifier_classification system solute_region use_dispersion_correction self :
  __init__ system solute_region use_dispersion_correction = Returned self →
  (∀ ps, get_identifier_ ps self = (inr (get_identifier self ps), self))
  ∧ (∀ p, (get_identifier self (Single p) = 0%Z ↔ p ∈ solute_region)
          ∧ (get_identifier self (Single p) = 1%Z ↔ p ∉ solute_region))
  ∧ (∀ l, l ≠ [] → Forall (valid_index system) l →
       let identifier := get_identifier self (Many l) in
       (identifier = 1%Z ↔ Forall (λ x, x ∈ _solvent_region self) l)
       ∧ (identifier = 0%Z ↔ Forall (λ x, x ∈ solute_region) l)
       ∧ (identifier = 2%Z ↔ ¬ Forall (λ x, x ∈ _solvent_region self) l
                              ∧ ¬ Forall (λ x, x ∈ solute_region) l)
       ∧ (identifier = 2%Z → (∃ x, x ∈ l ∧ x ∈ solute_region)
                              ∧ (∃ y, y ∈ l ∧ y ∈ _solvent_region self)))
  ∧ (∀ x, x ∈ _solvent_region self ↔ valid_index system x ∧ x ∉ solute_region).
Proof.
  intros H. apply Returned_inv in H as (bonds & angles & torsions & og & nb & H).
  cbv zeta in H.
  destruct H as (_ & _ & _ & _ & _ & _ & _ & _ & _ & _ & _ & _ & _ & _ & Hsolute
                 & Hsolvent & _ & _).
  split; [done|]. split; [|split; [|done]].
  - intros p. cbn. rewrite Hsolute. case_bool_decide; split; split; done.
  - intros l Hne Hvalid. cbn. rewrite Hsolute.
    pose proof (forallb_bool_decide (λ x, x ∈ _solvent_region self) l) as Hv.
    pose proof (forallb_bool_decide (λ x, x ∈ solute_region) l) as Hu.
    assert (Forall (λ x, x ∈ _solvent_region self) l →
            Forall (λ x, x ∈ solute_region) l → False) as Hdisj.
    { destruct l as [|x l]; [done|]. intros Hv' Hu'.
      apply Forall_cons in Hv' as [Hx _]. apply Forall_cons in Hu' as [Hx' _].
      apply Hsolvent in Hx as [_ Hx]. done. }
    destruct (forallb (λ x, bool_decide (x ∈ _solvent_region self)) l) eqn:Ev;
      [|destruct (forallb (λ x, bool_decide (x ∈ solute_region)) l) eqn:Eu].
    + apply Hv in Ev. repeat split; try done.
      * intros Hu'. exfalso. eauto.
      * by intros [? _].
    + apply Hu in Eu. repeat split; try done.
      * intros Hv'. exfalso. eauto.
      * by intros [_ ?].
    + assert (¬ Forall (λ x, x ∈ _solvent_region self) l) as Nv
          by (rewrite <- Hv; congruence).
      assert (¬ Forall (λ x, x ∈ solute_region) l) as Nu
          by (rewrite <- Hu; congruence).
      repeat split; try done.
      * apply not_Forall_Exists in Nv; [|solve_decision].
        apply Exists_exists in Nv as (x & Hx & Hnx). exists x. split; [done|].
        rewrite Forall_forall in Hvalid.
        destruct (decide (x ∈ solute_region)) as [|Hn]; [done|].
        exfalso. apply Hnx. apply Hsolvent. eauto.
      * apply not_Forall_Exists in Nu; [|solve_decision].
        apply Exists_exists in Nu as (y & Hy & Hny). exists y. split; [done|].
        rewrite Forall_forall in Hvalid. apply Hsolvent. eauto.
Qed.

(** C5. In a factory the constructor returned, every bonded term carries
    the identifier of its particles, and for all values of [solute_scale] and
    [inter_scale] its energy is the original energy with the force constant
    multiplied by [solute_scale] (identifier 0, solute), by the constant 1
    (identifier 1, solvent) or by [inter_scale] (identifier 2, inter).  The
    custom forces declare [solute_scale] and [inter_scale] as their only
    global parameters. *)
Theorem bonded_scale_factor system solute_region use_dispersion_correction self :
  __init__ system solute_region use_dispersion_correction = Returned self →
  ∃ bonds angles torsions B A T,
    (og_bonds self = Some bonds ∧ og_angles self = Some angles
     ∧ og_torsions self = Some torsions)
    ∧ (out_bond_force self = Some B ∧ out_angle_force self = Some A
       ∧ out_torsion_force self = Some T)
    ∧ (globalParameters B = [("solute_scale", 1); ("inter_scale", 1)]
       ∧ globalParameters A = [("solute_scale", 1); ("inter_scale", 1)]
       ∧ globalParameters T = [("solute_scale", 1); ("inter_scale", 1)])
    ∧ (length (terms B) = length bonds ∧ length (terms A) = length angles
       ∧ length (terms T) = length torsions)
    ∧ ∀ context solute_scale inter_scale,
        lookup_var "solute_scale" context = Some solute_scale →
        lookup_var "inter_scale" context = Some inter_scale →
        (∀ i p1 p2 length k, bonds !! i = Some (p1, p2, length, k) →
           let identifier := get_identifier self (Many [p1; p2]) in
           terms B !! i = Some ((p1, p2), [length; k; IZR identifier])
           ∧ ∀ r, custom_term_energy B context "r" r [length; k; IZR identifier]
                  = Some (harmonic_energy
                            (k * scale_factor identifier solute_scale inter_scale)
                            length r))
        ∧ (∀ i p1 p2 p3 theta0 k, angles !! i = Some (p1, p2, p3, theta0, k) →
           let identifier := get_identifier self (Many [p1; p2; p3]) in
           terms A !! i = Some ((p1, p2, p3), [theta0; k; IZR identifier])
           ∧ ∀ theta, custom_term_energy A context "theta" theta
                        [theta0; k; IZR identifier]
                      = Some (harmonic_energy
                                (k * scale_factor identifier solute_scale inter_scale)
                                theta0 theta))
        ∧ (∀ i p1 p2 p3 p4 per phase k,
           torsions !! i = Some (p1, p2, p3, p4, per, phase, k) →
           let identifier := get_identifier self (Many [p1; p2; p3; p4]) in
           terms T !! i = Some ((p1, p2, p3, p4), [IZR per; phase; k; IZR identifier])
           ∧ ∀ theta, custom_term_energy T context "theta" theta
                        [IZR per; phase; k; IZR identifier]
                      = Some (periodic_torsion_energy
                                (k * scale_factor identifier solute_scale inter_scale)
                                per phase theta)).
Proof.
  intros H. apply Returned_forces in H as (bonds & angles & torsions & og & nb & H).
  cbv zeta in H. destruct H as ((Hb & Ha & Ht & _) & (Ob & Oa & Ot & _) & _).
  exists bonds, angles, torsions. eexists _, _, _.
  split; [done|]. split; [done|]. split; [done|].
  split; [by cbn [bond_force angle_force torsion_force terms]; rewrite !length_fmap|].
  intros context solute_scale inter_scale Hs Hi. split; [|split].
  - intros i p1 p2 length k Hl. cbv zeta. split.
    + cbn [bond_force terms]. by rewrite list_lookup_fmap, Hl.
    + intros r. apply bond_energy_eval; [done..|apply get_identifier_range].
  - intros i p1 p2 p3 theta0 k Hl. cbv zeta. split.
    + cbn [angle_force terms]. by rewrite list_lookup_fmap, Hl.
    + intros theta. apply angle_energy_eval; [done..|apply get_identifier_range].
  - intros i p1 p2 p3 p4 per phase k Hl. cbv zeta. split.
    + cbn [torsion_force terms]. by rewrite list_lookup_fmap, Hl.
    + intros theta. apply torsion_energy_eval; [done..|apply get_identifier_range].
Qed.

Lemma particle_parameters_reference id i p offs :
  offsets_of i offs = particle_offsets id i p →
  effective_parameters reference_context p i offs = Some p.
Proof.
  intros Hoffs. destruct p as [[q sigma] epsilon].
  unfold effective_parameters. rewrite Hoffs. unfold particle_offsets.
  case_decide; cbn; do 2 f_equal; [f_equal| |f_equal|]; lra.
Qed.

Lemma exception_parameters_reference id j p1 p2 chargeProd sigma epsilon offs :
  offsets_of j offs = exception_offsets id j (p1, p2, chargeProd, sigma, epsilon) →
  effective_parameters reference_context (chargeProd, sigma, epsilon) j offs
  = Some (chargeProd, sigma, epsilon).
Proof.
  intros Hoffs. unfold effective_parameters. rewrite Hoffs. unfold exception_offsets.
  repeat case_decide; cbn; do 2 f_equal; try f_equal; lra.
Qed.

(** C2 as the code has it. In a factory the constructor returned, every
    particle keeps its original (charge, sigma, epsilon); a solute particle
    (identifier 0) gets exactly two offsets, one on [electrostatic_scale]
    with its full charge, zero sigma and zero epsilon, and one on
    [steric_scale] with zero charge, zero sigma and its full epsilon; a
    solvent particle (identifier 1) gets no offset. *)
Theorem particle_offsets_added system solute_region use_dispersion_correction self :
  __init__ system solute_region use_dispersion_correction = Returned self →
  ∃ og nb,
    og_nonbonded self = Some og ∧ out_nonbonded self = Some nb
    ∧ ∀ i q sigma epsilon,
        valid_index system i →
        nbParticles og !! Z.to_nat i = Some (q, sigma, epsilon) →
        nbParticles nb !! Z.to_nat i = Some (q, sigma, epsilon)
        ∧ (get_identifier self (Single i) = 0%Z →
           offsets_of i (particleOffsets nb)
           = [("electrostatic_scale", i, q, 0, 0); ("steric_scale", i, 0, 0, epsilon)])
        ∧ (get_identifier self (Single i) = 1%Z →
           offsets_of i (particleOffsets nb) = []).
Proof.
  intros H. apply Returned_forces in H as (bonds & angles & torsions & og & nb & H).
  cbv zeta in H. destruct H as ((_ & _ & _ & Hog) & (_ & _ & _ & Hout) & Hnb & _).
  apply nonbonded_force_containers in Hnb as (_ & Hp & _).
  exists og, nb. split; [done|]. split; [done|].
  intros i q sigma epsilon Hi Hl. destruct (Hp i _ Hi Hl) as [Hl' Hoffs].
  split; [done|]. rewrite Hoffs. unfold particle_offsets. split; intros Hid.
  - rewrite decide_False by (rewrite Hid; done).
    by rewrite Rmult_0_l, !Rmult_0_r.
  - by rewrite decide_True.
Qed.

(** C3 as the code has it. In a factory the constructor returned, every
    exception is copied with its original (chargeProd, sigma, epsilon); one
    within the solute (identifier 0) gets exactly one offset, on
    [steric_scale], with its full chargeProd, zero sigma and its full
    epsilon; one that straddles (identifier 2) gets exactly one offset, on
    [electrostatic_scale], with the same three scales; one within the solvent
    (identifier 1) gets none. *)
Theorem exception_offsets_added system solute_region use_dispersion_correction self :
  __init__ system solute_region use_dispersion_correction = Returned self →
  ∃ og nb,
    og_nonbonded self = Some og ∧ out_nonbonded self = Some nb
    ∧ nbExceptions nb = nbExceptions og
    ∧ ∀ j p1 p2 chargeProd sigma epsilon,
        nbExceptions og !! j = Some (p1, p2, chargeProd, sigma, epsilon) →
        let identifier := get_identifier self (Many [p1; p2]) in
        let offs := offsets_of (Z.of_nat j) (exceptionOffsets nb) in
        (identifier = 0%Z →
         offs = [("steric_scale", Z.of_nat j, chargeProd, 0, epsilon)])
        ∧ (identifier = 2%Z →
           offs = [("electrostatic_scale", Z.of_nat j, chargeProd, 0, epsilon)])
        ∧ (identifier = 1%Z → offs = []).
Proof.
  intros H. apply Returned_forces in H as (bonds & angles & torsions & og & nb & H).
  cbv zeta in H. destruct H as ((_ & _ & _ & Hog) & (_ & _ & _ & Hout) & Hnb & _).
  apply nonbonded_force_containers in Hnb as (_ & _ & He & _ & Heo).
  exists og, nb. split; [done|]. split; [done|]. split; [done|].
  intros j p1 p2 chargeProd sigma epsilon Hl. cbv zeta.
  rewrite (Heo _ _ Hl). unfold exception_offsets.
  repeat split; intros ->; cbn [decide]; rewrite ?Rmult_0_l; done.
Qed.

(** *** The protocol *)

Lemma exp_1_minus_1 : exp 1 - 1 ≠ 0.
Proof. pose proof (exp_ineq1 1). lra. Qed.

Lemma ramp_0 T_min T_max : ramp T_min T_max 0 = T_min.
Proof.
  unfold ramp. replace (2 * 0) with 0 by lra. rewrite exp_0.
  replace (1 - 1) with 0 by lra. unfold Rdiv. ring.
Qed.

Lemma ramp_half T_min T_max : ramp T_min T_max 0.5 = T_max.
Proof.
  unfold ramp. replace (2 * 0.5) with 1 by lra. field. apply exp_1_minus_1.
Qed.

Lemma temperature_expression_eval T_min T_max lambda :
  eval [("lambda", lambda)] (temperature_expression T_min T_max)
  = Some (spec_temperature T_min T_max lambda).
Proof.
  unfold temperature_expression, base_temperature_expression. cbn.
  destruct (Req_dec_T (exp 1 - 1) 0) as [E|_]; [by apply exp_1_minus_1 in E|].
  cbn. f_equal. fold (ramp T_min T_max (1.0 - lambda)). fold (ramp T_min T_max lambda).
  unfold select, step, spec_temperature.
  replace (1.0 - lambda) with (1 - lambda) by lra.
  destruct (Rlt_dec (lambda - 0.5) 0), (Rle_dec lambda 0.5).
  - destruct (Req_EM_T 0 0); [done|lra].
  - lra.
  - destruct (Req_EM_T 1 0); [lra|].
    replace lambda with 0.5 by lra. by replace (1 - 0.5) with 0.5 by lra.
  - destruct (Req_EM_T 1 0); [lra|done].
Qed.

Lemma ratio_eval T_min T_max lambda :
  eval [("lambda", lambda)] (Div (Num T_min) (temperature_expression T_min T_max))
  = if Req_EM_T (spec_temperature T_min T_max lambda) 0 then None
    else Some (T_min / spec_temperature T_min T_max lambda).
Proof.
  change (eval ?rho (Div ?a ?b))
    with (x ← eval rho a; y ← eval rho b;
          if Req_EM_T y 0 then None else Some (x / y)).
  by rewrite temperature_expression_eval.
Qed.

Lemma spec_temperature_0 T_min T_max : spec_temperature T_min T_max 0 = T_min.
Proof.
  unfold spec_temperature. destruct (Rle_dec 0 0.5); [apply ramp_0|lra].
Qed.

Lemma spec_temperature_1 T_min T_max : spec_temperature T_min T_max 1 = T_min.
Proof.
  unfold spec_temperature. destruct (Rle_dec 1 0.5); [lra|].
  replace (1 - 1) with 0 by lra. apply ramp_0.
Qed.

Lemma spec_temperature_half T_min T_max : spec_temperature T_min T_max 0.5 = T_max.
Proof.
  unfold spec_temperature. destruct (Rle_dec 0.5 0.5); [apply ramp_half|lra].
Qed.

Lemma protocol_values_at_T_min self T_min T_max lambda d :
  T_min ≠ 0 →
  spec_temperature T_min T_max lambda = T_min →
  get_protocol self T_min T_max = inr d →
  protocol_value d "solute_scale" lambda = Some 1
  ∧ protocol_value d "inter_scale" lambda = Some 1
  ∧ protocol_value d "steric_scale" lambda = Some 0
  ∧ protocol_value d "electrostatic_scale" lambda = Some 0.
Proof.
  intros Hne HT [= <-].
  assert (eval [("lambda", lambda)] (Div (Num T_min) (temperature_expression T_min T_max))
          = Some 1) as Hr.
  { rewrite ratio_eval, HT. destruct (Req_EM_T T_min 0); [done|].
    f_equal. by field. }
  unfold protocol_value. cbn [dict_get String.eqb Ascii.eqb Bool.eqb mbind option_bind].
  change (eval ?rho (Sqrt ?a))
    with (x ← eval rho a; if Rlt_dec x 0 then None else Some (sqrt x)).
  change (eval ?rho (Sub ?a ?b))
    with (x ← eval rho a; y ← eval rho b; Some (x - y)).
  change (eval ?rho (Sqrt ?a))
    with (x ← eval rho a; if Rlt_dec x 0 then None else Some (sqrt x)).
  rewrite Hr. cbn.
  destruct (Rlt_dec 1 0); [lra|]. rewrite sqrt_1. cbn.
  repeat split; f_equal; lra.
Qed.

(** C6 as the code has it. For [T_min < T_max] with [T_min] other than 0,
    the temperature expression of [get_protocol] evaluates at every lambda to
    the ramp in lambda up to 0.5 and to the ramp in 1 - lambda above; at
    lambda 0 and 1 the four entries evaluate to 1, 1, 0 and 0, and at lambda
    0.5 the temperature is [T_max]. *)
Theorem protocol_boundary_values self T_min T_max :
  T_min < T_max → T_min ≠ 0 →
  ∃ d, get_protocol self T_min T_max = inr d
    ∧ (∀ lambda, eval [("lambda", lambda)] (temperature_expression T_min T_max)
                 = Some (spec_temperature T_min T_max lambda))
    ∧ (∀ lambda, lambda = 0 ∨ lambda = 1 →
         protocol_value d "solute_scale" lambda = Some 1
         ∧ protocol_value d "inter_scale" lambda = Some 1
         ∧ protocol_value d "steric_scale" lambda = Some 0
         ∧ protocol_value d "electrostatic_scale" lambda = Some 0)
    ∧ spec_temperature T_min T_max 0.5 = T_max.
Proof.
  intros _ Hne. eexists. split; [reflexivity|].
  split; [apply temperature_expression_eval|]. split; [|apply spec_temperature_half].
  intros lambda [-> | ->].
  - by apply (protocol_values_at_T_min self T_min T_max);
      [|apply spec_temperature_0|].
  - by apply (protocol_values_at_T_min self T_min T_max);
      [|apply spec_temperature_1|].
Qed.

Lemma protocol_boundary_values_witness :
  300 < 1200 ∧ 300 ≠ 0
  ∧ ∃ d, get_protocol factory4 300 1200 = inr d
      ∧ protocol_value d "solute_scale" 0 = Some 1.
Proof.
  assert (300 < 1200) as H1 by lra. assert (300 ≠ 0) as H2 by lra.
  split; [exact H1|]. split; [exact H2|].
  destruct (protocol_boundary_values factory4 300 1200 H1 H2) as (d & Hd & _ & Hv & _).
  exists d. split; [exact Hd|]. exact (proj1 (Hv 0 (or_introl eq_refl))).
Defined.

(** C6 fails at [T_min = 0]: the quotient [T_min / T(0)] is 0/0, which has no
    value, so [solute_scale] does not evaluate to 1 at lambda 0. *)
Lemma protocol_zero_T_min :
  0 < 1
  ∧ ∃ d, get_protocol factory4 0 1 = inr d
      ∧ protocol_value d "solute_scale" 0 ≠ Some 1.
Proof.
  split; [lra|]. eexists. split; [reflexivity|].
  unfold protocol_value. cbn [dict_get String.eqb Ascii.eqb Bool.eqb mbind option_bind].
  rewrite ratio_eval, spec_temperature_0. by destruct (Req_EM_T 0 0).
Qed.

(** C7 as the code has it. [get_protocol] raises for no pair of
    temperatures: it always returns the dictionary with the four entries. *)
Theorem get_protocol_returns self T_min T_max :
  ∃ d, get_protocol self T_min T_max = inr d
    ∧ d.*1 = ["solute_scale"; "inter_scale"; "steric_scale"; "electrostatic_scale"].
Proof. eexists. split; reflexivity. Qed.

(** C7 fails: with [T_max = 300 ≤ T_min = 400] no exception is raised. *)
Lemma get_protocol_accepts_inverted_range :
  300 <= 400 ∧ ∀ e, get_protocol factory4 400 300 ≠ inl e.
Proof. split; [lra|]. intros e. discriminate. Qed.

(** *** Unknown forces *)

Lemma __init__unknown system solute_region use_dispersion_correction og :
  (∀ p, p ∈ solute_region → valid_index system p) →
  forces_by_name system !! "NonbondedForce" = Some (NonbondedForce og) →
  ¬ dom (forces_by_name system) ⊆ _known_forces →
  __init__ system solute_region use_dispersion_correction
  = Raised (ValueError (dom (forces_by_name system) ∖ _known_forces) "og")
           (Some {| particleMasses := particleMasses system;
                    constraints := [];
                    forces := copied_forces (forces_by_name system);
                    defaultPeriodicBoxVectors := defaultPeriodicBoxVectors system |}).
Proof.
  intros Hreg Hn Hk. unfold __init__.
  rewrite bool_decide_eq_true_2, Hn; last first.
  { intros x. rewrite !elem_of_list_to_set, elem_of_seqZ. apply Hreg. }
  cbn [negb]. rewrite __init__body_unknown by done. reflexivity.
Qed.

(** C8 as the code has it. When the solute region is valid and the system
    has a nonbonded force, a force class outside the five known ones makes
    the constructor raise [ValueError] naming exactly the unknown classes.
    The exception leaves the constructor after the particle masses, the
    barostat and the box vectors were copied into the output system, and
    before any constraint or term is. *)
Theorem unknown_force_rejected system solute_region use_dispersion_correction :
  (∀ p, p ∈ solute_region → valid_index system p) →
  (∃ force, force ∈ forces system ∧ class_name force = "NonbondedForce") →
  (∃ force, force ∈ forces system ∧ class_name force ∉ _known_forces) →
  ∃ unknown_forces,
    __init__ system solute_region use_dispersion_correction
    = Raised (ValueError unknown_forces "og")
             (Some {| particleMasses := particleMasses system;
                      constraints := [];
                      forces := copied_forces (forces_by_name system);
                      defaultPeriodicBoxVectors := defaultPeriodicBoxVectors system |})
    ∧ ∀ name, name ∈ unknown_forces
              ↔ (∃ force, force ∈ forces system ∧ class_name force = name)
                ∧ name ∉ _known_forces.
Proof.
  intros Hreg Hnb (force & Hin & Hunk).
  apply present_lookup in Hnb as (fn & Hn & Cn).
  destruct fn as [| | |og| | | | |[]]; try discriminate Cn.
  exists (dom (forces_by_name system) ∖ _known_forces). split.
  - apply __init__unknown with og; [done..|].
    rewrite <- known_dom. intros Hall. apply Hunk. by apply Hall.
  - intros name. rewrite elem_of_difference, dom_forces_by_name,
      elem_of_list_to_set, list_elem_of_fmap.
    split; intros [(f & ? & ?) ?]; (split; [exists f|]); done.
Qed.

(** *** The example systems *)

Lemma system4_returns : ∃ self, __init__ system4 [0%Z; 1%Z] true = Returned self.
Proof. eexists. vm_compute. reflexivity. Qed.

Lemma system4_nonbonded :
  forces_by_name system4 !! "NonbondedForce" = Some (NonbondedForce nb4).
Proof. vm_compute. reflexivity. Qed.

Lemma system4_cmm_nonbonded :
  forces_by_name system4_cmm !! "NonbondedForce" = Some (NonbondedForce nb4).
Proof. vm_compute. reflexivity. Qed.

Lemma system4_cmm_barostat :
  copied_forces (forces_by_name system4_cmm) = [MonteCarloBarostat 1 300 50].
Proof. vm_compute. reflexivity. Qed.

Lemma region4_valid fs p : p ∈ [0%Z; 1%Z] → valid_index (system4_with fs) p.
Proof.
  rewrite list_elem_of_In. unfold valid_index, getNumParticles. cbn.
  intros [<- | [<- | []]]; lia.
Qed.

Lemma cmm_unknown : class_name (OtherForce CMMotionRemover) ∉ _known_forces.
Proof.
  unfold _known_forces. rewrite elem_of_list_to_set, list_elem_of_In. cbn.
  intuition discriminate.
Qed.

Lemma unknown_force_rejected_witness :
  (∀ p, p ∈ [0%Z; 1%Z] → valid_index system4_cmm p)
  ∧ (∃ force, force ∈ forces system4_cmm ∧ class_name force = "NonbondedForce")
  ∧ (∃ force, force ∈ forces system4_cmm ∧ class_name force ∉ _known_forces)
  ∧ ∃ unknown_forces out,
      __init__ system4_cmm [0%Z; 1%Z] true
      = Raised (ValueError unknown_forces "og") (Some out).
Proof.
  assert (∃ force, force ∈ forces system4_cmm ∧ class_name force = "NonbondedForce")
    as H2.
  { exists (NonbondedForce nb4). split; [|reflexivity].
    rewrite list_elem_of_In. cbn. auto 10. }
  assert (∃ force, force ∈ forces system4_cmm ∧ class_name force ∉ _known_forces)
    as H3.
  { exists (OtherForce CMMotionRemover). split; [|apply cmm_unknown].
    rewrite list_elem_of_In. cbn. auto 10. }
  split; [apply region4_valid|]. split; [exact H2|]. split; [exact H3|].
  destruct (unknown_force_rejected system4_cmm [0%Z; 1%Z] true
              (region4_valid _) H2 H3) as (u & Hu & _).
  eexists _, _. exact Hu.
Defined.

(** C8 fails in two ways. With a motion remover next to the five known
    forces, [ValueError] leaves the constructor when the output system
    already holds the four particle masses, the barostat and the box vectors;
    with a motion remover and no nonbonded force, the constructor raises
    [KeyError] and never reaches the check for unknown forces. *)
Lemma unknown_force_after_copying :
  (∃ unknown_forces out,
     __init__ system4_cmm [0%Z; 1%Z] true
     = Raised (ValueError unknown_forces "og") (Some out)
     ∧ particleMasses out = [12; 1; 16; 1]
     ∧ forces out = [MonteCarloBarostat 1 300 50]
     ∧ defaultPeriodicBoxVectors out = ((3, 0, 0), (0, 3, 0), (0, 0, 3)))
  ∧ __init__ system4_cmm_only [0%Z; 1%Z] true = Raised (KeyError "NonbondedForce") None.
Proof.
  split.
  - eexists _, _. split.
    + apply (__init__unknown system4_cmm [0%Z; 1%Z] true nb4).
      * apply region4_valid.
      * apply system4_cmm_nonbonded.
      * rewrite <- known_dom. intros Hall. apply cmm_unknown, Hall.
        rewrite list_elem_of_In. cbn. auto 10.
    + cbn [particleMasses forces defaultPeriodicBoxVectors].
      by rewrite system4_cmm_barostat.
  - vm_compute. reflexivity.
Qed.

(** C9 as the code has it. The constructor returns for every system that
    has the four force classes it rewrites, no unknown force class and
    nonbonded parameters for each particle, and every solute region within
    the particle indices.  The system it returns has the particle masses,
    constraints and box vectors of the original and, after the barostat if
    there is one, the three custom bonded forces and the nonbonded force. *)
Theorem accepted_system_returns system solute_region use_dispersion_correction :
  accepted system solute_region →
  ∃ self,
    __init__ system solute_region use_dispersion_correction = Returned self
    ∧ particleMasses (REST_system self) = particleMasses system
    ∧ constraints (REST_system self) = constraints system
    ∧ defaultPeriodicBoxVectors (REST_system self) = defaultPeriodicBoxVectors system
    ∧ class_name <$> forces (REST_system self)
      = (class_name <$> copied_forces (forces_by_name system))
        ++ ["CustomBondForce"; "CustomAngleForce"; "CustomTorsionForce";
            "NonbondedForce"].
Proof.
  intros Hacc.
  apply (accepted_Returned _ _ use_dispersion_correction) in Hacc as [self Hret].
  exists self. split; [exact Hret|].
  apply Returned_inv in Hret as (bonds & angles & torsions & og & nb & H).
  cbv zeta in H.
  destruct H as (_ & _ & _ & _ & _ & _ & _ & _ & _ & _ & Hf & Hm & Hc & Hb & _).
  unfold REST_system. rewrite Hf, fmap_app. done.
Qed.

Lemma accepted_system_returns_witness :
  accepted system4 [0%Z; 1%Z]
  ∧ ∃ self, __init__ system4 [0%Z; 1%Z] true = Returned self
      ∧ particleMasses (REST_system self) = particleMasses system4.
Proof.
  assert (accepted system4 [0%Z; 1%Z]) as H
    by exact (proj2 (accepted_Returned system4 [0%Z; 1%Z] true) system4_returns).
  split; [exact H|].
  destruct (accepted_system_returns system4 [0%Z; 1%Z] true H) as (self & E & Hm & _).
  exists self. split; [exact E | exact Hm].
Defined.

(** C9 fails: a system whose only force is a nonbonded force, or which has
    no force at all, has no force class outside the five known ones and the
    empty solute region is within its particles, and the constructor raises
    [KeyError]. *)
Lemma absent_force_rejected :
  (∀ force, force ∈ forces system4_nonbonded_only → class_name force ∈ _known_forces)
  ∧ (∃ out, __init__ system4_nonbonded_only [] false
            = Raised (KeyError "HarmonicBondForce") out)
  ∧ (∀ force, force ∈ forces system4_no_forces → class_name force ∈ _known_forces)
  ∧ __init__ system4_no_forces [] false = Raised (KeyError "NonbondedForce") None.
Proof.
  split; [|split; [|split]].
  - intros force Hin. apply list_elem_of_In in Hin. cbn in Hin.
    destruct Hin as [<- | []].
    unfold _known_forces. rewrite elem_of_list_to_set, list_elem_of_In. cbn. auto 10.
  - eexists. vm_compute. reflexivity.
  - intros force Hin. apply list_elem_of_In in Hin. destruct Hin.
  - vm_compute. reflexivity.
Qed.

(** *** The empty solute region *)

Lemma concat_zip_with_nil {X Y} (h : Z → X → list Y) (l : list Z) (xs : list X) :
  (∀ i x, x ∈ xs → h i x = []) → concat (zip_with h l xs) = [].
Proof.
  revert xs. induction l as [|i l IH]; intros xs H; [done|].
  destruct xs as [|x xs]; [done|]. cbn.
  rewrite H by left. apply IH. intros j y Hy. apply H. by right.
Qed.

Lemma empty_region_identifier system self :
  _solute_region self = [] →
  (∀ x, x ∈ _solvent_region self ↔ valid_index system x ∧ x ∉ ([] : list Z)) →
  (∀ p, get_identifier self (Single p) = 1%Z)
  ∧ (∀ l, Forall (valid_index system) l → get_identifier self (Many l) = 1%Z).
Proof.
  intros Hsolute Hsolvent. split.
  - intros p. cbn. rewrite Hsolute. by rewrite bool_decide_eq_false_2 by apply not_elem_of_nil.
  - intros l Hl. cbn.
    assert (forallb (λ x, bool_decide (x ∈ _solvent_region self)) l = true) as ->; [|done].
    apply forallb_bool_decide. eapply Forall_impl; [exact Hl|].
    intros x Hx. apply Hsolvent. split; [done|apply not_elem_of_nil].
Qed.

(** *** The offsets of the four-particle system *)

Lemma system4_offsets :
  ∃ self nb,
    __init__ system4 [0%Z; 1%Z] true = Returned self
    ∧ og_nonbonded self = Some nb4 ∧ out_nonbonded self = Some nb
    ∧ get_identifier self (Single 0%Z) = 0%Z
    ∧ get_identifier self (Many [0%Z; 1%Z]) = 0%Z
    ∧ get_identifier self (Many [1%Z; 2%Z]) = 2%Z
    ∧ offsets_of 0%Z (particleOffsets nb)
      = [("electrostatic_scale", 0%Z, 1, 0 * 3, 5 * 0);
         ("steric_scale", 0%Z, 1 * 0, 0 * 3, 5)]
    ∧ offsets_of 0%Z (exceptionOffsets nb) = [("steric_scale", 0%Z, 2, 0 * 1, 3)]
    ∧ offsets_of 1%Z (exceptionOffsets nb) = [("electrostatic_scale", 1%Z, 3, 0 * 2, 6)].
Proof.
  destruct system4_returns as [self E]. pose proof E as E'.
  apply Returned_inv in E' as (b' & a' & t' & og & nb & Hinv). cbv zeta in Hinv.
  destruct Hinv as (_ & _ & _ & Hn & Hnb & Hog & _ & _ & _ & Hout & _ & _ & _ & _
                    & Hsolute & Hsolvent & _ & _).
  rewrite system4_nonbonded in Hn. injection Hn as <-.
  exists self, nb. split; [exact E|].
  split; [unfold og_nonbonded; rewrite Hog, system4_nonbonded; reflexivity|].
  split; [exact Hout|].
  assert (0%Z ∈ [0%Z; 1%Z]) as S0 by (apply list_elem_of_In; cbn; auto).
  assert (1%Z ∈ [0%Z; 1%Z]) as S1 by (apply list_elem_of_In; cbn; auto).
  assert (2%Z ∉ [0%Z; 1%Z]) as S2.
  { rewrite list_elem_of_In. cbn. intros [H | [H | []]]; discriminate H. }
  assert (0%Z ∉ _solvent_region self) as V0 by (rewrite Hsolvent; tauto).
  assert (1%Z ∉ _solvent_region self) as V1 by (rewrite Hsolvent; tauto).
  assert (get_identifier self (Single 0%Z) = 0%Z) as I0.
  { unfold get_identifier. rewrite Hsolute. by rewrite bool_decide_eq_true_2. }
  assert (get_identifier self (Many [0%Z; 1%Z]) = 0%Z) as I01.
  { unfold get_identifier. cbn [forallb]. rewrite Hsolute.
    rewrite (bool_decide_eq_false_2 _ V0).
    by rewrite (bool_decide_eq_true_2 _ S0), (bool_decide_eq_true_2 _ S1). }
  assert (get_identifier self (Many [1%Z; 2%Z]) = 2%Z) as I12.
  { unfold get_identifier. cbn [forallb]. rewrite Hsolute.
    rewrite (bool_decide_eq_false_2 _ V1).
    by rewrite (bool_decide_eq_true_2 _ S1), (bool_decide_eq_false_2 _ S2). }
  split; [exact I0|]. split; [exact I01|]. split; [exact I12|].
  apply nonbonded_force_containers in Hnb as (_ & Hp & _ & _ & Heo).
  split; [|split].
  - assert (valid_index system4 0%Z) as Hv by (apply (region4_valid _ 0%Z), S0).
    assert (nbParticles nb4 !! Z.to_nat 0 = Some (1, 3, 5)) as Hl by reflexivity.
    destruct (Hp 0%Z (1, 3, 5) Hv Hl) as [_ ->].
    unfold particle_offsets. rewrite I0. reflexivity.
  - assert (nbExceptions nb4 !! 0%nat = Some (0%Z, 1%Z, 2, 1, 3)) as Hl by reflexivity.
    pose proof (Heo 0%nat _ Hl) as H0.
    change (Z.of_nat 0) with 0%Z in H0. rewrite H0.
    unfold exception_offsets. rewrite I01. reflexivity.
  - assert (nbExceptions nb4 !! 1%nat = Some (1%Z, 2%Z, 3, 2, 6)) as Hl by reflexivity.
    pose proof (Heo 1%nat _ Hl) as H1.
    change (Z.of_nat 1) with 1%Z in H1. rewrite H1.
    unfold exception_offsets. rewrite I12. reflexivity.
Qed.

(** C2 fails on sigma: for the solute particle 0 of the four-particle
    system, with (charge, sigma, epsilon) = (1, 3, 5), the offset on
    [steric_scale] has sigma scale 0 and not 3. *)
Lemma steric_offset_has_no_sigma :
  ∃ self nb,
    __init__ system4 [0%Z; 1%Z] true = Returned self
    ∧ og_nonbonded self = Some nb4 ∧ out_nonbonded self = Some nb
    ∧ get_identifier self (Single 0%Z) = 0%Z
    ∧ nbParticles nb4 !! 0%nat = Some (1, 3, 5)
    ∧ ∀ chargeScale epsilonScale,
        offsets_of 0%Z (particleOffsets nb)
        ≠ [("electrostatic_scale", 0%Z, 1, 0, 0);
           ("steric_scale", 0%Z, chargeScale, 3, epsilonScale)].
Proof.
  destruct system4_offsets as (self & nb & E & Hog & Hout & I0 & _ & _ & Hp & _).
  exists self, nb. split; [exact E|]. split; [exact Hog|]. split; [exact Hout|].
  split; [exact I0|]. split; [reflexivity|].
  intros c e Heq. rewrite Hp in Heq. injection Heq. intros. lra.
Qed.

(** C3 fails on the charge and on epsilon: in the four-particle system the
    exception (0,1) within the solute, with (chargeProd, sigma, epsilon) =
    (2, 1, 3), gets an offset of charge scale 2, not 0, and the exception
    (1,2) across the regions, with (3, 2, 6), gets an offset of epsilon
    scale 6, not 0. *)
Lemma exception_offsets_scale_charge_and_epsilon :
  ∃ self nb,
    __init__ system4 [0%Z; 1%Z] true = Returned self
    ∧ og_nonbonded self = Some nb4 ∧ out_nonbonded self = Some nb
    ∧ nbExceptions nb4 !! 0%nat = Some (0%Z, 1%Z, 2, 1, 3)
    ∧ get_identifier self (Many [0%Z; 1%Z]) = 0%Z
    ∧ (∀ sigmaScale epsilonScale,
         offsets_of 0%Z (exceptionOffsets nb)
         ≠ [("steric_scale", 0%Z, 0, sigmaScale, epsilonScale)])
    ∧ nbExceptions nb4 !! 1%nat = Some (1%Z, 2%Z, 3, 2, 6)
    ∧ get_identifier self (Many [1%Z; 2%Z]) = 2%Z
    ∧ (∀ chargeScale sigmaScale,
         offsets_of 1%Z (exceptionOffsets nb)
         ≠ [("electrostatic_scale", 1%Z, chargeScale, sigmaScale, 0)]).
Proof.
  destruct system4_offsets
    as (self & nb & E & Hog & Hout & _ & I01 & I12 & _ & H0 & H1).
  exists self, nb. split; [exact E|]. split; [exact Hog|]. split; [exact Hout|].
  split; [reflexivity|]. split; [exact I01|]. split.
  { intros s e Heq. rewrite H0 in Heq. injection Heq. intros. lra. }
  split; [reflexivity|]. split; [exact I12|].
  intros c s Heq. rewrite H1 in Heq. injection Heq. intros. lra.
Qed.

(** *** Witnesses on the four-particle system *)

Lemma system4_supported : supported system4.
Proof. exact (proj2 (proj2 (accepted_Returned system4 [0%Z; 1%Z] true) system4_returns)). Qed.

Lemma system4_valid_terms : valid_terms system4.
Proof.
  intros force Hin. apply list_elem_of_In in Hin. cbn in Hin.
  destruct Hin as [<- | [<- | [<- | [<- | [<- | []]]]]]; cbn;
    repeat constructor; unfold getNumParticles; cbn; lia.
Qed.

Lemma particle_offsets_added_witness :
  ∃ self, __init__ system4 [0%Z; 1%Z] true = Returned self
    ∧ ∃ og nb, og_nonbonded self = Some og ∧ out_nonbonded self = Some nb.
Proof.
  destruct system4_returns as [self E]. exists self. split; [exact E|].
  destruct (particle_offsets_added system4 [0%Z; 1%Z] true self E)
    as (og & nb & Hog & Hout & _).
  exists og, nb. split; [exact Hog | exact Hout].
Defined.

Lemma exception_offsets_added_witness :
  ∃ self, __init__ system4 [0%Z; 1%Z] true = Returned self
    ∧ ∃ og nb, og_nonbonded self = Some og ∧ out_nonbonded self = Some nb
               ∧ nbExceptions nb = nbExceptions og.
Proof.
  destruct system4_returns as [self E]. exists self. split; [exact E|].
  destruct (exception_offsets_added system4 [0%Z; 1%Z] true self E)
    as (og & nb & Hog & Hout & He & _).
  exists og, nb. split; [exact Hog|]. split; [exact Hout | exact He].
Defined.

Lemma get_identifier_classification_witness :
  ∃ self, __init__ system4 [0%Z; 1%Z] true = Returned self
    ∧ ∀ ps, get_identifier_ ps self = (inr (get_identifier self ps), self).
Proof.
  destruct system4_returns as [self E]. exists self. split; [exact E|].
  exact (proj1 (get_identifier_classification system4 [0%Z; 1%Z] true self E)).
Defined.

Lemma bonded_scale_factor_witness :
  ∃ self, __init__ system4 [0%Z; 1%Z] true = Returned self
    ∧ ∃ B, out_bond_force self = Some B
           ∧ globalParameters B = [("solute_scale", 1); ("inter_scale", 1)].
Proof.
  destruct system4_returns as [self E]. exists self. split; [exact E|].
  destruct (bonded_scale_factor system4 [0%Z; 1%Z] true self E)
    as (bonds & angles & torsions & B & A & T & _ & (Hout & _) & (Hg & _) & _).
  exists B. split; [exact Hout | exact Hg].
Defined.

(** * Further properties of the code *)

Import Defaults Utils MoreExamples.

(** ** Errors of the constructor *)

(** X1. A solute region with an index outside the particle indices makes
    the constructor raise [AssertionError], whatever forces the system has,
    before the output system exists. *)
Theorem invalid_region_rejected system solute_region use_dispersion_correction :
  (∃ p, p ∈ solute_region ∧ ¬ valid_index system p) →
  __init__ system solute_region use_dispersion_correction
  = Raised (AssertionError "the solute region is not a subset of the system particles")
           None.
Proof.
  intros (p & Hin & Hnv). unfold __init__.
  rewrite bool_decide_eq_false_2; [done|].
  intros Hsub. apply Hnv. unfold valid_index.
  specialize (Hsub p). rewrite !elem_of_list_to_set, elem_of_seqZ in Hsub.
  specialize (Hsub Hin). lia.
Qed.

Lemma invalid_region_rejected_witness :
  (∃ p, p ∈ [0%Z; 4%Z] ∧ ¬ valid_index system4 p)
  ∧ __init__ system4 [0%Z; 4%Z] true
    = Raised (AssertionError "the solute region is not a subset of the system particles")
             None.
Proof.
  assert (∃ p, p ∈ [0%Z; 4%Z] ∧ ¬ valid_index system4 p) as H.
  { exists 4%Z. split; [apply list_elem_of_In; cbn; auto|].
    unfold valid_index, getNumParticles. cbn. lia. }
  split; [exact H|]. exact (invalid_region_rejected system4 [0%Z; 4%Z] true H).
Defined.

Lemma absent_lookup system name :
  (∀ force, force ∈ forces system → class_name force ≠ name) →
  forces_by_name system !! name = None.
Proof.
  intros H. apply not_elem_of_dom. rewrite dom_forces_by_name.
  rewrite elem_of_list_to_set, list_elem_of_fmap. intros (force & -> & Hin).
  by apply (H force).
Qed.

Lemma region_subset system (solute_region : list Z) :
  (∀ p, p ∈ solute_region → valid_index system p) →
  (list_to_set solute_region : gset Z) ⊆ list_to_set (seqZ 0 (getNumParticles system)).
Proof.
  intros Hreg x. rewrite !elem_of_list_to_set, elem_of_seqZ. apply Hreg.
Qed.

(** X2. With a valid solute region and no nonbonded force in the system,
    the constructor raises [KeyError] for ['NonbondedForce'] before the
    output system exists, also when the system has unknown forces. *)
Theorem missing_nonbonded_force system solute_region use_dispersion_correction :
  (∀ p, p ∈ solute_region → valid_index system p) →
  (∀ force, force ∈ forces system → class_name force ≠ "NonbondedForce") →
  __init__ system solute_region use_dispersion_correction
  = Raised (KeyError "NonbondedForce") None.
Proof.
  intros Hreg Habs. unfold __init__.
  rewrite bool_decide_eq_true_2 by by apply region_subset.
  by rewrite absent_lookup.
Qed.

Lemma missing_nonbonded_force_witness :
  (∀ p, p ∈ [0%Z; 1%Z] → valid_index system4_cmm_only p)
  ∧ (∀ force, force ∈ forces system4_cmm_only → class_name force ≠ "NonbondedForce")
  ∧ __init__ system4_cmm_only [0%Z; 1%Z] true = Raised (KeyError "NonbondedForce") None.
Proof.
  assert (∀ force, force ∈ forces system4_cmm_only →
                   class_name force ≠ "NonbondedForce") as H.
  { intros force Hin. apply list_elem_of_In in Hin. cbn in Hin.
    destruct Hin as [<- | []]. discriminate. }
  split; [apply region4_valid|]. split; [exact H|].
  exact (missing_nonbonded_force system4_cmm_only [0%Z; 1%Z] true (region4_valid _) H).
Defined.

Lemma bonds_KeyError s :
  _og_system_forces s !! "HarmonicBondForce" = None →
  ∃ s', (_add_bond_force_terms;; _add_bonds) s = (inl (KeyError "HarmonicBondForce"), s')
        ∧ particleMasses (_out_system s') = particleMasses (_out_system s)
        ∧ constraints (_out_system s') = constraints (_out_system s).
Proof.
  intros H. eexists. split.
  - rewrite (bind_run _ _ _ _ _ (_add_bond_force_terms_run (λ _, 0%Z) s)).
    unfold _add_bonds, og_HarmonicBondForce, og_force.
    cbv [mbind M_bind].
    change (_og_system_forces (added _ _ _ s)) with (_og_system_forces s).
    rewrite H. reflexivity.
  - done.
Qed.

Lemma angles_KeyError s :
  _og_system_forces s !! "HarmonicAngleForce" = None →
  ∃ s', (_add_angle_force_terms;; _add_angles) s = (inl (KeyError "HarmonicAngleForce"), s')
        ∧ particleMasses (_out_system s') = particleMasses (_out_system s)
        ∧ constraints (_out_system s') = constraints (_out_system s).
Proof.
  intros H. eexists. split.
  - rewrite (bind_run _ _ _ _ _ (_add_angle_force_terms_run (λ _, 0%Z) s)).
    unfold _add_angles, og_HarmonicAngleForce, og_force.
    cbv [mbind M_bind].
    change (_og_system_forces (added _ _ _ s)) with (_og_system_forces s).
    rewrite H. reflexivity.
  - done.
Qed.

Lemma torsions_KeyError s :
  _og_system_forces s !! "PeriodicTorsionForce" = None →
  ∃ s', (_add_torsion_force_terms;; _add_torsions) s
        = (inl (KeyError "PeriodicTorsionForce"), s')
        ∧ particleMasses (_out_system s') = particleMasses (_out_system s)
        ∧ constraints (_out_system s') = constraints (_out_system s).
Proof.
  intros H. eexists. split.
  - rewrite (bind_run _ _ _ _ _ (_add_torsion_force_terms_run (λ _, 0%Z) s)).
    unfold _add_torsions, og_PeriodicTorsionForce, og_force.
    cbv [mbind M_bind].
    change (_og_system_forces (added _ _ _ s)) with (_og_system_forces s).
    rewrite H. reflexivity.
  - done.
Qed.

Lemma present_class_bond system :
  (∃ force, force ∈ forces system ∧ class_name force = "HarmonicBondForce") →
  ∃ bonds, forces_by_name system !! "HarmonicBondForce" = Some (HarmonicBondForce bonds).
Proof.
  intros H. apply present_lookup in H as (f & Hf & C).
  destruct f as [bonds| | | | | | | |[]]; try discriminate C. eauto.
Qed.

Lemma present_class_angle system :
  (∃ force, force ∈ forces system ∧ class_name force = "HarmonicAngleForce") →
  ∃ angles, forces_by_name system !! "HarmonicAngleForce" = Some (HarmonicAngleForce angles).
Proof.
  intros H. apply present_lookup in H as (f & Hf & C).
  destruct f as [|angles| | | | | | |[]]; try discriminate C. eauto.
Qed.

Lemma present_class_torsion system :
  (∃ force, force ∈ forces system ∧ class_name force = "PeriodicTorsionForce") →
  ∃ torsions,
    forces_by_name system !! "PeriodicTorsionForce" = Some (PeriodicTorsionForce torsions).
Proof.
  intros H. apply present_lookup in H as (f & Hf & C).
  destruct f as [| |torsions| | | | | |[]]; try discriminate C. eauto.
Qed.

Lemma present_class_nonbonded system :
  (∃ force, force ∈ forces system ∧ class_name force = "NonbondedForce") →
  ∃ og, forces_by_name system !! "NonbondedForce" = Some (NonbondedForce og).
Proof.
  intros H. apply present_lookup in H as (f & Hf & C).
  destruct f as [| | |og| | | | |[]]; try discriminate C. eauto.
Qed.

Lemma absent_class system name :
  ¬ (∃ force, force ∈ forces system ∧ class_name force = name) →
  forces_by_name system !! name = None.
Proof. intros H. apply absent_lookup. intros force Hin Hc. apply H. eauto. Qed.

Lemma __init__runs_body system solute_region use_dispersion_correction og :
  (∀ p, p ∈ solute_region → valid_index system p) →
  forces_by_name system !! "NonbondedForce" = Some (NonbondedForce og) →
  __init__ system solute_region use_dispersion_correction
  = match __init__body (initial system solute_region use_dispersion_correction og) with
    | (inl e, self') => Raised e (Some (_out_system self'))
    | (inr _, self') => Returned self'
    end.
Proof.
  intros Hreg Hn. unfold __init__.
  rewrite bool_decide_eq_true_2 by by apply region_subset. by rewrite Hn.
Qed.

(** X3. With a valid solute region, a nonbonded force and no unknown force,
    the constructor raises [KeyError] for the first of ['HarmonicBondForce'],
    ['HarmonicAngleForce'], ['PeriodicTorsionForce'] that the system lacks.
    The exception leaves the constructor when the particle masses and the
    constraints are already copied into the output system. *)
Theorem missing_bonded_force system solute_region use_dispersion_correction :
  let present name := ∃ force, force ∈ forces system ∧ class_name force = name in
  let raises name :=
    ∃ out, __init__ system solute_region use_dispersion_correction
           = Raised (KeyError name) (Some out)
           ∧ particleMasses out = particleMasses system
           ∧ constraints out = constraints system in
  (∀ p, p ∈ solute_region → valid_index system p) →
  present "NonbondedForce" →
  (∀ force, force ∈ forces system → class_name force ∈ _known_forces) →
  (¬ present "HarmonicBondForce" → raises "HarmonicBondForce")
  ∧ (present "HarmonicBondForce" → ¬ present "HarmonicAngleForce" →
     raises "HarmonicAngleForce")
  ∧ (present "HarmonicBondForce" → present "HarmonicAngleForce" →
     ¬ present "PeriodicTorsionForce" → raises "PeriodicTorsionForce").
Proof.
  intros present raises Hreg Hnb Hknown. subst present raises. cbv beta.
  apply present_class_nonbonded in Hnb as [og Hn]. apply known_dom in Hknown.
  set (s0 := initial system solute_region use_dispersion_correction og).
  rewrite (__init__runs_body _ _ _ og) by done. fold s0.
  assert (classifies (get_identifier s0) s0) as Hid by done.
  unfold __init__body. rewrite prefix_run, check_and_constraints_run by done.
  apply classifies_copied in Hid.
  split; [|split].
  - intros Hb. apply absent_class in Hb.
    destruct (bonds_KeyError (copied s0) Hb) as (s' & Hf & Hm & Hc).
    rewrite <- bind_assoc, (bind_fail _ _ _ _ _ Hf). eexists. split; [done|].
    rewrite Hm, Hc. done.
  - intros Hb Ha. apply present_class_bond in Hb as [bonds Hb].
    apply absent_class in Ha.
    rewrite <- bind_assoc.
    rewrite (bind_run _ _ _ _ _ (bonds_added (get_identifier s0) _ bonds Hid Hb)).
    rewrite <- bind_assoc.
    match goal with
    | |- context [ (_ ≫= _) ?st ] => destruct (angles_KeyError st Ha) as (s' & Hf & Hm & Hc)
    end.
    rewrite (bind_fail _ _ _ _ _ Hf). eexists. split; [done|].
    rewrite Hm, Hc. done.
  - intros Hb Ha Ht. apply present_class_bond in Hb as [bonds Hb].
    apply present_class_angle in Ha as [angles Ha]. apply absent_class in Ht.
    rewrite <- bind_assoc.
    rewrite (bind_run _ _ _ _ _ (bonds_added (get_identifier s0) _ bonds Hid Hb)).
    eapply classifies_added in Hid.
    rewrite <- bind_assoc.
    erewrite (bind_run _ _ _ _ _ (angles_added (get_identifier s0) _ angles Hid Ha)).
    rewrite <- bind_assoc.
    match goal with
    | |- context [ (_ ≫= _) ?st ] => destruct (torsions_KeyError st Ht) as (s' & Hf & Hm & Hc)
    end.
    rewrite (bind_fail _ _ _ _ _ Hf). eexists. split; [done|].
    rewrite Hm, Hc. done.
Qed.

Lemma system4_nonbonded_only_known force :
  force ∈ forces system4_nonbonded_only → class_name force ∈ _known_forces.
Proof.
  intros Hin. apply list_elem_of_In in Hin. cbn in Hin. destruct Hin as [<- | []].
  unfold _known_forces. rewrite elem_of_list_to_set, list_elem_of_In. cbn. auto 10.
Qed.

Lemma missing_bonded_force_witness :
  (∀ p, p ∈ [0%Z; 1%Z] → valid_index system4_nonbonded_only p)
  ∧ (∃ force, force ∈ forces system4_nonbonded_only
              ∧ class_name force = "NonbondedForce")
  ∧ (∀ force, force ∈ forces system4_nonbonded_only → class_name force ∈ _known_forces)
  ∧ ∃ out, __init__ system4_nonbonded_only [0%Z; 1%Z] false
           = Raised (KeyError "HarmonicBondForce") (Some out)
           ∧ particleMasses out = particleMasses system4_nonbonded_only
           ∧ constraints out = constraints system4_nonbonded_only.
Proof.
  assert (∃ force, force ∈ forces system4_nonbonded_only
                   ∧ class_name force = "NonbondedForce") as Hnb.
  { exists (NonbondedForce nb4). split; [by left|reflexivity]. }
  split; [apply region4_valid|]. split; [exact Hnb|].
  split; [exact system4_nonbonded_only_known|].
  apply (missing_bonded_force system4_nonbonded_only [0%Z; 1%Z] false
           (region4_valid _) Hnb system4_nonbonded_only_known).
  intros (force & Hin & Hc). apply list_elem_of_In in Hin. cbn in Hin.
  destruct Hin as [<- | []]. discriminate Hc.
Defined.

(** ** A nonbonded force with too few particles *)

Lemma forM_raises {X} (l1 : list X) (x : X) (l2 : list X) (body : X → M unit)
    s s1 e s2 :
  forM_ l1 body s = (inr tt, s1) →
  body x s1 = (inl e, s2) →
  forM_ (l1 ++ x :: l2) body s = (inl e, s2).
Proof.
  revert s. induction l1 as [|y l1 IH]; intros s H1 H2; cbn [app forM_].
  - injection H1 as <-. by apply bind_fail.
  - cbn [forM_] in H1. unfold mbind, M_bind in H1 |- *.
    destruct (body y s) as [[e'|[]] s'] eqn:E; [discriminate H1|].
    by apply IH.
Qed.

Lemma nonbondeds_short id s og :
  classifies id s →
  _og_system_forces s !! "NonbondedForce" = Some (NonbondedForce og) →
  (Z.of_nat (length (nbParticles og)) < _num_particles s)%Z →
  ∃ s', (_add_nonbonded_force_terms;; _add_nonbondeds) s = (inl OpenMMException, s')
        ∧ particleMasses (_out_system s') = particleMasses (_out_system s)
        ∧ constraints (_out_system s') = constraints (_out_system s).
Proof.
  intros Hid Hog Hlen.
  rewrite (bind_run _ _ _ _ _ (_add_nonbonded_force_terms_run s og Hog)).
  set (nb := configured (_nonbonded_method s) (_use_dispersion_correction s) og).
  set (s1 := added "NonbondedForce" (NonbondedForce nb)
               ["electrostatic_scale"; "steric_scale"] s).
  set (n := length (nbParticles og)) in *.
  assert (classifies id s1) as Hid1 by by apply classifies_added.
  assert (_og_system_forces s1 !! "NonbondedForce" = Some (NonbondedForce og)) as Hog1
    by done.
  unfold _add_nonbondeds.
  rewrite (bind_run _ _ _ _ _ (og_NonbondedForce_run _ _ Hog1)).
  rewrite (bind_run get _ s1 s1 s1) by done.
  change (_num_particles s1) with (_num_particles s).
  replace (_num_particles s) with (Z.of_nat n + (_num_particles s - Z.of_nat n))%Z by lia.
  rewrite seqZ_app by lia. rewrite (seqZ_cons _ (_num_particles s - Z.of_nat n)) by lia.
  pose proof (forM_foldM NonbondedForce "NonbondedForce" (classifies id)
                (classifies_upd id) (particle_step id og) _
                (seqZ 0 (Z.of_nat n))
                (λ x s0 r0 c0 _ Hi0 Hd0 Hf0, particle_body_run id og s0 r0 c0 x Hi0 Hd0 Hf0)
                s1 _ nb Hid1 (added_dict _ _ _ _) (added_lookup _ _ _ _)) as H1.
  destruct (foldM_particle_step_is_Some id og (seqZ 0 (Z.of_nat n)) nb) as [nb1 Hnb1].
  { apply Forall_forall. intros idx Hidx. apply elem_of_seqZ in Hidx.
    apply lookup_lt_is_Some. fold n. lia. }
  rewrite Hnb1 in H1.
  eexists. split.
  - apply bind_fail. eapply forM_raises; [exact H1|].
    unfold getParticleParameters. rewrite Z.add_0_l, Nat2Z.id.
    rewrite (proj2 (lookup_ge_None (nbParticles og) n)) by (fold n; lia).
    reflexivity.
  - done.
Qed.

(** X4. When the nonbonded force has parameters for fewer particles than
    the system has, and nothing else is in the way, the constructor fails with
    the engine's exception at the first particle without parameters; the
    particle masses and the constraints are already copied by then. *)
Theorem short_nonbonded_force_rejected system solute_region use_dispersion_correction
    og :
  (∀ p, p ∈ solute_region → valid_index system p) →
  (∀ force, force ∈ forces system → class_name force ∈ _known_forces) →
  (∀ name, name ∈ ["HarmonicBondForce"; "HarmonicAngleForce"; "PeriodicTorsionForce"] →
           ∃ force, force ∈ forces system ∧ class_name force = name) →
  forces_by_name system !! "NonbondedForce" = Some (NonbondedForce og) →
  (length (nbParticles og) < length (particleMasses system))%nat →
  ∃ out,
    __init__ system solute_region use_dispersion_correction
    = Raised OpenMMException (Some out)
    ∧ particleMasses out = particleMasses system
    ∧ constraints out = constraints system.
Proof.
  intros Hreg Hknown Hpresent Hn Hlen. apply known_dom in Hknown.
  destruct (present_class_bond system) as [bonds Hb]; [apply Hpresent; by left|].
  destruct (present_class_angle system) as [angles Ha];
    [apply Hpresent; right; by left|].
  destruct (present_class_torsion system) as [torsions Ht];
    [apply Hpresent; right; right; by left|].
  set (s0 := initial system solute_region use_dispersion_correction og).
  rewrite (__init__runs_body _ _ _ og) by done. fold s0.
  assert (classifies (get_identifier s0) s0) as Hid by done.
  unfold __init__body. rewrite prefix_run, check_and_constraints_run by done.
  apply classifies_copied in Hid.
  rewrite <- bind_assoc.
  rewrite (bind_run _ _ _ _ _ (bonds_added (get_identifier s0) _ bonds Hid Hb)).
  eapply classifies_added in Hid.
  rewrite <- bind_assoc.
  erewrite (bind_run _ _ _ _ _ (angles_added (get_identifier s0) _ angles Hid Ha)).
  eapply classifies_added in Hid.
  rewrite <- bind_assoc.
  erewrite (bind_run _ _ _ _ _ (torsions_added (get_identifier s0) _ torsions Hid Ht)).
  eapply classifies_added in Hid.
  match goal with
  | |- context [ (_ ≫= _) ?st ] =>
      destruct (nonbondeds_short (get_identifier s0) st og Hid Hn) as (s' & Hf & Hm & Hc)
  end.
  { cbn [_num_particles added copied set_out_system copied_masses_barostat_box s0 initial].
    unfold getNumParticles. lia. }
  rewrite Hf. eexists. split; [done|]. rewrite Hm, Hc. done.
Qed.

Lemma system4_short_nonbonded_lookup :
  forces_by_name system4_short_nonbonded !! "NonbondedForce" = Some (NonbondedForce nb2).
Proof. vm_compute. reflexivity. Qed.

Lemma short_nonbonded_force_rejected_witness :
  (∀ p, p ∈ [0%Z; 1%Z] → valid_index system4_short_nonbonded p)
  ∧ (length (nbParticles nb2) < length (particleMasses system4_short_nonbonded))%nat
  ∧ ∃ out,
      __init__ system4_short_nonbonded [0%Z; 1%Z] true
      = Raised OpenMMException (Some out)
      ∧ particleMasses out = particleMasses system4_short_nonbonded.
Proof.
  assert (length (nbParticles nb2) < length (particleMasses system4_short_nonbonded))%nat
    as Hlen by (cbn; lia).
  split; [apply region4_valid|]. split; [exact Hlen|].
  destruct (short_nonbonded_force_rejected system4_short_nonbonded [0%Z; 1%Z] true nb2
              (region4_valid _)) as (out & Hr & Hm & _).
  - intros force Hin. apply list_elem_of_In in Hin. cbn [In forces system4_short_nonbonded
      system4_with] in Hin.
    unfold _known_forces. rewrite elem_of_list_to_set, list_elem_of_In.
    destruct Hin as [<- | [<- | [<- | [<- | []]]]]; cbn; auto 10.
  - intros name Hin. apply list_elem_of_In in Hin. cbn [In] in Hin.
    destruct Hin as [<- | [<- | [<- | []]]].
    + exists bonds4. split; [apply list_elem_of_here|reflexivity].
    + exists (HarmonicAngleForce []).
      split; [apply list_elem_of_further, list_elem_of_here|reflexivity].
    + exists (PeriodicTorsionForce []).
      split; [do 2 apply list_elem_of_further; apply list_elem_of_here|reflexivity].
  - exact system4_short_nonbonded_lookup.
  - exact Hlen.
  - exists out. split; [exact Hr|exact Hm].
Defined.

(** ** Which force of a class is read *)

Lemma forces_by_name_app (l1 l2 : list Force) (d : gmap string Force) (name : string) :
  foldl (λ (d : gmap string Force) force, <[class_name force := force]> d) d (l1 ++ l2)
    !! name
  = match foldl (λ (d : gmap string Force) force, <[class_name force := force]> d) ∅ l2
          !! name with
    | Some force => Some force
    | None => foldl (λ (d : gmap string Force) force, <[class_name force := force]> d) d l1
                !! name
    end.
Proof.
  revert l1 d. induction l2 as [|f l2 IH] using rev_ind; intros l1 d.
  - rewrite app_nil_r. cbn. by rewrite lookup_empty.
  - rewrite app_assoc, !foldl_app. cbn.
    rewrite !lookup_insert. case_decide; [done|]. rewrite <- foldl_app. apply IH.
Qed.

Lemma forces_by_name_last system l1 force l2 :
  forces system = l1 ++ force :: l2 →
  (∀ f, f ∈ l2 → class_name f ≠ class_name force) →
  forces_by_name system !! class_name force = Some force.
Proof.
  intros Hf Hl2. unfold forces_by_name. rewrite Hf.
  change (l1 ++ force :: l2) with (l1 ++ [force] ++ l2).
  rewrite app_assoc, forces_by_name_app.
  assert (foldl (λ (d : gmap string Force) f, <[class_name f := f]> d) ∅ l2
            !! class_name force = None) as ->.
  { apply not_elem_of_dom. intros Hd.
    assert (∀ l (d : gmap string Force),
              dom (foldl (λ d f, <[class_name f := f]> d) d l)
              = dom d ∪ list_to_set (class_name <$> l)) as Hdom.
    { induction l as [|x l IH]; intros d; cbn.
      - by rewrite union_empty_r_L.
      - rewrite IH, dom_insert_L.
        by rewrite (comm_L (∪) {[class_name x]} (dom d)), <- (assoc_L (∪)). }
    rewrite Hdom, dom_empty_L, union_empty_l_L in Hd.
    apply elem_of_list_to_set, list_elem_of_fmap in Hd as (f & Hc & Hin).
    by apply (Hl2 f). }
  rewrite foldl_app. cbn. apply lookup_insert_eq.
Qed.

(** X5. When a system has several bond forces, the constructor rewrites the
    bonds of the last one only: the output's bond force has exactly one term
    per bond of that force, and the bonds of the earlier ones are left out. *)
Theorem last_bond_force_is_rewritten system solute_region use_dispersion_correction
    self l1 bonds l2 :
  __init__ system solute_region use_dispersion_correction = Returned self →
  forces system = l1 ++ HarmonicBondForce bonds :: l2 →
  (∀ f, f ∈ l2 → class_name f ≠ "HarmonicBondForce") →
  og_bonds self = Some bonds
  ∧ out_bond_force self = Some (bond_force (get_identifier self) bonds)
  ∧ ∀ B, out_bond_force self = Some B → (terms B).*1 = (λ b, (b.1.1.1, b.1.1.2)) <$> bonds.
Proof.
  intros Hret Hf Hl2.
  pose proof (forces_by_name_last system l1 (HarmonicBondForce bonds) l2 Hf Hl2) as Hl.
  apply Returned_inv in Hret as (bonds' & a & t & og & nb & H). cbv zeta in H.
  destruct H as (Hb & _ & _ & _ & _ & Hog & Ob & _).
  cbn [class_name] in Hl. rewrite Hl in Hb. injection Hb as <-.
  split; [unfold og_bonds; by rewrite Hog, Hl|]. split; [done|].
  intros B HB. rewrite Ob in HB. injection HB as <-.
  cbn [bond_force terms]. rewrite <- list_fmap_compose. apply list_fmap_ext.
  intros i [[[p1 p2] length] k] _. reflexivity.
Qed.

Lemma system4_two_bond_forces_returns :
  ∃ self, __init__ system4_two_bond_forces [0%Z; 1%Z] true = Returned self.
Proof. eexists. vm_compute. reflexivity. Qed.

Lemma last_bond_force_is_rewritten_witness :
  ∃ self,
    __init__ system4_two_bond_forces [0%Z; 1%Z] true = Returned self
    ∧ og_bonds self
      = Some [(0%Z, 1%Z, 1, 100); (1%Z, 2%Z, 2, 200); (2%Z, 3%Z, 1, 300)].
Proof.
  destruct system4_two_bond_forces_returns as [self E]. exists self.
  split; [exact E|].
  refine (proj1 (last_bond_force_is_rewritten system4_two_bond_forces [0%Z; 1%Z] true
                   self [HarmonicBondForce [(0%Z, 3%Z, 7, 700)]] _
                   [HarmonicAngleForce [(0%Z, 1%Z, 2%Z, 2, 50)];
                    PeriodicTorsionForce [(0%Z, 1%Z, 2%Z, 3%Z, 3%Z, 0, 5)];
                    NonbondedForce nb4; MonteCarloBarostat 1 300 50] E eq_refl _)).
  intros f Hin. apply list_elem_of_In in Hin. cbn in Hin.
  destruct Hin as [<- | [<- | [<- | [<- | []]]]]; discriminate.
Defined.

(** ** The dictionary of output forces *)

Lemma constructed_refs id s bonds angles torsions nb :
  forces (_out_system s) = [] →
  _out_system_forces s = ∅ →
  (∀ b, _og_system_forces s !! "MonteCarloBarostat" = Some b →
        class_name b = "MonteCarloBarostat") →
  let self := constructed id s bonds angles torsions nb in
  (∀ name ref, _out_system_forces self !! name = Some ref →
     ∃ force, forces (_out_system self) !! ref = Some force ∧ class_name force = name)
  ∧ (∀ force, force ∈ forces (_out_system self) →
       out_force_object self (class_name force) = Some force).
Proof.
  intros Hfs Hd Hb. cbv zeta. unfold out_force_object.
  cbn [constructed added copied copied_masses_barostat_box set_out_system
         _out_system_forces _out_system forces setForces _og_system_forces].
  rewrite Hfs, Hd. unfold copied_forces.
  destruct (_og_system_forces s !! "MonteCarloBarostat") as [b|] eqn:E.
  - specialize (Hb b eq_refl). rewrite Hb. cbn [app length]. split.
    + intros name ref.
      rewrite !lookup_insert_Some, lookup_empty.
      intros [[<- <-] | [_ [[<- <-] | [_ [[<- <-] | [_ [[<- <-] | [_ [[<- <-] | [_ ?]]]]]]]]]];
        [eexists; split; [reflexivity|reflexivity]..| |done].
      eexists; split; [reflexivity|done].
    + intros force Hin. apply list_elem_of_In in Hin. cbn in Hin.
      destruct Hin as [<- | [<- | [<- | [<- | [<- | []]]]]];
        [rewrite Hb|..]; cbn [class_name];
        rewrite ?lookup_insert_ne by done; rewrite lookup_insert_eq; reflexivity.
  - cbn [app length]. split.
    + intros name ref.
      rewrite !lookup_insert_Some, lookup_empty.
      intros [[<- <-] | [_ [[<- <-] | [_ [[<- <-] | [_ [[<- <-] | [_ ?]]]]]]]];
        [eexists; split; [reflexivity|reflexivity]..|done].
    + intros force Hin. apply list_elem_of_In in Hin. cbn in Hin.
      destruct Hin as [<- | [<- | [<- | [<- | []]]]]; cbn [class_name];
        rewrite ?lookup_insert_ne by done; rewrite lookup_insert_eq; reflexivity.
Qed.

Lemma out_force_refs system solute_region use_dispersion_correction self :
  __init__ system solute_region use_dispersion_correction = Returned self →
  (∀ name ref, _out_system_forces self !! name = Some ref →
     ∃ force, forces (_out_system self) !! ref = Some force ∧ class_name force = name)
  ∧ (∀ force, force ∈ forces (_out_system self) →
       out_force_object self (class_name force) = Some force).
Proof.
  intros Hret. pose proof (__init__cases system solute_region use_dispersion_correction) as H.
  rewrite Hret in H. destruct H as (_ & bonds & angles & torsions & og & nb & H).
  cbv zeta in H. destruct H as (_ & _ & _ & _ & _ & _ & ->).
  set (s0 := initial system solute_region use_dispersion_correction og).
  apply (constructed_refs (get_identifier s0) s0 bonds angles torsions nb); [done|done|].
  intros b Hb. cbn in Hb. by apply forces_by_name_lookup in Hb as [? _].
Qed.

(** X6. The dictionary [_out_system_forces] of a returned factory and the
    forces of its output system agree: every entry refers to a force of the
    output system whose class is the entry's key, and every force of the
    output system is the one the dictionary holds for its class.  So the
    output system has no two forces of a class. *)
Theorem out_system_forces_consistent system solute_region use_dispersion_correction self :
  __init__ system solute_region use_dispersion_correction = Returned self →
  (∀ name ref, _out_system_forces self !! name = Some ref →
     ∃ force, forces (_out_system self) !! ref = Some force ∧ class_name force = name)
  ∧ (∀ force, force ∈ forces (_out_system self) →
       out_force_object self (class_name force) = Some force)
  ∧ NoDup (class_name <$> forces (REST_system self)).
Proof.
  intros Hret. destruct (out_force_refs _ _ _ _ Hret) as [H1 H2].
  split; [exact H1|]. split; [exact H2|].
  apply Returned_inv in Hret as (bonds & angles & torsions & og & nb & H).
  cbv zeta in H.
  destruct H as (_ & _ & _ & _ & _ & _ & _ & _ & _ & _ & Hf & _).
  unfold REST_system. rewrite Hf. unfold copied_forces.
  destruct (forces_by_name system !! "MonteCarloBarostat") as [b|] eqn:E.
  - apply forces_by_name_lookup in E as [Hc _].
    cbn [app fmap list_fmap class_name]. rewrite Hc.
    repeat (apply NoDup_cons; split); try apply NoDup_nil_2;
      rewrite ?elem_of_cons, elem_of_nil; intros H;
      repeat destruct H as [H|H]; try discriminate H; done.
  - cbn [app fmap list_fmap class_name].
    repeat (apply NoDup_cons; split); try apply NoDup_nil_2;
      rewrite ?elem_of_cons, elem_of_nil; intros H;
      repeat destruct H as [H|H]; try discriminate H; done.
Qed.

Lemma out_system_forces_consistent_witness :
  ∃ self,
    __init__ system4 [0%Z; 1%Z] true = Returned self
    ∧ NoDup (class_name <$> forces (REST_system self)).
Proof.
  destruct system4_returns as [self E]. exists self. split; [exact E|].
  exact (proj2 (proj2 (out_system_forces_consistent system4 [0%Z; 1%Z] true self E))).
Defined.

(** X7. The barostat.  When the system has barostats, the output system
    starts with a copy of the last one, with its pressure, temperature and
    frequency, followed by the four rewritten forces; when it has none, the
    output system has the four rewritten forces only. *)
Theorem barostat_copied_first system solute_region use_dispersion_correction self :
  __init__ system solute_region use_dispersion_correction = Returned self →
  (∀ l1 barostat l2,
     forces system = l1 ++ barostat :: l2 →
     class_name barostat = "MonteCarloBarostat" →
     (∀ f, f ∈ l2 → class_name f ≠ "MonteCarloBarostat") →
     forces (REST_system self) !! 0%nat = Some barostat
     ∧ out_force_object self "MonteCarloBarostat" = Some barostat
     ∧ length (forces (REST_system self)) = 5%nat)
  ∧ ((∀ f, f ∈ forces system → class_name f ≠ "MonteCarloBarostat") →
     length (forces (REST_system self)) = 4%nat
     ∧ out_force_object self "MonteCarloBarostat" = None
     ∧ ∀ f, f ∈ forces (REST_system self) → class_name f ≠ "MonteCarloBarostat").
Proof.
  intros H.
  destruct (out_force_refs _ _ _ _ H) as [Href Hobj].
  apply Returned_inv in H as (bonds & angles & torsions & og & nb & H).
  cbv zeta in H.
  destruct H as (_ & _ & _ & _ & _ & _ & _ & _ & _ & _ & Hf & _).
  unfold REST_system. unfold copied_forces in Hf. split.
  - intros l1 barostat l2 Hsys Hc Hl2.
    pose proof (forces_by_name_last system l1 barostat l2 Hsys) as Hl.
    rewrite Hc in Hl. rewrite Hl in Hf by done.
    split; [rewrite Hf; reflexivity|]. split; [|rewrite Hf; reflexivity].
    rewrite <- Hc. apply Hobj. rewrite Hf. apply list_elem_of_here.
  - intros Hnone.
    destruct (forces_by_name system !! "MonteCarloBarostat") as [b|] eqn:E.
    { apply forces_by_name_lookup in E as [Hc Hin]. by destruct (Hnone b Hin). }
    assert (∀ f, f ∈ forces (_out_system self) → class_name f ≠ "MonteCarloBarostat")
      as Hout.
    { intros f Hin. rewrite Hf in Hin. apply list_elem_of_In in Hin. cbn in Hin.
      destruct Hin as [<- | [<- | [<- | [<- | []]]]]; discriminate. }
    split; [rewrite Hf; reflexivity|]. split; [|exact Hout].
    unfold out_force_object.
    destruct (_out_system_forces self !! "MonteCarloBarostat") as [ref|] eqn:Er; [|done].
    destruct (Href _ _ Er) as (force & Hforce & Hc).
    destruct (Hout force); [|done]. by eapply list_elem_of_lookup_2.
Qed.

Lemma barostat_copied_first_witness :
  ∃ self,
    __init__ system4 [0%Z; 1%Z] true = Returned self
    ∧ forces (REST_system self) !! 0%nat = Some (MonteCarloBarostat 1 300 50).
Proof.
  destruct system4_returns as [self E]. exists self. split; [exact E|].
  refine (proj1 (proj1 (barostat_copied_first system4 [0%Z; 1%Z] true self E)
                   [bonds4; HarmonicAngleForce [(0%Z, 1%Z, 2%Z, 2, 50)];
                    PeriodicTorsionForce [(0%Z, 1%Z, 2%Z, 3%Z, 3%Z, 0, 5)];
                    NonbondedForce nb4]
                   (MonteCarloBarostat 1 300 50) [] eq_refl eq_refl _)).
  intros f Hin. apply elem_of_nil in Hin. destruct Hin.
Defined.

(** ** The settings of the output's nonbonded force *)

Lemma settings_particle_offsets nb l :
  settings (foldl (λ nb o, addParticleParameterOffset o nb) nb l) = settings nb.
Proof. revert nb. induction l as [|o l IH]; intros nb; cbn; [done|by rewrite IH]. Qed.

Lemma settings_exception_offsets nb l :
  settings (foldl (λ nb o, addExceptionParameterOffset o nb) nb l) = settings nb.
Proof. revert nb. induction l as [|o l IH]; intros nb; cbn; [done|by rewrite IH]. Qed.

Lemma settings_particle_step id og i nb nb' :
  particle_step id og i nb = Some nb' → settings nb' = settings nb.
Proof.
  unfold particle_step. destruct (nbParticles og !! Z.to_nat i) as [p|]; [|done].
  cbn. intros [= <-]. by rewrite settings_particle_offsets.
Qed.

Lemma settings_exception_step id e nb : settings (exception_step id e nb) = settings nb.
Proof. unfold exception_step. by rewrite settings_exception_offsets. Qed.

Lemma settings_nonbonded_force id N method flag og nb :
  nonbonded_force id N method flag og = Some nb →
  settings nb = settings (configured method flag og).
Proof.
  unfold nonbonded_force.
  assert (∀ l c c', foldM (particle_step id og) l c = Some c' → settings c' = settings c)
    as Hp.
  { induction l as [|i l IH]; intros c c'; cbn; [by intros [= <-]|].
    destruct (particle_step id og i c) as [c1|] eqn:E; [|done]. cbn.
    intros H. rewrite (IH _ _ H). by eapply settings_particle_step. }
  assert (∀ l c, settings (foldl (λ nb e, exception_step id e nb) c l) = settings c) as He.
  { induction l as [|e l IH]; intros c; cbn; [done|].
    by rewrite IH, settings_exception_step. }
  destruct (foldM _ _ _) as [c|] eqn:E; [|done]. cbn. intros [= <-].
  rewrite He. by eapply Hp.
Qed.

Lemma Returned_settings system solute_region use_dispersion_correction self :
  __init__ system solute_region use_dispersion_correction = Returned self →
  ∃ og nb,
    og_nonbonded self = Some og ∧ out_nonbonded self = Some nb
    ∧ settings nb
      = settings (configured (nonbondedMethod og) use_dispersion_correction og).
Proof.
  intros H. apply Returned_forces in H as (b & a & t & og & nb & H). cbv zeta in H.
  destruct H as ((_ & _ & _ & Hog) & (_ & _ & _ & Hout) & Hnb & _).
  exists og, nb. split; [done|]. split; [done|]. by eapply settings_nonbonded_force.
Qed.

(** X8. The output's nonbonded force uses the long-range dispersion
    correction exactly when the original force uses it and the caller asked
    for it; with the argument left at its default [False] it is off whatever
    the original force says. *)
Theorem dispersion_correction_needs_both system solute_region
    use_dispersion_correction self :
  __init__ system solute_region use_dispersion_correction = Returned self →
  ∃ og nb,
    og_nonbonded self = Some og ∧ out_nonbonded self = Some nb
    ∧ useDispersionCorrection nb
      = useDispersionCorrection og && use_dispersion_correction
    ∧ (use_dispersion_correction = false → useDispersionCorrection nb = false).
Proof.
  intros H. apply Returned_settings in H as (og & nb & Hog & Hout & Hs).
  exists og, nb. split; [done|]. split; [done|].
  assert (useDispersionCorrection nb
          = useDispersionCorrection og && use_dispersion_correction) as Hd.
  { unfold settings in Hs. injection Hs as _ _ _ _ _ _ _ -> _. reflexivity. }
  split; [exact Hd|]. intros ->. rewrite Hd. apply andb_false_r.
Qed.

Lemma system4_default_flag_returns :
  ∃ self, __init__ system4 [0%Z; 1%Z] false = Returned self.
Proof. eexists. vm_compute. reflexivity. Qed.

Lemma dispersion_correction_needs_both_witness :
  ∃ self og nb,
    __init__ system4 [0%Z; 1%Z] false = Returned self
    ∧ og_nonbonded self = Some og ∧ out_nonbonded self = Some nb
    ∧ useDispersionCorrection nb = useDispersionCorrection og && false.
Proof.
  destruct system4_default_flag_returns as [self E].
  destruct (dispersion_correction_needs_both system4 [0%Z; 1%Z] false self E)
    as (og & nb & Hog & Hout & Hd & _).
  exists self, og, nb. split; [exact E|]. split; [exact Hog|]. split; [exact Hout|].
  exact Hd.
Defined.

(** X9. The output's nonbonded force has the method and the switching flag
    of the original one.  The switching distance is copied only when
    switching is on, the cutoff distance and the reaction-field dielectric
    only when the method is not [NoCutoff]; otherwise they stay at the values
    of a new [NonbondedForce]. *)
Theorem cutoff_settings_copied system solute_region use_dispersion_correction self :
  __init__ system solute_region use_dispersion_correction = Returned self →
  ∃ og nb,
    og_nonbonded self = Some og ∧ out_nonbonded self = Some nb
    ∧ nonbondedMethod nb = nonbondedMethod og
    ∧ useSwitchingFunction nb = useSwitchingFunction og
    ∧ switchingDistance nb
      = (if useSwitchingFunction og then switchingDistance og
         else switchingDistance new_NonbondedForce)
    ∧ (cutoffDistance nb, reactionFieldDielectric nb)
      = (if decide (nonbondedMethod og = NoCutoff)
         then (cutoffDistance new_NonbondedForce,
               reactionFieldDielectric new_NonbondedForce)
         else (cutoffDistance og, reactionFieldDielectric og)).
Proof.
  intros H. apply Returned_settings in H as (og & nb & Hog & Hout & Hs).
  exists og, nb. split; [done|]. split; [done|].
  unfold settings in Hs. injection Hs as Hm Hc Hsw Hsd Hrf _ _ _ _.
  rewrite Hm, Hc, Hsw, Hsd, Hrf. unfold configured.
  destruct (useSwitchingFunction og), (decide (nonbondedMethod og ≠ NoCutoff)) as [Hn|Hn],
    (bool_decide (nonbondedMethod og ∈ [PME; Ewald]));
    cbn; (repeat split);
    destruct (decide (nonbondedMethod og = NoCutoff)) as [He|He]; try done;
    by destruct Hn.
Qed.

Lemma cutoff_settings_copied_witness :
  ∃ self og nb,
    __init__ system4 [0%Z; 1%Z] true = Returned self
    ∧ og_nonbonded self = Some og ∧ out_nonbonded self = Some nb
    ∧ nonbondedMethod nb = nonbondedMethod og.
Proof.
  destruct system4_returns as [self E].
  destruct (cutoff_settings_copied system4 [0%Z; 1%Z] true self E)
    as (og & nb & Hog & Hout & Hm & _).
  exists self, og, nb. split; [exact E|]. split; [exact Hog|]. split; [exact Hout|].
  exact Hm.
Defined.

(** X10. The Ewald error tolerance and the PME parameters are copied only
    when the method is [PME] or [Ewald]; for any other method, [LJPME]
    included, the output's force keeps those of a new [NonbondedForce]. *)
Theorem ewald_settings_copied system solute_region use_dispersion_correction self :
  __init__ system solute_region use_dispersion_correction = Returned self →
  ∃ og nb,
    og_nonbonded self = Some og ∧ out_nonbonded self = Some nb
    ∧ (nonbondedMethod og = PME ∨ nonbondedMethod og = Ewald →
       pmeParameters nb = pmeParameters og
       ∧ ewaldErrorTolerance nb = ewaldErrorTolerance og)
    ∧ (nonbondedMethod og ≠ PME → nonbondedMethod og ≠ Ewald →
       pmeParameters nb = pmeParameters new_NonbondedForce
       ∧ ewaldErrorTolerance nb = ewaldErrorTolerance new_NonbondedForce).
Proof.
  intros H. apply Returned_settings in H as (og & nb & Hog & Hout & Hs).
  exists og, nb. split; [done|]. split; [done|].
  unfold settings in Hs. injection Hs as _ _ _ _ _ Het Hpme _ _.
  rewrite Het, Hpme. unfold configured.
  destruct (useSwitchingFunction og), (decide (nonbondedMethod og ≠ NoCutoff)),
    (nonbondedMethod og); cbn;
    (split;
     [intros [H|H]; try discriminate H; done
     |intros H1 H2; try done; first [by destruct H1|by destruct H2]]).
Qed.

Lemma ewald_settings_copied_witness :
  ∃ self og nb,
    __init__ system4 [0%Z; 1%Z] true = Returned self
    ∧ og_nonbonded self = Some og ∧ out_nonbonded self = Some nb
    ∧ (nonbondedMethod og = PME ∨ nonbondedMethod og = Ewald →
       pmeParameters nb = pmeParameters og
       ∧ ewaldErrorTolerance nb = ewaldErrorTolerance og).
Proof.
  destruct system4_returns as [self E].
  destruct (ewald_settings_copied system4 [0%Z; 1%Z] true self E)
    as (og & nb & Hog & Hout & Hp & _).
  exists self, og, nb. split; [exact E|]. split; [exact Hog|]. split; [exact Hout|].
  exact Hp.
Defined.

(** ** The particles and exceptions of the output's nonbonded force *)

Lemma Forall2_seqZ_lookup {X} (l ps : list X) (n : Z) :
  Forall2 (λ idx p, l !! Z.to_nat idx = Some p) (seqZ 0 n) ps →
  ps = take (Z.to_nat n) l.
Proof.
  intros HF. pose proof (Forall2_length _ _ _ HF) as Hlen. rewrite length_seqZ in Hlen.
  apply list_eq. intros i. destruct (decide (i < Z.to_nat n)%nat) as [Hi|Hi].
  - rewrite lookup_take_lt by done.
    assert (seqZ 0 n !! i = Some (Z.of_nat i)) as Hs by (apply lookup_seqZ; lia).
    destruct (Forall2_lookup_l _ _ _ _ _ HF Hs) as (p & Hp & Hl).
    rewrite Nat2Z.id in Hl. by rewrite Hp, Hl.
  - rewrite lookup_take_ge by lia. apply lookup_ge_None. lia.
Qed.

Lemma nonbonded_force_particles id N method flag og nb :
  nonbonded_force id N method flag og = Some nb →
  nbParticles nb = take (Z.to_nat N) (nbParticles og)
  ∧ length (nbParticles nb) = Z.to_nat N
  ∧ nbExceptions nb = nbExceptions og.
Proof.
  unfold nonbonded_force. intros Hnb.
  destruct (foldM _ _ _) as [nb1|] eqn:E; [|done]. cbn in Hnb. injection Hnb as <-.
  apply foldM_particle_step in E as (ps & HF & E1 & _ & E3 & _).
  destruct (foldl_exception_step id (nbExceptions og) nb1) as (F1 & _ & F3 & _).
  cbv zeta in F1, F3.
  destruct (configured_containers method flag og) as (C1 & _ & C3 & _).
  cbv zeta in C1, C3.
  pose proof (Forall2_length _ _ _ HF) as Hlen. rewrite length_seqZ in Hlen.
  apply Forall2_seqZ_lookup in HF.
  rewrite F1, F3, E1, E3, C1, C3. cbn [app]. by subst ps.
Qed.

(** X11. The output's nonbonded force has one particle per particle of the
    system, with the parameters of the original force in the same order (an
    original force with more particles than the system is cut short), and
    all the exceptions of the original force in the same order. *)
Theorem nonbonded_particles_copied system solute_region use_dispersion_correction self :
  __init__ system solute_region use_dispersion_correction = Returned self →
  ∃ og nb,
    og_nonbonded self = Some og ∧ out_nonbonded self = Some nb
    ∧ nbParticles nb = take (length (particleMasses system)) (nbParticles og)
    ∧ length (nbParticles nb) = length (particleMasses (REST_system self))
    ∧ nbExceptions nb = nbExceptions og.
Proof.
  intros H. apply Returned_inv in H as (b & a & t & og & nb & H). cbv zeta in H.
  destruct H as (_ & _ & _ & Hn & Hnb & Hog & _ & _ & _ & Hout & _ & Hm & _).
  exists og, nb. split; [unfold og_nonbonded; by rewrite Hog, Hn|]. split; [done|].
  apply nonbonded_force_particles in Hnb as (Hp & Hlen & He).
  unfold getNumParticles in Hp, Hlen. rewrite Nat2Z.id in Hp, Hlen.
  unfold REST_system. by rewrite Hm.
Qed.

Lemma nonbonded_particles_copied_witness :
  ∃ self og nb,
    __init__ system4 [0%Z; 1%Z] true = Returned self
    ∧ og_nonbonded self = Some og ∧ out_nonbonded self = Some nb
    ∧ nbParticles nb = take (length (particleMasses system4)) (nbParticles og).
Proof.
  destruct system4_returns as [self E].
  destruct (nonbonded_particles_copied system4 [0%Z; 1%Z] true self E)
    as (og & nb & Hog & Hout & Hp & _).
  exists self, og, nb. split; [exact E|]. split; [exact Hog|]. split; [exact Hout|].
  exact Hp.
Defined.

(** ** The context a simulation of the output system starts from *)

(** The parameters the barostat the constructor copies puts into a context. *)
Lemma barostat_parameters system (b : Force) :
  forces_by_name system !! "MonteCarloBarostat" = Some b →
  ∃ pressure temperature frequency,
    b = MonteCarloBarostat pressure temperature frequency
    ∧ force_global_parameters b
      = Some [("MonteCarloPressure", pressure); ("MonteCarloTemperature", temperature)].
Proof.
  intros Hb. apply forces_by_name_lookup in Hb as [Hc _].
  destruct b as [| | | |pressure temperature frequency| | | |[]]; try discriminate Hc.
  by exists pressure, temperature, frequency.
Qed.

Lemma nonbonded_force_globals id N method flag og nb :
  nonbonded_force id N method flag og = Some nb →
  nbGlobalParameters nb = [("electrostatic_scale", 0); ("steric_scale", 0)].
Proof.
  intros H. apply settings_nonbonded_force in H. unfold settings in H.
  destruct (configured_containers method flag og) as (_ & _ & _ & _ & Hg).
  cbv zeta in Hg. rewrite Hg in H. by injection H as _ _ _ _ _ _ _ _ ->.
Qed.

Lemma Returned_default_context system solute_region use_dispersion_correction self :
  __init__ system solute_region use_dispersion_correction = Returned self →
  default_context (REST_system self)
  = Some (match forces_by_name system !! "MonteCarloBarostat" with
          | Some (MonteCarloBarostat pressure temperature _) =>
              [("MonteCarloPressure", pressure); ("MonteCarloTemperature", temperature)]
          | _ => []
          end
          ++ [("solute_scale", 1); ("inter_scale", 1); ("solute_scale", 1);
              ("inter_scale", 1); ("solute_scale", 1); ("inter_scale", 1);
              ("electrostatic_scale", 0); ("steric_scale", 0)])
  ∧ _global_params self
    = ["solute_scale"; "inter_scale"; "solute_scale"; "inter_scale";
       "solute_scale"; "inter_scale"; "electrostatic_scale"; "steric_scale"].
Proof.
  intros Hret. pose proof (__init__cases system solute_region use_dispersion_correction) as H.
  rewrite Hret in H. destruct H as (_ & bonds & angles & torsions & og & nb & H).
  cbv zeta in H. destruct H as (_ & _ & _ & _ & _ & Hnb & ->).
  apply nonbonded_force_globals in Hnb. split; [|reflexivity].
  unfold default_context, REST_system. rewrite constructed_forces.
  cbn [initial _out_system new_System forces app _og_system_forces].
  unfold copied_forces.
  destruct (forces_by_name system !! "MonteCarloBarostat") as [b|] eqn:E.
  - destruct (barostat_parameters system b E) as (p & t & f & -> & Hb).
    cbn [app mapM force_global_parameters]. rewrite Hnb. reflexivity.
  - cbn [app mapM force_global_parameters]. rewrite Hnb. reflexivity.
Qed.

Lemma barostat_present system :
  "MonteCarloBarostat" ∈ class_name <$> forces system
  ↔ is_Some (forces_by_name system !! "MonteCarloBarostat").
Proof.
  rewrite <- elem_of_dom, dom_forces_by_name. by rewrite elem_of_list_to_set.
Qed.

Lemma lookup_var_is_Some name (ctx : env) :
  is_Some (lookup_var name ctx) ↔ name ∈ ctx.*1.
Proof.
  induction ctx as [|[y v] ctx IH]; cbn [lookup_var fmap list_fmap fst].
  - rewrite elem_of_nil. split; [by intros []|done].
  - rewrite elem_of_cons. destruct (String.eqb_spec name y) as [->|Hne].
    + split; [by left|by eexists].
    + rewrite IH. split; [by right|by intros [?|?]].
Qed.

Lemma dict_get_is_Some {X} name (d : list (string * X)) :
  is_Some (dict_get d name) ↔ name ∈ d.*1.
Proof.
  induction d as [|[y v] d IH]; cbn [dict_get fmap list_fmap fst].
  - rewrite elem_of_nil. split; [by intros []|done].
  - rewrite elem_of_cons. destruct (String.eqb_spec name y) as [->|Hne].
    + split; [by left|by eexists].
    + rewrite IH. split; [by right|by intros [?|?]].
Qed.

Lemma Returned_context system solute_region use_dispersion_correction self :
  __init__ system solute_region use_dispersion_correction = Returned self →
  ∃ ctx,
    default_context (REST_system self) = Some ctx
    ∧ at_reference ctx
    ∧ ctx.*1
      = (if bool_decide ("MonteCarloBarostat" ∈ class_name <$> forces system)
         then ["MonteCarloPressure"; "MonteCarloTemperature"] else [])
        ++ _global_params self
    ∧ (∀ pressure temperature frequency,
         forces_by_name system !! "MonteCarloBarostat"
         = Some (MonteCarloBarostat pressure temperature frequency) →
         lookup_var "MonteCarloPressure" ctx = Some pressure
         ∧ lookup_var "MonteCarloTemperature" ctx = Some temperature).
Proof.
  intros H. apply Returned_default_context in H as [Hctx ->].
  eexists. split; [exact Hctx|].
  pose proof (barostat_present system) as Hp.
  destruct (forces_by_name system !! "MonteCarloBarostat") as [b|] eqn:E.
  - destruct (barostat_parameters system b E) as (p & t & f & -> & _).
    rewrite bool_decide_eq_true_2 by (apply Hp; by eexists).
    split; [by repeat split|]. split; [reflexivity|].
    by intros pressure temperature frequency [= <- <- _].
  - rewrite bool_decide_eq_false_2 by (intros Hin; apply Hp in Hin; by destruct Hin).
    split; [by repeat split|]. split; [reflexivity|]. done.
Qed.

(** X12. A context created from the output system starts at the reference
    point: it holds [solute_scale = inter_scale = 1] and
    [steric_scale = electrostatic_scale = 0].  Besides these it holds the
    pressure and the temperature of the barostat, when the system has one, and
    nothing else; [_global_params] lists the names the rewritten forces
    declare, in the order of their declaration. *)
Theorem default_context_is_reference system solute_region use_dispersion_correction self :
  __init__ system solute_region use_dispersion_correction = Returned self →
  ∃ ctx,
    default_context (REST_system self) = Some ctx
    ∧ at_reference ctx
    ∧ ctx.*1
      = (if bool_decide ("MonteCarloBarostat" ∈ class_name <$> forces system)
         then ["MonteCarloPressure"; "MonteCarloTemperature"] else [])
        ++ _global_params self
    ∧ (∀ pressure temperature frequency,
         out_force_object self "MonteCarloBarostat"
         = Some (MonteCarloBarostat pressure temperature frequency) →
         lookup_var "MonteCarloPressure" ctx = Some pressure
         ∧ lookup_var "MonteCarloTemperature" ctx = Some temperature).
Proof.
  intros H. destruct (out_force_refs _ _ _ _ H) as [_ Hobj].
  pose proof (Returned_inv _ _ _ _ H) as (b0 & a0 & t0 & og0 & nb0 & Hinv).
  cbv zeta in Hinv.
  destruct Hinv as (_ & _ & _ & _ & _ & _ & _ & _ & _ & _ & Hf & _).
  destruct (Returned_context _ _ _ _ H) as (ctx & Hctx & Href & Hnames & Hbar).
  exists ctx. split; [exact Hctx|]. split; [exact Href|]. split; [exact Hnames|].
  intros pressure temperature frequency Hout. apply (Hbar _ _ frequency).
  unfold copied_forces in Hf.
  destruct (forces_by_name system !! "MonteCarloBarostat") as [b|] eqn:E.
  - assert (out_force_object self (class_name b) = Some b) as Hb.
    { apply Hobj. rewrite Hf. by left. }
    apply forces_by_name_lookup in E as [Hc _]. rewrite Hc, Hout in Hb. done.
  - exfalso. unfold out_force_object in Hout.
    destruct (_out_system_forces self !! "MonteCarloBarostat") as [ref|] eqn:Er;
      [|discriminate Hout].
    cbn in Hout. apply list_elem_of_lookup_2 in Hout. rewrite Hf in Hout.
    apply list_elem_of_In in Hout. cbn in Hout.
    destruct Hout as [Hd | [Hd | [Hd | [Hd | []]]]]; discriminate Hd.
Qed.

Lemma default_context_is_reference_witness :
  ∃ self ctx,
    __init__ system4 [0%Z; 1%Z] true = Returned self
    ∧ default_context (REST_system self) = Some ctx
    ∧ at_reference ctx.
Proof.
  destruct system4_returns as [self E].
  destruct (default_context_is_reference system4 [0%Z; 1%Z] true self E)
    as (ctx & Hctx & Href & _).
  exists self, ctx. split; [exact E|]. split; [exact Hctx|exact Href].
Defined.

(** ** The offsets of the output's nonbonded force *)

Lemma elem_of_concat_zip_with {X Y O} (f : X → Y → list O) (l : list X) (k : list Y) o :
  o ∈ concat (zip_with f l k) → ∃ x y, x ∈ l ∧ y ∈ k ∧ o ∈ f x y.
Proof.
  rewrite list_elem_of_In, in_concat. intros (os & Hos & Ho).
  apply list_elem_of_In, elem_of_zip_with in Hos as (x & y & -> & Hx & Hy).
  exists x, y. split; [done|]. split; [done|]. by apply list_elem_of_In.
Qed.

Lemma particle_offsets_names id idx p (o : offset) :
  o ∈ particle_offsets id idx p →
  o.1.1.1.1 ∈ ["electrostatic_scale"; "steric_scale"] ∧ o.1.1.1.2 = idx.
Proof.
  destruct p as [[q sigma] epsilon]. unfold particle_offsets.
  rewrite !list_elem_of_In. case_decide; cbn [In]; [done|].
  intros [<- | [<- | []]]; cbn [fst snd]; auto.
Qed.

Lemma exception_offsets_names id idx e (o : offset) :
  o ∈ exception_offsets id idx e →
  o.1.1.1.1 ∈ ["electrostatic_scale"; "steric_scale"] ∧ o.1.1.1.2 = idx.
Proof.
  destruct e as [[[[p1 p2] c] sigma] epsilon]. unfold exception_offsets.
  rewrite !list_elem_of_In. repeat case_decide; cbn [In]; try done;
    intros [<- | []]; cbn [fst snd]; auto.
Qed.

(** X13. Every parameter offset of the output's nonbonded force names a
    global parameter the force declares, and refers to a particle, or to an
    exception, the force has. *)
Theorem offsets_are_well_formed system solute_region use_dispersion_correction self :
  __init__ system solute_region use_dispersion_correction = Returned self →
  ∃ nb,
    out_nonbonded self = Some nb
    ∧ (∀ o : offset, o ∈ particleOffsets nb →
         o.1.1.1.1 ∈ (nbGlobalParameters nb).*1
         ∧ (0 ≤ o.1.1.1.2 < Z.of_nat (length (nbParticles nb)))%Z)
    ∧ (∀ o : offset, o ∈ exceptionOffsets nb →
         o.1.1.1.1 ∈ (nbGlobalParameters nb).*1
         ∧ (0 ≤ o.1.1.1.2 < Z.of_nat (length (nbExceptions nb)))%Z).
Proof.
  intros H. apply Returned_forces in H as (bonds & angles & torsions & og & nb & H).
  cbv zeta in H. destruct H as (_ & (_ & _ & _ & Hout) & Hnb & _).
  exists nb. split; [done|].
  rewrite (nonbonded_force_globals _ _ _ _ _ _ Hnb).
  destruct (nonbonded_force_particles _ _ _ _ _ _ Hnb) as (_ & Hlen & Hexc).
  apply nonbonded_force_containers in Hnb as ((ps & _ & Hpo) & _ & _ & Heo & _).
  change ([("electrostatic_scale", 0); ("steric_scale", 0)].*1)
    with ["electrostatic_scale"; "steric_scale"].
  split.
  - intros o Ho. rewrite Hpo in Ho.
    apply elem_of_concat_zip_with in Ho as (i & p & Hi & _ & Ho).
    apply particle_offsets_names in Ho as [Hname ->]. split; [done|].
    apply elem_of_seqZ in Hi. rewrite Hlen. lia.
  - intros o Ho. rewrite Heo in Ho.
    apply elem_of_concat_zip_with in Ho as (j & e & Hj & _ & Ho).
    apply exception_offsets_names in Ho as [Hname ->]. split; [done|].
    apply elem_of_seqZ in Hj. rewrite Hexc. lia.
Qed.

Lemma offsets_are_well_formed_witness :
  ∃ self nb,
    __init__ system4 [0%Z; 1%Z] true = Returned self
    ∧ out_nonbonded self = Some nb
    ∧ ∀ o : offset, o ∈ particleOffsets nb →
        o.1.1.1.1 ∈ (nbGlobalParameters nb).*1
        ∧ (0 ≤ o.1.1.1.2 < Z.of_nat (length (nbParticles nb)))%Z.
Proof.
  destruct system4_returns as [self E].
  destruct (offsets_are_well_formed system4 [0%Z; 1%Z] true self E)
    as (nb & Hout & Hp & _).
  exists self, nb. split; [exact E|]. split; [exact Hout|exact Hp].
Defined.

(** ** The protocol between its end points *)

Lemma spec_temperature_symmetric T_min T_max lambda :
  spec_temperature T_min T_max (1 - lambda) = spec_temperature T_min T_max lambda.
Proof.
  unfold spec_temperature.
  destruct (Rle_dec (1 - lambda) 0.5), (Rle_dec lambda 0.5).
  - by replace lambda with 0.5 by lra; replace (1 - 0.5) with 0.5 by lra.
  - done.
  - by replace (1 - (1 - lambda)) with lambda by lra.
  - lra.
Qed.

(** The values of the four entries, by the temperature. *)
Lemma protocol_values self T_min T_max lambda d :
  get_protocol self T_min T_max = inr d →
  let ratio := if Req_EM_T (spec_temperature T_min T_max lambda) 0 then None
               else Some (T_min / spec_temperature T_min T_max lambda) in
  let root := x ← ratio; if Rlt_dec x 0 then None else Some (sqrt x) in
  protocol_value d "solute_scale" lambda = ratio
  ∧ protocol_value d "inter_scale" lambda = root
  ∧ protocol_value d "steric_scale" lambda = (x ← ratio; Some (x - 1))
  ∧ protocol_value d "electrostatic_scale" lambda = (x ← root; Some (x - 1))
  ∧ ∀ name, name ∉ ["solute_scale"; "inter_scale"; "steric_scale"; "electrostatic_scale"] →
            protocol_value d name lambda = None.
Proof.
  intros [= <-]. cbv zeta. rewrite <- ratio_eval.
  unfold protocol_value. cbn [dict_get String.eqb Ascii.eqb Bool.eqb mbind option_bind].
  change (eval ?rho (Sqrt ?a))
    with (x ← eval rho a; if Rlt_dec x 0 then None else Some (sqrt x)).
  change (eval ?rho (Sub ?a ?b))
    with (x ← eval rho a; y ← eval rho b; Some (x - y)).
  change (eval ?rho (Sqrt ?a))
    with (x ← eval rho a; if Rlt_dec x 0 then None else Some (sqrt x)).
  split; [done|]. split; [done|].
  split; [by destruct (eval _ (Div _ _))|].
  split; [destruct (eval _ (Div _ _)) as [x|]; [|done]; cbn; by destruct (Rlt_dec x 0)|].
  intros name Hname. rewrite !not_elem_of_cons in Hname.
  destruct Hname as (H1 & H2 & H3 & H4 & _).
  apply String.eqb_neq in H1, H2, H3, H4. by rewrite H1, H2, H3, H4.
Qed.

(** X14. Every entry of the protocol has the same value at [lambda] and at
    [1 - lambda], for every real lambda: the protocol heats up to the middle
    and cools down the same way. *)
Theorem protocol_symmetric self T_min T_max d name lambda :
  get_protocol self T_min T_max = inr d →
  protocol_value d name (1 - lambda) = protocol_value d name lambda.
Proof.
  intros Hd.
  destruct (protocol_values self T_min T_max lambda d Hd) as (A1 & A2 & A3 & A4 & A5).
  destruct (protocol_values self T_min T_max (1 - lambda) d Hd)
    as (B1 & B2 & B3 & B4 & B5).
  cbv zeta in *. rewrite spec_temperature_symmetric in B1, B2, B3, B4.
  destruct (decide (name ∈ ["solute_scale"; "inter_scale"; "steric_scale";
                            "electrostatic_scale"])) as [Hin|Hin].
  - rewrite !elem_of_cons, elem_of_nil in Hin.
    destruct Hin as [-> | [-> | [-> | [-> | []]]]]; congruence.
  - by rewrite A5, B5.
Qed.

Lemma protocol_symmetric_witness :
  ∃ d, get_protocol factory4 300 1200 = inr d
       ∧ protocol_value d "solute_scale" (1 - 1 / 4)
         = protocol_value d "solute_scale" (1 / 4).
Proof.
  exists (match get_protocol factory4 300 1200 with inr d => d | inl _ => [] end).
  split; [reflexivity|].
  exact (protocol_symmetric factory4 300 1200 _ "solute_scale" (1 / 4) eq_refl).
Defined.

Lemma ramp_bounds (T_min T_max x : R) :
  T_min <= T_max → 0 <= x <= 0.5 → T_min <= ramp T_min T_max x <= T_max.
Proof.
  intros HT [H0 H1]. unfold ramp.
  assert (0 < exp 1 - 1) as He by (pose proof (exp_ineq1 1); lra).
  assert (1 <= exp (2 * x)) as Hl.
  { rewrite <- exp_0. destruct (Req_dec (2 * x) 0) as [->|]; [lra|].
    left. apply exp_increasing. lra. }
  assert (exp (2 * x) <= exp 1) as Hu.
  { destruct (Req_dec (2 * x) 1) as [->|]; [lra|]. left. apply exp_increasing. lra. }
  set (u := (exp (2 * x) - 1) / (exp 1 - 1)).
  assert (0 <= u <= 1) as [Hu0 Hu1].
  { unfold u. split.
    - apply Rmult_le_pos; [lra|]. left. by apply Rinv_0_lt_compat.
    - apply (Rmult_le_reg_r (exp 1 - 1)); [done|]. unfold Rdiv.
      rewrite Rmult_assoc, Rinv_l by lra. lra. }
  replace ((T_max - T_min) * (exp (2 * x) - 1) / (exp 1 - 1))
    with ((T_max - T_min) * u) by (unfold u, Rdiv; ring).
  nra.
Qed.

Lemma spec_temperature_bounds (T_min T_max lambda : R) :
  T_min <= T_max → 0 <= lambda <= 1 →
  T_min <= spec_temperature T_min T_max lambda <= T_max.
Proof.
  intros HT Hl. unfold spec_temperature.
  destruct (Rle_dec lambda 0.5); apply ramp_bounds; lra.
Qed.

(** X15. For [0 < T_min <= T_max] and lambda between 0 and 1 the protocol
    stays within its end points: the temperature lies between [T_min] and
    [T_max], [solute_scale] between [T_min / T_max] and 1, [inter_scale] is
    its positive square root, and [steric_scale] and [electrostatic_scale]
    are those two less 1, hence in (-1, 0]. *)
Theorem protocol_within_bounds self (T_min T_max lambda : R) d :
  0 < T_min → T_min <= T_max → 0 <= lambda <= 1 →
  get_protocol self T_min T_max = inr d →
  ∃ T solute inter,
    eval [("lambda", lambda)] (temperature_expression T_min T_max) = Some T
    ∧ T_min <= T <= T_max
    ∧ protocol_value d "solute_scale" lambda = Some solute
    ∧ protocol_value d "inter_scale" lambda = Some inter
    ∧ protocol_value d "steric_scale" lambda = Some (solute - 1)
    ∧ protocol_value d "electrostatic_scale" lambda = Some (inter - 1)
    ∧ solute = T_min / T
    ∧ T_min / T_max <= solute <= 1
    ∧ inter * inter = solute
    ∧ 0 < inter <= 1.
Proof.
  intros Hpos HT Hl Hd.
  destruct (protocol_values self T_min T_max lambda d Hd) as (A1 & A2 & A3 & A4 & _).
  cbv zeta in *.
  pose proof (spec_temperature_bounds T_min T_max lambda HT Hl) as [HT1 HT2].
  set (T := spec_temperature T_min T_max lambda) in *.
  destruct (Req_EM_T T 0) as [E|_]; [lra|]. cbn in A2, A3, A4.
  assert (0 < T) as HTpos by lra.
  assert (0 < T_min / T) as Hr0 by (by apply Rdiv_lt_0_compat).
  assert (T_min / T <= 1) as Hr1.
  { apply (Rmult_le_reg_r T); [done|]. unfold Rdiv.
    rewrite Rmult_assoc, Rinv_l by lra. lra. }
  assert (T_min / T_max <= T_min / T) as Hr2.
  { unfold Rdiv. apply Rmult_le_compat_l; [lra|]. apply Rinv_le_contravar; lra. }
  destruct (Rlt_dec (T_min / T) 0) as [?|_]; [lra|]. cbn in A4.
  exists T, (T_min / T), (sqrt (T_min / T)).
  split; [apply temperature_expression_eval|].
  split; [done|]. split; [done|]. split; [done|]. split; [done|]. split; [done|].
  split; [done|]. split; [done|].
  split; [apply sqrt_sqrt; lra|]. split; [by apply sqrt_lt_R0|].
  rewrite <- sqrt_1. apply sqrt_le_1_alt. exact Hr1.
Qed.

Lemma protocol_within_bounds_witness :
  0 < 300 ∧ 300 <= 1200 ∧ 0 <= 1 / 4 <= 1
  ∧ ∃ d, get_protocol factory4 300 1200 = inr d
    ∧ ∃ solute, protocol_value d "solute_scale" (1 / 4) = Some solute
                ∧ 300 / 1200 <= solute <= 1.
Proof.
  assert (0 < 300) as H1 by lra. assert (300 <= 1200) as H2 by lra.
  assert (0 <= 1 / 4 <= 1) as H3 by lra.
  split; [exact H1|]. split; [exact H2|]. split; [exact H3|].
  exists (match get_protocol factory4 300 1200 with inr d => d | inl _ => [] end).
  split; [reflexivity|].
  destruct (protocol_within_bounds factory4 300 1200 (1 / 4) _ H1 H2 H3 eq_refl)
    as (T & solute & inter & _ & _ & Hs & _ & _ & _ & _ & Hb & _).
  exists solute. split; [exact Hs|exact Hb].
Defined.

(** ** [get_identifier] off the beaten track *)

Lemma forallb_same_elements {X} (f : X → bool) (l l' : list X) :
  (∀ x, x ∈ l ↔ x ∈ l') → forallb f l = forallb f l'.
Proof.
  intros H. apply Bool.eq_iff_eq_true. rewrite !forallb_forall.
  split; intros Hf x Hx; apply Hf; apply list_elem_of_In, H, list_elem_of_In, Hx.
Qed.

Lemma get_identifier_stray system self l x :
  (∀ y, y ∈ _solvent_region self → valid_index system y) →
  (∀ y, y ∈ _solute_region self → valid_index system y) →
  x ∈ l → ¬ valid_index system x → get_identifier self (Many l) = 2%Z.
Proof.
  intros Hv Hu Hx Hn. cbn [get_identifier].
  assert (∀ (region : list Z), (∀ y, y ∈ region → valid_index system y) →
            forallb (λ y, bool_decide (y ∈ region)) l = false) as Hf.
  { intros region Hr. apply not_true_is_false. rewrite forallb_bool_decide, Forall_forall.
    intros Hall. apply Hn, Hr, Hall, Hx. }
  by rewrite (Hf _ Hv), (Hf _ Hu).
Qed.

(** X16. What [get_identifier] does outside the cases the rewriting meets.
    The empty list is classified solvent (1).  A list is classified by the
    set of its elements: order and repetitions do not matter.  For an index of
    the system the one-element list and the bare integer agree; for an index
    outside the system the bare integer is solvent (1) while every list that
    holds it is inter (2). *)
Theorem get_identifier_edge_cases system solute_region use_dispersion_correction self :
  __init__ system solute_region use_dispersion_correction = Returned self →
  get_identifier self (Many []) = 1%Z
  ∧ (∀ l l', (∀ x, x ∈ l ↔ x ∈ l') →
             get_identifier self (Many l) = get_identifier self (Many l'))
  ∧ (∀ p, valid_index system p →
          get_identifier self (Many [p]) = get_identifier self (Single p))
  ∧ (∀ p, ¬ valid_index system p →
          get_identifier self (Single p) = 1%Z
          ∧ ∀ l, p ∈ l → get_identifier self (Many l) = 2%Z).
Proof.
  intros H. apply Returned_inv in H as (bonds & angles & torsions & og & nb & H).
  cbv zeta in H.
  destruct H as (_ & _ & _ & _ & _ & _ & _ & _ & _ & _ & _ & _ & _ & _ & Hsolute
                 & Hsolvent & Hregion & _).
  split; [reflexivity|]. split; [|split].
  - intros l l' Hl. cbn [get_identifier].
    by rewrite (forallb_same_elements _ l l' Hl),
         (forallb_same_elements (λ x, bool_decide (x ∈ _solute_region self)) l l' Hl).
  - intros p Hp. cbn [get_identifier forallb]. rewrite !andb_true_r, Hsolute.
    destruct (decide (p ∈ solute_region)) as [Hin|Hin].
    + rewrite (bool_decide_eq_true_2 _ Hin).
      rewrite bool_decide_eq_false_2; [done|]. rewrite Hsolvent. tauto.
    + rewrite (bool_decide_eq_false_2 _ Hin).
      rewrite bool_decide_eq_true_2; [done|]. rewrite Hsolvent. tauto.
  - intros p Hp. split.
    + cbn [get_identifier]. rewrite Hsolute.
      rewrite bool_decide_eq_false_2; [done|]. intros Hin. by apply Hp, Hregion.
    + intros l Hl. apply (get_identifier_stray system self l p); [| |done|done].
      * intros y Hy. by apply Hsolvent in Hy as [? _].
      * rewrite Hsolute. exact Hregion.
Qed.

Lemma get_identifier_edge_cases_witness :
  ∃ self,
    __init__ system4 [0%Z; 1%Z] true = Returned self
    ∧ get_identifier self (Many [0%Z; 1%Z; 0%Z]) = get_identifier self (Many [1%Z; 0%Z]).
Proof.
  destruct system4_returns as [self E]. exists self. split; [exact E|].
  refine (proj1 (proj2 (get_identifier_edge_cases system4 [0%Z; 1%Z] true self E))
            [0%Z; 1%Z; 0%Z] [1%Z; 0%Z] _).
  intros x. rewrite !elem_of_cons, elem_of_nil. tauto.
Defined.

(** ** Terms over particles the system does not have *)

(** X17. The constructor does not check the particles of the bonded terms:
    a bond, angle or torsion that mentions an index outside the system is
    copied like any other, and is classified inter (2) whatever the solute
    region. *)
Theorem out_of_range_terms_are_inter system solute_region use_dispersion_correction self :
  __init__ system solute_region use_dispersion_correction = Returned self →
  ∃ bonds angles torsions B A T,
    (og_bonds self = Some bonds ∧ og_angles self = Some angles
     ∧ og_torsions self = Some torsions)
    ∧ (out_bond_force self = Some B ∧ out_angle_force self = Some A
       ∧ out_torsion_force self = Some T)
    ∧ (∀ i p1 p2 length k,
         bonds !! i = Some (p1, p2, length, k) →
         (∃ p, p ∈ [p1; p2] ∧ ¬ valid_index system p) →
         terms B !! i = Some ((p1, p2), [length; k; 2]))
    ∧ (∀ i p1 p2 p3 theta0 k,
         angles !! i = Some (p1, p2, p3, theta0, k) →
         (∃ p, p ∈ [p1; p2; p3] ∧ ¬ valid_index system p) →
         terms A !! i = Some ((p1, p2, p3), [theta0; k; 2]))
    ∧ (∀ i p1 p2 p3 p4 per phase k,
         torsions !! i = Some (p1, p2, p3, p4, per, phase, k) →
         (∃ p, p ∈ [p1; p2; p3; p4] ∧ ¬ valid_index system p) →
         terms T !! i = Some ((p1, p2, p3, p4), [IZR per; phase; k; 2])).
Proof.
  intros H.
  pose proof (Returned_inv _ _ _ _ H) as (b0 & a0 & t0 & og0 & nb0 & Hinv).
  cbv zeta in Hinv.
  destruct Hinv as (_ & _ & _ & _ & _ & _ & _ & _ & _ & _ & _ & _ & _ & _ & Hsolute
                    & Hsolvent & Hregion & _).
  assert (∀ l p, p ∈ l → ¬ valid_index system p → get_identifier self (Many l) = 2%Z)
    as Hstray.
  { intros l p Hp Hn. apply (get_identifier_stray system self l p); [| |done|done].
    - intros y Hy. by apply Hsolvent in Hy as [? _].
    - rewrite Hsolute. exact Hregion. }
  apply Returned_forces in H as (bonds & angles & torsions & og & nb & H).
  cbv zeta in H. destruct H as ((Hb & Ha & Ht & _) & (Ob & Oa & Ot & _) & _).
  exists bonds, angles, torsions, (bond_force (get_identifier self) bonds),
    (angle_force (get_identifier self) angles),
    (torsion_force (get_identifier self) torsions).
  split; [done|]. split; [done|]. split; [|split].
  - intros i p1 p2 length k Hl (p & Hp & Hn).
    cbn [bond_force terms]. rewrite list_lookup_fmap, Hl. cbn [fmap option_fmap option_map bond].
    by rewrite (Hstray _ p Hp Hn).
  - intros i p1 p2 p3 theta0 k Hl (p & Hp & Hn).
    cbn [angle_force terms]. rewrite list_lookup_fmap, Hl. cbn [fmap option_fmap option_map angle].
    by rewrite (Hstray _ p Hp Hn).
  - intros i p1 p2 p3 p4 per phase k Hl (p & Hp & Hn).
    cbn [torsion_force terms]. rewrite list_lookup_fmap, Hl.
    cbn [fmap option_fmap option_map torsion].
    by rewrite (Hstray _ p Hp Hn).
Qed.

Lemma system4_stray_bond_returns :
  ∃ self, __init__ system4_stray_bond [0%Z; 1%Z] true = Returned self.
Proof. eexists. vm_compute. reflexivity. Qed.

Lemma out_of_range_terms_are_inter_witness :
  ∃ self bonds B,
    __init__ system4_stray_bond [0%Z; 1%Z] true = Returned self
    ∧ og_bonds self = Some bonds ∧ out_bond_force self = Some B
    ∧ ∀ i p1 p2 length k,
        bonds !! i = Some (p1, p2, length, k) →
        (∃ p, p ∈ [p1; p2] ∧ ¬ valid_index system4_stray_bond p) →
        terms B !! i = Some ((p1, p2), [length; k; 2]).
Proof.
  destruct system4_stray_bond_returns as [self E].
  destruct (out_of_range_terms_are_inter system4_stray_bond [0%Z; 1%Z] true self E)
    as (bonds & angles & torsions & B & A & T & (Hb & _) & (Ob & _) & Hs & _).
  exists self, bonds, B. split; [exact E|]. split; [exact Hb|]. split; [exact Ob|].
  exact Hs.
Defined.

(** ** The nonbonded parameters away from the reference point *)

Lemma particle_parameters_scaled id i q sigma epsilon offs ctx e s :
  lookup_var "electrostatic_scale" ctx = Some e →
  lookup_var "steric_scale" ctx = Some s →
  offsets_of i offs = particle_offsets id i (q, sigma, epsilon) →
  effective_parameters ctx (q, sigma, epsilon) i offs
  = Some (if decide (id (Single i) = 1%Z) then (q, sigma, epsilon)
          else (q * (1 + e), sigma, epsilon * (1 + s))).
Proof.
  intros He Hs Hoffs. unfold effective_parameters. rewrite Hoffs.
  unfold particle_offsets. case_decide; cbn [offsets_total]; rewrite ?He, ?Hs; cbn.
  - do 2 f_equal; [f_equal|]; lra.
  - do 2 f_equal; [f_equal|]; lra.
Qed.

Lemma exception_parameters_scaled id j p1 p2 chargeProd sigma epsilon offs ctx e s :
  lookup_var "electrostatic_scale" ctx = Some e →
  lookup_var "steric_scale" ctx = Some s →
  offsets_of j offs = exception_offsets id j (p1, p2, chargeProd, sigma, epsilon) →
  effective_parameters ctx (chargeProd, sigma, epsilon) j offs
  = Some (if decide (id (Many [p1; p2]) = 1%Z) then (chargeProd, sigma, epsilon)
          else if decide (id (Many [p1; p2]) = 0%Z)
               then (chargeProd * (1 + s), sigma, epsilon * (1 + s))
          else if decide (id (Many [p1; p2]) = 2%Z)
               then (chargeProd * (1 + e), sigma, epsilon * (1 + e))
          else (chargeProd, sigma, epsilon)).
Proof.
  intros He Hs Hoffs. unfold effective_parameters. rewrite Hoffs.
  unfold exception_offsets.
  repeat case_decide; cbn [offsets_total]; rewrite ?He, ?Hs; cbn;
    do 2 f_equal; try f_equal; lra.
Qed.

(** X18. In any context, a solvent particle of the output system has its
    original charge, sigma and epsilon, and a solute particle has its charge
    times [1 + electrostatic_scale], its sigma, and its epsilon times
    [1 + steric_scale]. *)
Theorem particle_parameters_in_context system solute_region use_dispersion_correction
    self ctx e s :
  __init__ system solute_region use_dispersion_correction = Returned self →
  lookup_var "electrostatic_scale" ctx = Some e →
  lookup_var "steric_scale" ctx = Some s →
  ∃ og nb,
    og_nonbonded self = Some og ∧ out_nonbonded self = Some nb
    ∧ ∀ i q sigma epsilon,
        valid_index system i →
        nbParticles og !! Z.to_nat i = Some (q, sigma, epsilon) →
        (i ∈ solute_region →
         particle_parameters nb ctx i = Some (q * (1 + e), sigma, epsilon * (1 + s)))
        ∧ (i ∉ solute_region →
           particle_parameters nb ctx i = Some (q, sigma, epsilon)).
Proof.
  intros H He Hs.
  pose proof (Returned_inv _ _ _ _ H) as (b0 & a0 & t0 & og0 & nb0 & Hinv).
  cbv zeta in Hinv.
  destruct Hinv as (_ & _ & _ & _ & _ & _ & _ & _ & _ & _ & _ & _ & _ & _ & Hsolute & _).
  apply Returned_forces in H as (bonds & angles & torsions & og & nb & H).
  cbv zeta in H. destruct H as ((_ & _ & _ & Hog) & (_ & _ & _ & Hout) & Hnb & _).
  apply nonbonded_force_containers in Hnb as (_ & Hp & _).
  exists og, nb. split; [done|]. split; [done|].
  intros i q sigma epsilon Hi Hl. destruct (Hp i _ Hi Hl) as [Hl' Hoffs].
  unfold particle_parameters. rewrite Hl', option_bind_Some.
  rewrite (particle_parameters_scaled _ _ _ _ _ _ _ _ _ He Hs Hoffs).
  cbn [get_identifier]. rewrite Hsolute. split; intros Hin.
  - by rewrite (bool_decide_eq_true_2 _ Hin).
  - by rewrite (bool_decide_eq_false_2 _ Hin).
Qed.

(** X19. In any context, an exception of the output system between two
    solvent particles has its original parameters; one between two solute
    particles has its charge product and its epsilon times [1 + steric_scale];
    one between a solute and a solvent particle has both times
    [1 + electrostatic_scale]; sigma is never changed. *)
Theorem exception_parameters_in_context system solute_region use_dispersion_correction
    self ctx e s :
  __init__ system solute_region use_dispersion_correction = Returned self →
  lookup_var "electrostatic_scale" ctx = Some e →
  lookup_var "steric_scale" ctx = Some s →
  ∃ og nb,
    og_nonbonded self = Some og ∧ out_nonbonded self = Some nb
    ∧ ∀ j p1 p2 chargeProd sigma epsilon,
        nbExceptions og !! j = Some (p1, p2, chargeProd, sigma, epsilon) →
        let identifier := get_identifier self (Many [p1; p2]) in
        exception_parameters nb ctx (Z.of_nat j)
        = Some (if decide (identifier = 1%Z) then (chargeProd, sigma, epsilon)
                else if decide (identifier = 0%Z)
                     then (chargeProd * (1 + s), sigma, epsilon * (1 + s))
                else (chargeProd * (1 + e), sigma, epsilon * (1 + e))).
Proof.
  intros H He Hs.
  apply Returned_forces in H as (bonds & angles & torsions & og & nb & H).
  cbv zeta in H. destruct H as ((_ & _ & _ & Hog) & (_ & _ & _ & Hout) & Hnb & _).
  apply nonbonded_force_containers in Hnb as (_ & _ & Hexc & _ & Heo).
  exists og, nb. split; [done|]. split; [done|].
  intros j p1 p2 chargeProd sigma epsilon Hl. cbv zeta.
  unfold exception_parameters. rewrite Hexc, Nat2Z.id, Hl, option_bind_Some.
  rewrite (exception_parameters_scaled _ _ _ _ _ _ _ _ _ _ _ He Hs (Heo _ _ Hl)).
  destruct (get_identifier_range self (Many [p1; p2])) as [-> | [-> | ->]]; done.
Qed.

Lemma particle_parameters_in_context_witness :
  ∃ self,
    __init__ system4 [0%Z; 1%Z] true = Returned self
    ∧ lookup_var "electrostatic_scale"
        [("electrostatic_scale", -1 / 2); ("steric_scale", -3 / 4)] = Some (-1 / 2)
    ∧ lookup_var "steric_scale"
        [("electrostatic_scale", -1 / 2); ("steric_scale", -3 / 4)] = Some (-3 / 4)
    ∧ ∃ og nb, og_nonbonded self = Some og ∧ out_nonbonded self = Some nb.
Proof.
  destruct system4_returns as [self E]. exists self.
  split; [exact E|]. split; [reflexivity|]. split; [reflexivity|].
  destruct (particle_parameters_in_context system4 [0%Z; 1%Z] true self
              [("electrostatic_scale", -1 / 2); ("steric_scale", -3 / 4)]
              (-1 / 2) (-3 / 4) E eq_refl eq_refl) as (og & nb & Hog & Hout & _).
  exists og, nb. split; [exact Hog|exact Hout].
Defined.

Lemma exception_parameters_in_context_witness :
  ∃ self,
    __init__ system4 [0%Z; 1%Z] true = Returned self
    ∧ lookup_var "electrostatic_scale"
        [("electrostatic_scale", -1 / 2); ("steric_scale", -3 / 4)] = Some (-1 / 2)
    ∧ lookup_var "steric_scale"
        [("electrostatic_scale", -1 / 2); ("steric_scale", -3 / 4)] = Some (-3 / 4)
    ∧ ∃ og nb, og_nonbonded self = Some og ∧ out_nonbonded self = Some nb.
Proof.
  destruct system4_returns as [self E]. exists self.
  split; [exact E|]. split; [reflexivity|]. split; [reflexivity|].
  destruct (exception_parameters_in_context system4 [0%Z; 1%Z] true self
              [("electrostatic_scale", -1 / 2); ("steric_scale", -3 / 4)]
              (-1 / 2) (-3 / 4) E eq_refl eq_refl) as (og & nb & Hog & Hout & _).
  exists og, nb. split; [exact Hog|exact Hout].
Defined.

(** X20. The dictionary [get_protocol] returns has one entry for each
    global parameter the rewritten forces declare and no other: its keys are
    the names in [_global_params].  A context of the output system holds these
    names and, when the system has a barostat, the pressure and the
    temperature of the barostat, for which the dictionary has no entry. *)
Theorem protocol_covers_global_parameters system solute_region use_dispersion_correction
    self (T_min T_max : R) d :
  __init__ system solute_region use_dispersion_correction = Returned self →
  get_protocol self T_min T_max = inr d →
  NoDup d.*1
  ∧ (∀ name, name ∈ d.*1 ↔ name ∈ _global_params self)
  ∧ ∃ ctx,
      default_context (REST_system self) = Some ctx
      ∧ ∀ name,
          is_Some (lookup_var name ctx)
          ↔ is_Some (dict_get d name)
            ∨ (name ∈ ["MonteCarloPressure"; "MonteCarloTemperature"]
               ∧ "MonteCarloBarostat" ∈ class_name <$> forces system).
Proof.
  intros H [= <-].
  destruct (Returned_context _ _ _ _ H) as (ctx & Hctx & _ & Hnames & _).
  apply Returned_default_context in H as [_ Hgp].
  assert (∀ name,
            name ∈ [("solute_scale", Div (Num T_min) (temperature_expression T_min T_max));
                    ("inter_scale",
                     Sqrt (Div (Num T_min) (temperature_expression T_min T_max)));
                    ("steric_scale",
                     Sub (Div (Num T_min) (temperature_expression T_min T_max)) (Num 1));
                    ("electrostatic_scale",
                     Sub (Sqrt (Div (Num T_min) (temperature_expression T_min T_max)))
                         (Num 1))].*1
            ↔ name ∈ _global_params self) as Hkeys.
  { intros name. rewrite Hgp. cbn [fmap list_fmap fst].
    rewrite !list_elem_of_In. cbn [In]. tauto. }
  split; [|split; [exact Hkeys|]].
  - cbn [fmap list_fmap fst].
    repeat (apply NoDup_cons; split); try apply NoDup_nil_2;
      rewrite !list_elem_of_In; cbn [In]; intros Hin;
      repeat destruct Hin as [Hin|Hin]; try discriminate Hin; done.
  - exists ctx. split; [exact Hctx|]. intros name.
    rewrite lookup_var_is_Some, dict_get_is_Some, Hnames, elem_of_app, Hkeys.
    case_bool_decide as Hb.
    + tauto.
    + rewrite elem_of_nil. tauto.
Qed.

Lemma protocol_covers_global_parameters_witness :
  ∃ self d,
    __init__ system4 [0%Z; 1%Z] true = Returned self
    ∧ get_protocol self 300 1200 = inr d
    ∧ NoDup d.*1.
Proof.
  destruct system4_returns as [self E]. eexists self, _.
  split; [exact E|]. split; [reflexivity|].
  exact (proj1 (protocol_covers_global_parameters system4 [0%Z; 1%Z] true self
                  300 1200 _ E eq_refl)).
Defined.

(** ** The protocol applied to the output system *)

Lemma protocol_context_within_bounds self (T_min T_max lambda : R) d :
  0 < T_min → T_min <= T_max → 0 <= lambda <= 1 →
  get_protocol self T_min T_max = inr d →
  let ratio := T_min / spec_temperature T_min T_max lambda in
  0 < ratio
  ∧ protocol_context d lambda
    = Some [("solute_scale", ratio); ("inter_scale", sqrt ratio);
            ("steric_scale", ratio - 1); ("electrostatic_scale", sqrt ratio - 1)].
Proof.
  intros Hpos HT Hl [= <-]. cbv zeta.
  pose proof (spec_temperature_bounds T_min T_max lambda HT Hl) as [HT1 HT2].
  assert (0 < T_min / spec_temperature T_min T_max lambda) as Hr
    by (apply Rdiv_lt_0_compat; lra).
  split; [exact Hr|].
  unfold protocol_context. cbn [mapM].
  change (eval ?rho (Sqrt ?a))
    with (x ← eval rho a; if Rlt_dec x 0 then None else Some (sqrt x)).
  change (eval ?rho (Sub ?a ?b))
    with (x ← eval rho a; y ← eval rho b; Some (x - y)).
  change (eval ?rho (Sqrt ?a))
    with (x ← eval rho a; if Rlt_dec x 0 then None else Some (sqrt x)).
  rewrite ratio_eval.
  destruct (Req_EM_T (spec_temperature T_min T_max lambda) 0) as [E|_]; [lra|].
  cbn. destruct (Rlt_dec (T_min / spec_temperature T_min T_max lambda) 0); [lra|].
  reflexivity.
Qed.

(** X21. The protocol and the output system together, for
    [0 < T_min <= T_max] and lambda between 0 and 1, with [T] the temperature
    at lambda: setting the global parameters to the values of the protocol
    gives a solute particle its charge times [sqrt (T_min / T)] and its
    epsilon times [T_min / T]; an exception within the solute its charge
    product and epsilon times [T_min / T]; an exception between solute and
    solvent both times [sqrt (T_min / T)]. *)
Theorem protocol_scales_nonbonded system solute_region use_dispersion_correction self
    (T_min T_max lambda : R) d :
  __init__ system solute_region use_dispersion_correction = Returned self →
  0 < T_min → T_min <= T_max → 0 <= lambda <= 1 →
  get_protocol self T_min T_max = inr d →
  ∃ ctx T og nb,
    protocol_context d lambda = Some ctx
    ∧ eval [("lambda", lambda)] (temperature_expression T_min T_max) = Some T
    ∧ og_nonbonded self = Some og ∧ out_nonbonded self = Some nb
    ∧ (∀ i q sigma epsilon,
         valid_index system i → i ∈ solute_region →
         nbParticles og !! Z.to_nat i = Some (q, sigma, epsilon) →
         particle_parameters nb ctx i
         = Some (q * sqrt (T_min / T), sigma, epsilon * (T_min / T)))
    ∧ (∀ j p1 p2 chargeProd sigma epsilon,
         nbExceptions og !! j = Some (p1, p2, chargeProd, sigma, epsilon) →
         (get_identifier self (Many [p1; p2]) = 0%Z →
          exception_parameters nb ctx (Z.of_nat j)
          = Some (chargeProd * (T_min / T), sigma, epsilon * (T_min / T)))
         ∧ (get_identifier self (Many [p1; p2]) = 2%Z →
            exception_parameters nb ctx (Z.of_nat j)
            = Some (chargeProd * sqrt (T_min / T), sigma, epsilon * sqrt (T_min / T)))).
Proof.
  intros H Hpos HT Hl Hd.
  destruct (protocol_context_within_bounds self T_min T_max lambda d Hpos HT Hl Hd)
    as [Hr Hctx]. cbv zeta in Hr, Hctx.
  set (T := spec_temperature T_min T_max lambda) in *.
  set (ctx := [("solute_scale", T_min / T); ("inter_scale", sqrt (T_min / T));
               ("steric_scale", T_min / T - 1);
               ("electrostatic_scale", sqrt (T_min / T) - 1)]) in *.
  assert (lookup_var "electrostatic_scale" ctx = Some (sqrt (T_min / T) - 1)) as He
    by reflexivity.
  assert (lookup_var "steric_scale" ctx = Some (T_min / T - 1)) as Hs by reflexivity.
  pose proof (Returned_inv _ _ _ _ H) as (b0 & a0 & t0 & og0 & nb0 & Hinv).
  cbv zeta in Hinv.
  destruct Hinv as (_ & _ & _ & _ & _ & _ & _ & _ & _ & _ & _ & _ & _ & _ & Hsolute & _).
  apply Returned_forces in H as (bonds & angles & torsions & og & nb & H).
  cbv zeta in H. destruct H as ((_ & _ & _ & Hog) & (_ & _ & _ & Hout) & Hnb & _).
  apply nonbonded_force_containers in Hnb as (_ & Hp & Hexc & _ & Heo).
  exists ctx, T, og, nb. split; [exact Hctx|].
  split; [apply temperature_expression_eval|]. split; [done|]. split; [done|]. split.
  - intros i q sigma epsilon Hi Hin Hlk. destruct (Hp i _ Hi Hlk) as [Hl' Hoffs].
    unfold particle_parameters. rewrite Hl', option_bind_Some.
    rewrite (particle_parameters_scaled _ _ _ _ _ _ _ _ _ He Hs Hoffs).
    cbn [get_identifier]. rewrite Hsolute, (bool_decide_eq_true_2 _ Hin).
    cbn [decide]. rewrite decide_False by done.
    do 2 f_equal; [f_equal|]; lra.
  - intros j p1 p2 chargeProd sigma epsilon Hlk.
    unfold exception_parameters. rewrite Hexc, Nat2Z.id, Hlk, option_bind_Some.
    rewrite (exception_parameters_scaled _ _ _ _ _ _ _ _ _ _ _ He Hs (Heo _ _ Hlk)).
    split; intros ->.
    + rewrite decide_False by done. rewrite decide_True by done.
      do 2 f_equal; [f_equal|]; lra.
    + rewrite decide_False by done. rewrite decide_False by done.
      rewrite decide_True by done. do 2 f_equal; [f_equal|]; lra.
Qed.

Lemma protocol_scales_nonbonded_witness :
  0 < 300 ∧ 300 <= 1200 ∧ 0 <= 1 / 4 <= 1
  ∧ ∃ self d ctx,
      __init__ system4 [0%Z; 1%Z] true = Returned self
      ∧ get_protocol self 300 1200 = inr d
      ∧ protocol_context d (1 / 4) = Some ctx.
Proof.
  assert (0 < 300) as H1 by lra. assert (300 <= 1200) as H2 by lra.
  assert (0 <= 1 / 4 <= 1) as H3 by lra.
  split; [exact H1|]. split; [exact H2|]. split; [exact H3|].
  destruct system4_returns as [self E].
  destruct (protocol_scales_nonbonded system4 [0%Z; 1%Z] true self 300 1200 (1 / 4) _
              E H1 H2 H3 eq_refl) as (ctx & _ & _ & _ & Hctx & _).
  eexists self, _, ctx. split; [exact E|]. split; [reflexivity|]. exact Hctx.
Defined.



(** ** Rewriting twice *)

(** X23. The output system cannot be rewritten again: a second factory,
    built on the output system of the first with a region of the system's
    particles, raises [ValueError] naming exactly the three custom forces. *)
Theorem rewriting_is_not_repeatable system solute_region use_dispersion_correction self
    solute_region' use_dispersion_correction' :
  __init__ system solute_region use_dispersion_correction = Returned self →
  (∀ p, p ∈ solute_region' → valid_index system p) →
  ∃ unknown_forces out,
    __init__ (REST_system self) solute_region' use_dispersion_correction'
    = Raised (ValueError unknown_forces "og") (Some out)
    ∧ ∀ name, name ∈ unknown_forces
              ↔ name ∈ ["CustomBondForce"; "CustomAngleForce"; "CustomTorsionForce"].
Proof.
  intros H Hreg. apply Returned_inv in H as (bonds & angles & torsions & og & nb & H).
  cbv zeta in H.
  destruct H as (_ & _ & _ & _ & _ & _ & _ & _ & _ & _ & Hf & Hm & _).
  unfold REST_system.
  set (B := CustomBondForce _) in Hf. set (A := CustomAngleForce _) in Hf.
  set (T := CustomTorsionForce _) in Hf.
  assert (forces_by_name (_out_system self) !! "NonbondedForce"
          = Some (NonbondedForce nb)) as Hn.
  { apply (forces_by_name_last (_out_system self)
             (copied_forces (forces_by_name system) ++ [B; A; T]) (NonbondedForce nb) []).
    - by rewrite Hf, <- app_assoc.
    - intros f Hin. by apply elem_of_nil in Hin. }
  assert (∀ name, name ∈ dom (forces_by_name (_out_system self)) ∖ _known_forces
                  ↔ name ∈ ["CustomBondForce"; "CustomAngleForce"; "CustomTorsionForce"])
    as Hunknown.
  { intros name.
    rewrite elem_of_difference, dom_forces_by_name, elem_of_list_to_set, Hf, fmap_app,
      elem_of_app.
    unfold _known_forces. rewrite elem_of_list_to_set.
    change (class_name <$> [B; A; T; NonbondedForce nb])
      with ["CustomBondForce"; "CustomAngleForce"; "CustomTorsionForce"; "NonbondedForce"].
    rewrite !elem_of_cons, !elem_of_nil. split.
    - intros [[Hc | Hc] Hk]; [|tauto].
      exfalso. apply Hk. unfold copied_forces in Hc.
      destruct (forces_by_name system !! "MonteCarloBarostat") as [b|] eqn:E;
        [|by apply elem_of_nil in Hc].
      apply forces_by_name_lookup in E as [Hb _]. cbn in Hc.
      rewrite elem_of_cons, elem_of_nil in Hc. destruct Hc as [-> | []].
      rewrite Hb. tauto.
    - intros [-> | [-> | [-> | []]]]; (split; [tauto|]);
        intros [Hk | [Hk | [Hk | [Hk | [Hk | []]]]]]; discriminate Hk. }
  eexists _, _. split; [|exact Hunknown].
  apply (__init__unknown (_out_system self) solute_region' use_dispersion_correction' nb).
  - intros p Hp. apply Hreg in Hp. unfold valid_index, getNumParticles in *.
    by rewrite Hm.
  - exact Hn.
  - intros Hsub.
    assert ("CustomBondForce" ∈ dom (forces_by_name (_out_system self)) ∖ _known_forces)
      as Hin by (apply Hunknown; left).
    apply elem_of_difference in Hin as [Hin Hk]. by apply Hk, Hsub.
Qed.

Lemma rewriting_is_not_repeatable_witness :
  (∀ p, p ∈ [0%Z; 1%Z] → valid_index system4 p)
  ∧ ∃ self unknown_forces out,
      __init__ system4 [0%Z; 1%Z] true = Returned self
      ∧ __init__ (REST_system self) [0%Z; 1%Z] true
        = Raised (ValueError unknown_forces "og") (Some out).
Proof.
  split; [apply region4_valid|].
  destruct system4_returns as [self E].
  destruct (rewriting_is_not_repeatable system4 [0%Z; 1%Z] true self [0%Z; 1%Z] true E
              (region4_valid _)) as (unknown_forces & out & Hr & _).
  exists self, unknown_forces, out. split; [exact E|exact Hr].
Defined.

(** ** kinope.utils: what [serialize] leaves on disk *)








(** ** The other scaling expression *)

(** X25. [scaling_expression(nb=True)] takes one identifier per particle
    (0 solute, 1 solvent) instead of one per term.  It defines the same
    [scale_factor] as [scaling_expression()] does for the pair: [solute_scale]
    when both are solute, 1 when both are solvent, [inter_scale] when one is
    solute and the other solvent. *)
Theorem scaling_expression_nb_agrees ctx (solute_scale inter_scale : R)
    (identifier1 identifier2 : Z) :
  lookup_var "solute_scale" ctx = Some solute_scale →
  lookup_var "inter_scale" ctx = Some inter_scale →
  lookup_var "identifier1" ctx = Some (IZR identifier1) →
  lookup_var "identifier2" ctx = Some (IZR identifier2) →
  (identifier1 = 0 ∨ identifier1 = 1)%Z →
  (identifier2 = 0 ∨ identifier2 = 1)%Z →
  let identifier :=
    if decide (identifier1 = 0%Z ∧ identifier2 = 0%Z) then 0%Z
    else if decide (identifier1 = 1%Z ∧ identifier2 = 1%Z) then 1%Z
    else 2%Z in
  ∃ rho rho',
    eval_defs ctx (scaling_expression true) = Some rho
    ∧ eval_defs (("identifier", IZR identifier) :: ctx) (scaling_expression false)
      = Some rho'
    ∧ lookup_var "scale_factor" rho
      = Some (scale_factor identifier solute_scale inter_scale)
    ∧ lookup_var "scale_factor" rho' = lookup_var "scale_factor" rho.
Proof.
  intros Hs Ht H1 H2 Hi1 Hi2. cbv zeta.
  unfold scaling_expression. do 8 (cbn; rewrite ?Hs, ?Ht, ?H1, ?H2).
  eexists _, _. split; [reflexivity|]. split; [reflexivity|]. cbn.
  unfold scale_factor.
  destruct Hi1 as [-> | ->], Hi2 as [-> | ->]; cbn [decide];
    repeat (case_decide; try lia); split; f_equal;
    repeat first [rewrite delta_0 | rewrite delta_ne by lra
                 | match goal with
                   | |- context [delta ?x] =>
                       let E := fresh in
                       assert (x = 0) as E by lra; rewrite E
                   end]; lra.
Qed.

Lemma scaling_expression_nb_agrees_witness :
  ∃ rho,
    eval_defs [("solute_scale", 1 / 2); ("inter_scale", 1 / 3);
               ("identifier1", IZR 0); ("identifier2", IZR 1)]
              (scaling_expression true) = Some rho
    ∧ lookup_var "scale_factor" rho = Some (scale_factor 2 (1 / 2) (1 / 3)).
Proof.
  destruct (scaling_expression_nb_agrees
              [("solute_scale", 1 / 2); ("inter_scale", 1 / 3);
               ("identifier1", IZR 0); ("identifier2", IZR 1)]
              (1 / 2) (1 / 3) 0 1 eq_refl eq_refl eq_refl eq_refl
              (or_introl eq_refl) (or_intror eq_refl))
    as (rho & rho' & H1 & _ & H2 & _).
  exists rho. split; [exact H1|exact H2].
Defined.

(** ** The protocol heats, then cools *)

Lemma ramp_monotone (T_min T_max x y : R) :
  T_min <= T_max → x <= y → ramp T_min T_max x <= ramp T_min T_max y.
Proof.
  intros HT Hxy. unfold ramp.
  assert (0 < exp 1 - 1) as He by (pose proof (exp_ineq1 1); lra).
  assert (exp (2 * x) <= exp (2 * y)) as Hexp.
  { destruct (Req_dec x y) as [->|]; [lra|]. left. apply exp_increasing. lra. }
  assert ((exp (2 * x) - 1) / (exp 1 - 1) <= (exp (2 * y) - 1) / (exp 1 - 1)) as Hu.
  { unfold Rdiv. apply Rmult_le_compat_r; [|lra]. left. by apply Rinv_0_lt_compat. }
  replace ((T_max - T_min) * (exp (2 * x) - 1) / (exp 1 - 1))
    with ((T_max - T_min) * ((exp (2 * x) - 1) / (exp 1 - 1))) by (unfold Rdiv; ring).
  replace ((T_max - T_min) * (exp (2 * y) - 1) / (exp 1 - 1))
    with ((T_max - T_min) * ((exp (2 * y) - 1) / (exp 1 - 1))) by (unfold Rdiv; ring).
  nra.
Qed.

(** X26. For [T_min <= T_max] the temperature of the protocol does not
    decrease while lambda goes from 0 to 0.5 and does not increase while it
    goes on from 0.5 to 1; for [0 < T_min] the value of [solute_scale] moves
    the other way. *)
Theorem protocol_heats_then_cools self (T_min T_max lambda1 lambda2 : R) d :
  T_min <= T_max → lambda1 <= lambda2 →
  get_protocol self T_min T_max = inr d →
  ∃ T1 T2,
    eval [("lambda", lambda1)] (temperature_expression T_min T_max) = Some T1
    ∧ eval [("lambda", lambda2)] (temperature_expression T_min T_max) = Some T2
    ∧ (lambda2 <= 0.5 → T1 <= T2)
    ∧ (0.5 <= lambda1 → T2 <= T1)
    ∧ (0 < T_min → 0 <= lambda1 → lambda2 <= 1 →
       ∃ s1 s2,
         protocol_value d "solute_scale" lambda1 = Some s1
         ∧ protocol_value d "solute_scale" lambda2 = Some s2
         ∧ (lambda2 <= 0.5 → s2 <= s1)
         ∧ (0.5 <= lambda1 → s1 <= s2)).
Proof.
  intros HT Hl Hd. rewrite !temperature_expression_eval.
  assert (lambda2 <= 0.5 →
          spec_temperature T_min T_max lambda1 <= spec_temperature T_min T_max lambda2)
    as Hup.
  { intros H2. unfold spec_temperature.
    destruct (Rle_dec lambda1 0.5), (Rle_dec lambda2 0.5); try lra.
    by apply ramp_monotone. }
  assert (0.5 <= lambda1 →
          spec_temperature T_min T_max lambda2 <= spec_temperature T_min T_max lambda1)
    as Hdown.
  { intros H1. rewrite <- (spec_temperature_symmetric _ _ lambda1),
      <- (spec_temperature_symmetric _ _ lambda2).
    unfold spec_temperature.
    destruct (Rle_dec (1 - lambda1) 0.5), (Rle_dec (1 - lambda2) 0.5); try lra.
    apply ramp_monotone; lra. }
  eexists _, _. split; [reflexivity|]. split; [reflexivity|].
  split; [exact Hup|]. split; [exact Hdown|].
  intros Hpos H0 H1.
  destruct (protocol_values self T_min T_max lambda1 d Hd) as (A1 & _).
  destruct (protocol_values self T_min T_max lambda2 d Hd) as (A2 & _).
  cbv zeta in A1, A2.
  pose proof (spec_temperature_bounds T_min T_max lambda1 HT ltac:(lra)) as [B1 _].
  pose proof (spec_temperature_bounds T_min T_max lambda2 HT ltac:(lra)) as [B2 _].
  destruct (Req_EM_T (spec_temperature T_min T_max lambda1) 0) as [?|_]; [lra|].
  destruct (Req_EM_T (spec_temperature T_min T_max lambda2) 0) as [?|_]; [lra|].
  eexists _, _. split; [exact A1|]. split; [exact A2|].
  split; intros H; unfold Rdiv; apply Rmult_le_compat_l; try lra;
    apply Rinv_le_contravar; try lra; auto.
Qed.

Lemma protocol_heats_then_cools_witness :
  300 <= 1200 ∧ 1 / 4 <= 1 / 3
  ∧ ∃ d T1 T2,
      get_protocol factory4 300 1200 = inr d
      ∧ eval [("lambda", 1 / 4)] (temperature_expression 300 1200) = Some T1
      ∧ eval [("lambda", 1 / 3)] (temperature_expression 300 1200) = Some T2
      ∧ (1 / 3 <= 0.5 → T1 <= T2).
Proof.
  assert (300 <= 1200) as H1 by lra. assert (1 / 4 <= 1 / 3) as H2 by lra.
  split; [exact H1|]. split; [exact H2|].
  destruct (protocol_heats_then_cools factory4 300 1200 (1 / 4) (1 / 3) _ H1 H2 eq_refl)
    as (T1 & T2 & E1 & E2 & Hup & _).
  eexists _, T1, T2. split; [reflexivity|]. split; [exact E1|]. split; [exact E2|].
  exact Hup.
Defined.

(** * Whole systems and stray terms *)

(** ** The empty solute region *)

Lemma stray_particle system (l : list Z) :
  ¬ Forall (valid_index system) l → ∃ p, p ∈ l ∧ ¬ valid_index system p.
Proof.
  intros Hl.
  assert (∀ x, Decision (valid_index system x)) as Hdec
    by (intros x; unfold valid_index; apply _).
  apply not_Forall_Exists in Hl; [|exact Hdec].
  apply Exists_exists in Hl as (p & Hp & Hn). by exists p.
Qed.

Lemma empty_region_stray system self (l : list Z) :
  _solute_region self = [] →
  (∀ x, x ∈ _solvent_region self ↔ valid_index system x ∧ x ∉ ([] : list Z)) →
  ¬ Forall (valid_index system) l → get_identifier self (Many l) = 2%Z.
Proof.
  intros Hsolute Hsolvent Hl. apply stray_particle in Hl as (p & Hp & Hn).
  apply (get_identifier_stray system self l p); [| |done|done].
  - intros y Hy. by apply Hsolvent in Hy as [? _].
  - rewrite Hsolute. intros y Hy. by apply elem_of_nil in Hy.
Qed.

(** C10 as the code has it. For a system the constructor supports, the
    empty solute region is accepted.  The returned factory classifies every
    particle as solvent (identifier 1), a list of particles of the system as
    solvent, and a list that holds an index outside the system as inter (2).
    So a bonded term over particles of the system carries identifier 1 and one
    that mentions an index outside the system carries 2; no particle gets an
    offset; an exception over particles of the system gets none, and one that
    mentions an index outside the system gets one on [electrostatic_scale].
    When every term is over particles of the system, every bonded term of the
    output carries identifier 1 and the output's nonbonded force has no
    offset at all. *)
Theorem empty_solute_region system use_dispersion_correction :
  supported system →
  ∃ self,
    __init__ system [] use_dispersion_correction = Returned self
    ∧ (∀ p, get_identifier self (Single p) = 1%Z)
    ∧ (∀ l, Forall (valid_index system) l → get_identifier self (Many l) = 1%Z)
    ∧ (∀ l, ¬ Forall (valid_index system) l → get_identifier self (Many l) = 2%Z)
    ∧ ∃ bonds angles torsions og B A T nb,
        (og_bonds self = Some bonds ∧ og_angles self = Some angles
         ∧ og_torsions self = Some torsions ∧ og_nonbonded self = Some og)
        ∧ (out_bond_force self = Some B ∧ out_angle_force self = Some A
           ∧ out_torsion_force self = Some T ∧ out_nonbonded self = Some nb)
        ∧ (∀ i p1 p2 length k, bonds !! i = Some (p1, p2, length, k) →
             (Forall (valid_index system) [p1; p2] →
              terms B !! i = Some ((p1, p2), [length; k; 1]))
             ∧ (¬ Forall (valid_index system) [p1; p2] →
                terms B !! i = Some ((p1, p2), [length; k; 2])))
        ∧ (∀ i p1 p2 p3 theta0 k, angles !! i = Some (p1, p2, p3, theta0, k) →
             (Forall (valid_index system) [p1; p2; p3] →
              terms A !! i = Some ((p1, p2, p3), [theta0; k; 1]))
             ∧ (¬ Forall (valid_index system) [p1; p2; p3] →
                terms A !! i = Some ((p1, p2, p3), [theta0; k; 2])))
        ∧ (∀ i p1 p2 p3 p4 per phase k,
             torsions !! i = Some (p1, p2, p3, p4, per, phase, k) →
             (Forall (valid_index system) [p1; p2; p3; p4] →
              terms T !! i = Some ((p1, p2, p3, p4), [IZR per; phase; k; 1]))
             ∧ (¬ Forall (valid_index system) [p1; p2; p3; p4] →
                terms T !! i = Some ((p1, p2, p3, p4), [IZR per; phase; k; 2])))
        ∧ particleOffsets nb = []
        ∧ (∀ j p1 p2 chargeProd sigma epsilon,
             nbExceptions og !! j = Some (p1, p2, chargeProd, sigma, epsilon) →
             (Forall (valid_index system) [p1; p2] →
              offsets_of (Z.of_nat j) (exceptionOffsets nb) = [])
             ∧ (¬ Forall (valid_index system) [p1; p2] →
                offsets_of (Z.of_nat j) (exceptionOffsets nb)
                = [("electrostatic_scale", Z.of_nat j, chargeProd, 0, epsilon)]))
        ∧ (valid_terms system →
           (∀ term, term ∈ terms B → last term.2 = Some 1)
           ∧ (∀ term, term ∈ terms A → last term.2 = Some 1)
           ∧ (∀ term, term ∈ terms T → last term.2 = Some 1)
           ∧ exceptionOffsets nb = []).
Proof.
  intros Hsup.
  destruct (proj1 (accepted_Returned system [] use_dispersion_correction))
    as [self Hret].
  { split; [|done]. intros p Hp. by apply not_elem_of_nil in Hp. }
  exists self. split; [done|].
  pose proof (Returned_inv _ _ _ _ Hret) as (b' & a' & t' & o' & n' & Hinv).
  cbv zeta in Hinv.
  destruct Hinv as (_ & _ & _ & _ & _ & _ & _ & _ & _ & _ & _ & _ & _ & _ & Hsolute
                    & Hsolvent & _ & _).
  destruct (empty_region_identifier system self Hsolute Hsolvent) as [Hsingle Hmany].
  pose proof (λ l, empty_region_stray system self l Hsolute Hsolvent) as Hstray.
  split; [done|]. split; [done|]. split; [done|].
  apply Returned_forces in Hret as (bonds & angles & torsions & og & nb & H).
  cbv zeta in H. destruct H as (Hog & Hout & Hnb & Hb & Ha & Ht & Hn).
  apply nonbonded_force_containers in Hnb as ((ps & _ & Hpo) & _ & _ & Heo & Heo').
  exists bonds, angles, torsions, og. eexists _, _, _, nb.
  split; [exact Hog|]. split; [exact Hout|].
  split; [|split; [|split; [|split; [|split]]]].
  - intros i p1 p2 length k Hl. cbn [bond_force terms].
    rewrite list_lookup_fmap, Hl. cbn [fmap option_fmap option_map bond].
    split; intros Hv; [by rewrite Hmany|by rewrite Hstray].
  - intros i p1 p2 p3 theta0 k Hl. cbn [angle_force terms].
    rewrite list_lookup_fmap, Hl. cbn [fmap option_fmap option_map angle].
    split; intros Hv; [by rewrite Hmany|by rewrite Hstray].
  - intros i p1 p2 p3 p4 per phase k Hl. cbn [torsion_force terms].
    rewrite list_lookup_fmap, Hl. cbn [fmap option_fmap option_map torsion].
    split; intros Hv; [by rewrite Hmany|by rewrite Hstray].
  - rewrite Hpo. apply concat_zip_with_nil. intros i [[q sigma] epsilon] _.
    unfold particle_offsets. by rewrite decide_True by apply Hsingle.
  - intros j p1 p2 chargeProd sigma epsilon Hl. rewrite (Heo' _ _ Hl).
    unfold exception_offsets. split; intros Hv.
    + by rewrite Hmany, decide_True.
    + rewrite Hstray by done. rewrite decide_False by done.
      rewrite decide_False by done. rewrite decide_True by done.
      by rewrite Rmult_0_l.
  - intros Hvalid.
    apply Hvalid in Hb, Ha, Ht, Hn. cbn [force_particles] in Hb, Ha, Ht, Hn.
    rewrite Forall_forall in Hb, Ha, Ht, Hn.
    repeat split.
    + intros term Hterm. cbn [bond_force terms] in Hterm.
      apply list_elem_of_fmap in Hterm as ([[[p1 p2] length] k] & -> & Hin).
      unfold bond, angle, torsion. cbn [snd]. rewrite Hmany; [done|].
      apply Forall_forall. intros p Hp. apply Hb, list_elem_of_join.
      exists [p1; p2]. split; [done|]. apply list_elem_of_fmap.
      by exists (p1, p2, length, k).
    + intros term Hterm. cbn [angle_force terms] in Hterm.
      apply list_elem_of_fmap in Hterm as ([[[[p1 p2] p3] theta0] k] & -> & Hin).
      unfold bond, angle, torsion. cbn [snd]. rewrite Hmany; [done|].
      apply Forall_forall. intros p Hp. apply Ha, list_elem_of_join.
      exists [p1; p2; p3]. split; [done|]. apply list_elem_of_fmap.
      by exists (p1, p2, p3, theta0, k).
    + intros term Hterm. cbn [torsion_force terms] in Hterm.
      apply list_elem_of_fmap in Hterm as ([[[[[[p1 p2] p3] p4] per] phase] k] & -> & Hin).
      unfold bond, angle, torsion. cbn [snd]. rewrite Hmany; [done|].
      apply Forall_forall. intros p Hp. apply Ht, list_elem_of_join.
      exists [p1; p2; p3; p4]. split; [done|]. apply list_elem_of_fmap.
      by exists (p1, p2, p3, p4, per, phase, k).
    + rewrite Heo. apply concat_zip_with_nil.
      intros j [[[[p1 p2] c] sigma] epsilon] Hin.
      unfold exception_offsets. rewrite decide_True; [done|].
      apply Hmany, Forall_forall. intros p Hp. apply Hn, list_elem_of_join.
      exists [p1; p2]. split; [done|]. apply list_elem_of_fmap.
      by exists (p1, p2, c, sigma, epsilon).
Qed.

Lemma empty_solute_region_witness :
  supported system4
  ∧ ∃ self, __init__ system4 [] true = Returned self
      ∧ ∀ p, get_identifier self (Single p) = 1%Z.
Proof.
  split; [exact system4_supported|].
  destruct (empty_solute_region system4 true system4_supported) as (self & E & Hs & _).
  exists self. split; [exact E | exact Hs].
Defined.

Lemma system4_stray_bond_lookup :
  forces_by_name system4_stray_bond !! "HarmonicBondForce"
  = Some (HarmonicBondForce [(9%Z, 9%Z, 1, 100)]).
Proof. vm_compute. reflexivity. Qed.

Lemma system4_stray_bond_empty_returns :
  ∃ self, __init__ system4_stray_bond [] true = Returned self.
Proof. eexists. vm_compute. reflexivity. Qed.

Lemma system4_stray_bond_terms self :
  __init__ system4_stray_bond [] true = Returned self →
  get_identifier self (Many [9%Z; 9%Z]) = 2%Z
  ∧ out_bond_force self
    = Some (bond_force (get_identifier self) [(9%Z, 9%Z, 1, 100)]).
Proof.
  intros H. apply Returned_inv in H as (bonds & angles & torsions & og & nb & H).
  cbv zeta in H.
  destruct H as (Hb & _ & _ & _ & _ & _ & Ob & _ & _ & _ & _ & _ & _ & _ & Hsolute
                 & Hsolvent & _ & _).
  rewrite system4_stray_bond_lookup in Hb. injection Hb as <-.
  split; [|exact Ob].
  apply (empty_region_stray system4_stray_bond self _ Hsolute Hsolvent).
  intros Hv. apply Forall_cons in Hv as [Hv _].
  unfold valid_index, getNumParticles in Hv. cbn in Hv. lia.
Qed.

(** C10 fails without the condition on the terms: the constructor accepts a
    system with a bond over particle 9 of four; with the empty solute
    region that bond is classified inter, and the output's bond carries
    identifier 2, not 1. *)
Lemma stray_term_in_empty_region :
  supported system4_stray_bond
  ∧ ∃ self B,
      __init__ system4_stray_bond [] true = Returned self
      ∧ get_identifier self (Many [9%Z; 9%Z]) = 2%Z
      ∧ out_bond_force self = Some B
      ∧ terms B = [((9%Z, 9%Z), [1; 100; 2])].
Proof.
  split.
  - exact (proj2 (proj2 (accepted_Returned system4_stray_bond [] true)
                    system4_stray_bond_empty_returns)).
  - destruct system4_stray_bond_empty_returns as [self E].
    destruct (system4_stray_bond_terms self E) as [Hid HB].
    exists self, (bond_force (get_identifier self) [(9%Z, 9%Z, 1, 100)]).
    split; [exact E|]. split; [exact Hid|]. split; [exact HB|].
    cbn [bond_force terms fmap list_fmap bond]. rewrite Hid. reflexivity.
Qed.

(** ** The identity at the reference point *)


















